(** * rippled ledger core: header hashing, skip list, fee queue, validation clock

  A shallow embedding of the parts of the ledger core that the
  specification talks about:

  - [Ledger.cpp]: [Ledger::updateHash], [Ledger::addRaw], [Ledger::setRaw],
    [Ledger::setAccepted], the open-child constructor,
    [Ledger::updateSkipList] and [hashOfSeq];
  - [ConsensusImp.cpp]: [ConsensusImp::validationTimestamp];
  - [TxQ.h], [mulDiv.h]: the data structures and constants of the
    transaction queue;
  - further, for Part IV: [Ledger::rawErase], [Ledger::exists],
    [Ledger::setAccepted ()], [Ledger::assertSane], the constructor from
    fields, [loadLedgerHelper], [finishLoadByIndexOrHash],
    [Ledger::loadByHash], [lowestTerms] and [TxQ::GreaterFee].

  Fixed-width C++ integers are integers of [Z] with the wrap-around
  written out; byte strings are lists of 8-bit [Z]; the state map is a
  finite map. *)

From Stdlib Require Import ZArith Lia Bool.
From stdpp Require Import base option list gmap.

Local Open Scope Z_scope.


(** * Part I: the model *)

(** ** Fixed-width integers *)

Module Ints.

Definition wrap (bits : Z) (x : Z) : Z := x mod 2 ^ bits.

Definition u8 (x : Z) : Z := wrap 8 x.
Definition u32 (x : Z) : Z := wrap 32 x.
Definition u64 (x : Z) : Z := wrap 64 x.

(** Conversion of an unsigned 32-bit value to [int] (two's complement). *)
Definition to_int (x : Z) : Z :=
  let y := u32 x in if y <? 2 ^ 31 then y else y - 2 ^ 32.

(** Conversion of an [int] to [std::size_t] (64 bits). *)
Definition to_size_t (x : Z) : Z := u64 x.

Definition in_range (bits : Z) (x : Z) : Prop := 0 <= x < 2 ^ bits.

Definition UINT32_MAX : Z := 2 ^ 32 - 1.
Definition UINT64_MAX : Z := 2 ^ 64 - 1.

End Ints.

(** ** Serializer and SerialIter

  Modelled from the spec: [Serializer::add8/add32/add64/add256] and
  [SerialIter::get8/get32/get64/get256] ([Serializer.cpp] is not among
  the sources).  The wire format is "in order and big-endian where
  numeric"; a 256-bit hash is its 32 bytes, most significant first.  A
  serializer is the byte buffer written so far; an iterator is the bytes
  still to be read, and a read past the end fails. *)

Module Serial.

Definition Blob := list Z.

(** The [n] low bytes of [x], most significant first. *)
Fixpoint bigEndian (n : nat) (x : Z) : Blob :=
  match n with
  | O => []
  | S n' => (x / 2 ^ (8 * Z.of_nat n')) mod 256 :: bigEndian n' x
  end.

Definition add8 (s : Blob) (x : Z) : Blob := s ++ bigEndian 1 x.
Definition add32 (s : Blob) (x : Z) : Blob := s ++ bigEndian 4 x.
Definition add64 (s : Blob) (x : Z) : Blob := s ++ bigEndian 8 x.
Definition add256 (s : Blob) (x : Z) : Blob := s ++ bigEndian 32 x.

(** Read [n] bytes, most significant first, onto the accumulator. *)
Fixpoint getBytes (n : nat) (acc : Z) (sit : Blob) : option (Z * Blob) :=
  match n with
  | O => Some (acc, sit)
  | S n' =>
      match sit with
      | [] => None
      | b :: rest => getBytes n' (acc * 256 + b) rest
      end
  end.

Definition get8 (sit : Blob) : option (Z * Blob) := getBytes 1 0 sit.
Definition get32 (sit : Blob) : option (Z * Blob) := getBytes 4 0 sit.
Definition get64 (sit : Blob) : option (Z * Blob) := getBytes 8 0 sit.
Definition get256 (sit : Blob) : option (Z * Blob) := getBytes 32 0 sit.

End Serial.


(** ** The ledger object ([Ledger.cpp]) *)

Module LedgerModel.
Import Ints Serial.

(** *** State entries and maps

    Only the ledger-hashes entries (the skip list) of the state map are
    represented; every other entry type lives under a disjoint key space.

    Modelled from the spec: [keylet::skip] and [getLedgerHashIndex]
    ([Indexes.cpp] is not among the sources).  The rolling window lives
    "under a fixed key", the every-256th list under "a key derived from the
    truncated sequence"; the truncation drops the low 16 bits, so that one
    entry holds at most 65536 / 256 = 256 hashes, the bound asserted in
    [Ledger::updateSkipList].  Distinct key constructions are distinct
    keys. *)

Inductive Key : Type :=
| KSkip : Key
| KSkipAt : Z -> Key.

#[global] Instance Key_eq_dec : EqDecision Key.
Proof. solve_decision. Defined.

Definition Key_to_sum (k : Key) : unit + Z :=
  match k with KSkip => inl tt | KSkipAt n => inr n end.

Definition Key_of_sum (s : unit + Z) : Key :=
  match s with inl _ => KSkip | inr n => KSkipAt n end.

#[global] Instance Key_countable : Countable Key.
Proof. apply (inj_countable' Key_to_sum Key_of_sum). intros []; reflexivity. Defined.

Definition getLedgerHashIndex : Key := KSkip.
Definition getLedgerHashIndexAt (desiredLedgerIndex : Z) : Key :=
  KSkipAt (Z.shiftr desiredLedgerIndex 16).

(** A ledger-hashes entry: [sfHashes] and [sfLastLedgerSequence]. *)
Record SLE : Type := mkSLE {
  sfHashes : list Z;
  sfLastLedgerSequence : Z
}.

(** A SHAMap is either known by its root hash only (built from a header,
    its nodes still in the node store) or held in memory. *)
Inductive SHAMap (I : Type) : Type :=
| Backed (root : Z)
| Resolved (items : I).
Arguments Backed {I} root.
Arguments Resolved {I} items.

Abbreviation StateItems := (gmap Key SLE).
Abbreviation TxItems := (gmap Z Blob).

(** *** Collaborators

    The digest, the hashes of the two tries and the close-time helpers are
    defined outside the sources at hand ([SHA512Half.h], [SHAMap.cpp],
    [LedgerTiming.cpp], [HashPrefix.h], [Ledger.h]); the ledger code is
    parametric in them.  [sha512Half] takes the bytes that the variadic
    call feeds the hasher: each integer big-endian at its declared width,
    each 256-bit value as its 32 bytes; its result is a 256-bit value. *)

Class Collaborators : Type := {
  sha512Half : Blob -> Z;
  sha512Half_range : forall bs, 0 <= sha512Half bs < 2 ^ 256;
  HashPrefix_ledgerMaster : Z;
  stateMapHash : StateItems -> Z;
  txMapHash : TxItems -> Z;
  roundCloseTime : Z -> Z -> Z;
  getNextLedgerTimeResolution : Z -> bool -> Z -> Z;
  sLCF_NoConsensusTime : Z;
  ledgerDefaultTimeResolution : Z
}.

Record Ledger : Type := mkLedger {
  info_seq : Z;
  info_hash : Z;
  info_parentCloseTime : Z;
  info_closeTime : Z;
  info_open : bool;
  mParentHash : Z;
  mTransHash : Z;
  mAccountHash : Z;
  mTotCoins : Z;
  mCloseResolution : Z;
  mCloseFlags : Z;
  mValidHash : bool;
  mValidated : bool;
  mAccepted : bool;
  mImmutable : bool;
  txMap_ : option (SHAMap TxItems);
  stateMap_ : option (SHAMap StateItems)
}.

(** The header as the wire format types it. *)
Definition header_wf (L : Ledger) : Prop :=
  in_range 32 (info_seq L) /\ in_range 64 (mTotCoins L) /\
  in_range 256 (mParentHash L) /\ in_range 256 (mTransHash L) /\
  in_range 256 (mAccountHash L) /\
  in_range 32 (info_parentCloseTime L) /\ in_range 32 (info_closeTime L) /\
  in_range 8 (mCloseResolution L) /\ in_range 8 (mCloseFlags L).

Definition same_header (L1 L2 : Ledger) : Prop :=
  info_seq L1 = info_seq L2 /\ mTotCoins L1 = mTotCoins L2 /\
  mParentHash L1 = mParentHash L2 /\ mTransHash L1 = mTransHash L2 /\
  mAccountHash L1 = mAccountHash L2 /\
  info_parentCloseTime L1 = info_parentCloseTime L2 /\
  info_closeTime L1 = info_closeTime L2 /\
  mCloseResolution L1 = mCloseResolution L2 /\
  mCloseFlags L1 = mCloseFlags L2.

Section WithCollaborators.
Context `{C : Collaborators}.

Definition stateGetHash (m : SHAMap StateItems) : Z :=
  match m with Backed h => h | Resolved i => stateMapHash i end.

Definition txGetHash (m : SHAMap TxItems) : Z :=
  match m with Backed h => h | Resolved i => txMapHash i end.

(** [Ledger::addRaw] *)
Definition addRaw (L : Ledger) (s : Blob) : Blob :=
  let s := add32 s (info_seq L) in
  let s := add64 s (mTotCoins L) in
  let s := add256 s (mParentHash L) in
  let s := add256 s (mTransHash L) in
  let s := add256 s (mAccountHash L) in
  let s := add32 s (info_parentCloseTime L) in
  let s := add32 s (info_closeTime L) in
  let s := add8 s (mCloseResolution L) in
  add8 s (mCloseFlags L).

(** The bytes hashed by [Ledger::updateHash]: the prefix, then each
    field cast to its width. *)
Definition hashedBytes (L : Ledger) : Blob :=
  bigEndian 4 HashPrefix_ledgerMaster
  ++ bigEndian 4 (u32 (info_seq L))
  ++ bigEndian 8 (u64 (mTotCoins L))
  ++ bigEndian 32 (mParentHash L)
  ++ bigEndian 32 (mTransHash L)
  ++ bigEndian 32 (mAccountHash L)
  ++ bigEndian 4 (u32 (info_parentCloseTime L))
  ++ bigEndian 4 (u32 (info_closeTime L))
  ++ bigEndian 1 (u8 (mCloseResolution L))
  ++ bigEndian 1 (u8 (mCloseFlags L)).

(** The fields of [addRaw], in the order written. *)
Definition fieldBytes (L : Ledger) : Blob :=
  bigEndian 4 (info_seq L) ++ bigEndian 8 (mTotCoins L)
  ++ bigEndian 32 (mParentHash L) ++ bigEndian 32 (mTransHash L)
  ++ bigEndian 32 (mAccountHash L)
  ++ bigEndian 4 (info_parentCloseTime L) ++ bigEndian 4 (info_closeTime L)
  ++ bigEndian 1 (mCloseResolution L) ++ bigEndian 1 (mCloseFlags L) ++ [].

(** The first half of [Ledger::updateHash]: a mutable ledger takes the
    two roots from its maps (zero when a map is absent). *)
Definition refreshRoots (L : Ledger) : Ledger :=
  if mImmutable L then L
  else
    {| info_seq := info_seq L; info_hash := info_hash L;
       info_parentCloseTime := info_parentCloseTime L;
       info_closeTime := info_closeTime L; info_open := info_open L;
       mParentHash := mParentHash L;
       mTransHash := match txMap_ L with Some m => txGetHash m | None => 0 end;
       mAccountHash := match stateMap_ L with Some m => stateGetHash m | None => 0 end;
       mTotCoins := mTotCoins L; mCloseResolution := mCloseResolution L;
       mCloseFlags := mCloseFlags L; mValidHash := mValidHash L;
       mValidated := mValidated L; mAccepted := mAccepted L;
       mImmutable := mImmutable L; txMap_ := txMap_ L; stateMap_ := stateMap_ L |}.

(** [Ledger::updateHash] *)
Definition updateHash (L : Ledger) : Ledger :=
  let L := refreshRoots L in
  {| info_seq := info_seq L; info_hash := sha512Half (hashedBytes L);
     info_parentCloseTime := info_parentCloseTime L;
     info_closeTime := info_closeTime L; info_open := info_open L;
     mParentHash := mParentHash L; mTransHash := mTransHash L;
     mAccountHash := mAccountHash L;
     mTotCoins := mTotCoins L; mCloseResolution := mCloseResolution L;
     mCloseFlags := mCloseFlags L; mValidHash := true;
     mValidated := mValidated L; mAccepted := mAccepted L;
     mImmutable := mImmutable L; txMap_ := txMap_ L; stateMap_ := stateMap_ L |}.

(** [Ledger::getHash]: the ledger as left by the call, and the hash. *)
Definition getHash (L : Ledger) : Ledger * Z :=
  let L := if mValidHash L then L else updateHash L in (L, info_hash L).

(** [Ledger::setImmutable] *)
Definition setImmutable (L : Ledger) : Ledger :=
  let L := updateHash L in
  {| info_seq := info_seq L; info_hash := info_hash L;
     info_parentCloseTime := info_parentCloseTime L;
     info_closeTime := info_closeTime L; info_open := info_open L;
     mParentHash := mParentHash L; mTransHash := mTransHash L;
     mAccountHash := mAccountHash L;
     mTotCoins := mTotCoins L; mCloseResolution := mCloseResolution L;
     mCloseFlags := mCloseFlags L; mValidHash := mValidHash L;
     mValidated := mValidated L; mAccepted := mAccepted L;
     mImmutable := true; txMap_ := txMap_ L; stateMap_ := stateMap_ L |}.

(** The members a constructor leaves at their defaults. *)
Definition blankLedger (immutable : bool) : Ledger :=
  {| info_seq := 0; info_hash := 0; info_parentCloseTime := 0;
     info_closeTime := 0; info_open := false;
     mParentHash := 0; mTransHash := 0; mAccountHash := 0; mTotCoins := 0;
     mCloseResolution := 0; mCloseFlags := 0; mValidHash := false;
     mValidated := false; mAccepted := false; mImmutable := immutable;
     txMap_ := None; stateMap_ := None |}.

(** [Ledger::setRaw]: read the nine fields, update the hash, then build
    the two maps from the roots just read.  A read past the end of the
    data fails. *)
Definition setRaw (L : Ledger) (sit : Blob) (hasPrefix : bool) : option Ledger :=
  '(_, sit) ← (if hasPrefix then get32 sit else Some (0, sit));
  '(seq, sit) ← get32 sit;
  '(totCoins, sit) ← get64 sit;
  '(parentHash, sit) ← get256 sit;
  '(transHash, sit) ← get256 sit;
  '(accountHash, sit) ← get256 sit;
  '(parentCloseTime, sit) ← get32 sit;
  '(closeTime, sit) ← get32 sit;
  '(closeResolution, sit) ← get8 sit;
  '(closeFlags, sit) ← get8 sit;
  let L :=
    updateHash
      {| info_seq := seq; info_hash := info_hash L;
         info_parentCloseTime := parentCloseTime;
         info_closeTime := closeTime; info_open := info_open L;
         mParentHash := parentHash; mTransHash := transHash;
         mAccountHash := accountHash; mTotCoins := totCoins;
         mCloseResolution := closeResolution; mCloseFlags := closeFlags;
         mValidHash := mValidHash L; mValidated := mValidated L;
         mAccepted := mAccepted L; mImmutable := mImmutable L;
         txMap_ := txMap_ L; stateMap_ := stateMap_ L |} in
  Some
    {| info_seq := info_seq L; info_hash := info_hash L;
       info_parentCloseTime := info_parentCloseTime L;
       info_closeTime := info_closeTime L; info_open := info_open L;
       mParentHash := mParentHash L; mTransHash := mTransHash L;
       mAccountHash := mAccountHash L; mTotCoins := mTotCoins L;
       mCloseResolution := mCloseResolution L; mCloseFlags := mCloseFlags L;
       mValidHash := mValidHash L; mValidated := mValidated L;
       mAccepted := mAccepted L; mImmutable := mImmutable L;
       txMap_ := Some (Backed (mTransHash L));
       stateMap_ := Some (Backed (mAccountHash L)) |}.

(** [Ledger::Ledger (void const* data, std::size_t size, bool hasPrefix)] *)
Definition ledgerFromRaw (data : Blob) (hasPrefix : bool) : option Ledger :=
  setRaw (blankLedger true) data hasPrefix.

(** The header record written by [Ledger::saveValidatedLedger]:
    [s.add32 (HashPrefix::ledgerMaster); addRaw (s)]. *)
Definition headerRecord (L : Ledger) : Blob :=
  addRaw L (add32 [] HashPrefix_ledgerMaster).

(** [Ledger::setAccepted (closeTime, closeResolution, correctCloseTime)].
    The assertion [closed() && !mAccepted] is [setAccepted_pre]. *)
Definition setAccepted_pre (L : Ledger) : Prop :=
  info_open L = false /\ mAccepted L = false.

Definition setAccepted (L : Ledger) (closeTime closeResolution : Z)
    (correctCloseTime : bool) : Ledger :=
  setImmutable
    {| info_seq := info_seq L; info_hash := info_hash L;
       info_parentCloseTime := info_parentCloseTime L;
       info_closeTime :=
         if correctCloseTime then roundCloseTime closeTime closeResolution
         else closeTime;
       info_open := info_open L;
       mParentHash := mParentHash L; mTransHash := mTransHash L;
       mAccountHash := mAccountHash L; mTotCoins := mTotCoins L;
       mCloseResolution := closeResolution;
       mCloseFlags := if correctCloseTime then 0 else sLCF_NoConsensusTime;
       mValidHash := mValidHash L; mValidated := mValidated L;
       mAccepted := true; mImmutable := mImmutable L;
       txMap_ := txMap_ L; stateMap_ := stateMap_ L |}.

(** [Ledger::getCloseAgree] (declared in [Ledger.h], which is not among
    the sources): the test [(mCloseFlags & sLCF_NoConsensusTime) == 0]
    that [Ledger::setAccepted ()] makes. *)
Definition getCloseAgree (L : Ledger) : bool :=
  Z.land (mCloseFlags L) sLCF_NoConsensusTime =? 0.

(** [Ledger::Ledger (bool, Ledger& prevLedger)]: the open ledger that
    follows [prevLedger].  [networkCloseTime] is the value of
    [getApp().getOPs ().getCloseTimeNC ()].  The constructor updates the
    hash of [prevLedger]; the second component is [prevLedger] after the
    call. *)
Definition openChild (prevLedger : Ledger) (networkCloseTime : Z)
    : Ledger * Ledger :=
  let seq := u32 (info_seq prevLedger + 1) in
  let placeholder := wrap 256 (info_hash prevLedger + 1) in
  let prev' := updateHash prevLedger in
  let resolution :=
    getNextLedgerTimeResolution (mCloseResolution prevLedger)
      (getCloseAgree prevLedger) seq in
  ({| info_seq := seq; info_hash := placeholder;
      info_parentCloseTime := info_closeTime prevLedger;
      info_closeTime :=
        if info_closeTime prevLedger =? 0
        then roundCloseTime networkCloseTime resolution
        else u32 (info_closeTime prevLedger + resolution);
      info_open := true;
      mParentHash := snd (getHash prev');
      mTransHash := 0; mAccountHash := 0;
      mTotCoins := mTotCoins prevLedger;
      mCloseResolution := resolution; mCloseFlags := 0;
      mValidHash := false; mValidated := false; mAccepted := false;
      mImmutable := false;
      txMap_ := Some (Resolved ∅);
      stateMap_ := stateMap_ prevLedger |},
   prev').

(** [Ledger::Ledger (RippleAddress const& masterPublicKey,
    std::uint64_t balanceInDrops)]: the genesis ledger.  The account root
    it inserts is not a skip-list entry; the members the constructor does
    not mention are zero. *)
Definition genesisLedger (balanceInDrops : Z) : Ledger :=
  {| info_seq := 1; info_hash := 0; info_parentCloseTime := 0;
     info_closeTime := 0; info_open := false;
     mParentHash := 0; mTransHash := 0; mAccountHash := 0;
     mTotCoins := balanceInDrops;
     mCloseResolution := ledgerDefaultTimeResolution; mCloseFlags := 0;
     mValidHash := false; mValidated := false; mAccepted := false;
     mImmutable := false;
     txMap_ := Some (Resolved ∅); stateMap_ := Some (Resolved ∅) |}.

(** *** Raw state access ([Ledger::peek], [rawInsert], [rawReplace]) *)

Definition withStateItems (L : Ledger) (items : StateItems) : Ledger :=
  {| info_seq := info_seq L; info_hash := info_hash L;
     info_parentCloseTime := info_parentCloseTime L;
     info_closeTime := info_closeTime L; info_open := info_open L;
     mParentHash := mParentHash L; mTransHash := mTransHash L;
     mAccountHash := mAccountHash L; mTotCoins := mTotCoins L;
     mCloseResolution := mCloseResolution L; mCloseFlags := mCloseFlags L;
     mValidHash := mValidHash L; mValidated := mValidated L;
     mAccepted := mAccepted L; mImmutable := mImmutable L;
     txMap_ := txMap_ L; stateMap_ := Some (Resolved items) |}.

(** The items of a state map held in memory. *)
Definition stateItems (L : Ledger) : option StateItems :=
  match stateMap_ L with
  | Some (Resolved items) => Some items
  | _ => None
  end.

(** [Ledger::peek] (and [cachedRead]): the entry under the key, if any. *)
Definition peek (L : Ledger) (k : Key) : option SLE :=
  items ← stateItems L; items !! k.

Definition cachedRead (L : Ledger) (k : Key) : option SLE := peek L k.

(** [Ledger::rawInsert]: [None] is the [LogicError] raised when the key
    already exists (or the map is not in memory). *)
Definition rawInsert (L : Ledger) (k : Key) (sle : SLE) : option Ledger :=
  items ← stateItems L;
  match items !! k with
  | Some _ => None
  | None => Some (withStateItems L (<[k := sle]> items))
  end.

(** [Ledger::rawReplace]: [None] is the [LogicError] raised when the key
    is not found. *)
Definition rawReplace (L : Ledger) (k : Key) (sle : SLE) : option Ledger :=
  items ← stateItems L;
  match items !! k with
  | Some _ => Some (withStateItems L (<[k := sle]> items))
  | None => None
  end.

(** *** [Ledger::updateSkipList] *)

(** The block "update record of every 256th ledger". *)
Definition updateEvery256th (L : Ledger) (prevIndex : Z) : option Ledger :=
  let k := getLedgerHashIndexAt prevIndex in
  let sle := peek L k in
  let hashes := match sle with Some e => sfHashes e | None => [] end in
  let created := match sle with Some _ => false | None => true end in
  let hashes := hashes ++ [mParentHash L] in
  let sle' := {| sfHashes := hashes; sfLastLedgerSequence := prevIndex |} in
  if created then rawInsert L k sle' else rawReplace L k sle'.

(** The block "update record of past 256 ledger". *)
Definition updatePast256 (L : Ledger) (prevIndex : Z) : option Ledger :=
  let k := getLedgerHashIndex in
  let sle := peek L k in
  let hashes := match sle with Some e => sfHashes e | None => [] end in
  let created := match sle with Some _ => false | None => true end in
  let hashes :=
    if Z.of_nat (length hashes) =? 256 then drop 1 hashes else hashes in
  let hashes := hashes ++ [mParentHash L] in
  let sle' := {| sfHashes := hashes; sfLastLedgerSequence := prevIndex |} in
  if created then rawInsert L k sle' else rawReplace L k sle'.

Definition updateSkipList (L : Ledger) : option Ledger :=
  if info_seq L =? 0 then Some L
  else
    let prevIndex := u32 (info_seq L - 1) in
    L ← (if Z.land prevIndex 255 =? 0 then updateEvery256th L prevIndex
         else Some L);
    updatePast256 L prevIndex.

(** *** [hashOfSeq] *)

(** The block "Within 256...": [Some r] when the block returns [r]. *)
Definition hashWithin256 (ledger : Ledger) (seq : Z) : option (option Z) :=
  let diff := to_int (info_seq ledger - seq) in
  if diff <=? 256 then
    match cachedRead ledger getLedgerHashIndex with
    | Some hashIndex =>
        let vec := sfHashes hashIndex in
        let size := Z.of_nat (length vec) in
        if to_size_t diff <=? size
        then Some (vec !! Z.to_nat (u64 (size - to_size_t diff)))
        else None
    | None => None
    end
  else None.

(** The block "in skiplist". *)
Definition hashInSkipList (ledger : Ledger) (seq : Z) : option Z :=
  match cachedRead ledger (getLedgerHashIndexAt seq) with
  | Some hashIndex =>
      let lastSeq := sfLastLedgerSequence hashIndex in
      let diff := Z.shiftr (u32 (lastSeq - seq)) 8 in
      let vec := sfHashes hashIndex in
      let size := Z.of_nat (length vec) in
      if diff <? size then vec !! Z.to_nat (u64 (size - diff - 1)) else None
  | None => None
  end.

Definition hashOfSeq (ledger : Ledger) (seq : Z) : option Z :=
  if info_seq ledger <? seq then None
  else if seq =? info_seq ledger then Some (snd (getHash ledger))
  else if seq =? u32 (info_seq ledger - 1) then Some (mParentHash ledger)
  else
    match hashWithin256 ledger seq with
    | Some r => r
    | None =>
        if negb (Z.land seq 255 =? 0) then None
        else hashInSkipList ledger seq
    end.

(** *** Building a chain

    One round: open the child of the previous ledger, record the parent
    in the skip list, close and accept with the outcome of consensus. *)

Record RoundOutcome : Type := mkRound {
  networkCloseTime : Z;
  agreedCloseTime : Z;
  agreedResolution : Z;
  closeTimeCorrect : bool
}.

(** [Ledger::setClosed] (declared in [Ledger.h]): the ledger stops being
    open, so that [closed()] holds. *)
Definition setClosed (L : Ledger) : Ledger :=
  {| info_seq := info_seq L; info_hash := info_hash L;
     info_parentCloseTime := info_parentCloseTime L;
     info_closeTime := info_closeTime L; info_open := false;
     mParentHash := mParentHash L; mTransHash := mTransHash L;
     mAccountHash := mAccountHash L; mTotCoins := mTotCoins L;
     mCloseResolution := mCloseResolution L; mCloseFlags := mCloseFlags L;
     mValidHash := mValidHash L; mValidated := mValidated L;
     mAccepted := mAccepted L; mImmutable := mImmutable L;
     txMap_ := txMap_ L; stateMap_ := stateMap_ L |}.

Definition nextLedger (prev : Ledger) (o : RoundOutcome) : option Ledger :=
  let child := fst (openChild prev (networkCloseTime o)) in
  child ← updateSkipList child;
  Some (setAccepted (setClosed child) (agreedCloseTime o)
          (agreedResolution o) (closeTimeCorrect o)).

(** The ledger reached after [n] rounds on top of genesis; its sequence
    is [n + 1]. *)
Fixpoint chain (balance : Z) (rounds : nat -> RoundOutcome) (n : nat)
    : option Ledger :=
  match n with
  | O => Some (genesisLedger balance)
  | S n' => prev ← chain balance rounds n'; nextLedger prev (rounds n')
  end.

End WithCollaborators.

End LedgerModel.

(** ** What the skip list should hold

    The entries a chain's skip list holds when every ledger from sequence
    2 on has recorded its parent, the state [updateSkipList] leaves as a
    function of the state it finds, and the hash history of a chain. *)

Module SkipListSpec.
Import Ints Serial LedgerModel.

(** What the skip list of the ledger with sequence [s] holds when every
    ledger from sequence 2 on has recorded its parent; [h i] is the hash
    of the ledger with sequence [i]. *)

Definition windowEntry (h : Z -> Z) (s : Z) : option SLE :=
  if s <=? 1 then None
  else
    let w := Z.min (s - 1) 256 in
    Some {| sfHashes := h <$> seqZ (s - w) w; sfLastLedgerSequence := s - 1 |}.

Definition bucketEntry (h : Z -> Z) (s : Z) (j : Z) : option SLE :=
  let qlo := Z.max 1 (256 * j) in
  let qhi := Z.min ((s - 1) / 256) (256 * j + 255) in
  if qhi <? qlo then None
  else
    Some {| sfHashes := (fun q => h (256 * q)) <$> seqZ qlo (qhi - qlo + 1);
            sfLastLedgerSequence := 256 * qhi |}.

Definition skip_inv (h : Z -> Z) (s : Z) (items : StateItems) : Prop :=
  items !! KSkip = windowEntry h s
  /\ forall j, items !! KSkipAt j = bucketEntry h s j.

(** The state after [updateSkipList], as a function of the state
    before. *)
Definition hashesOf (e : option SLE) : list Z :=
  match e with Some e => sfHashes e | None => [] end.

Definition every256thAfter (prevIndex parent : Z) (items : StateItems)
    : StateItems :=
  if Z.land prevIndex 255 =? 0 then
    <[getLedgerHashIndexAt prevIndex :=
        {| sfHashes := hashesOf (items !! getLedgerHashIndexAt prevIndex) ++ [parent];
           sfLastLedgerSequence := prevIndex |}]> items
  else items.

Definition windowAfter (old : list Z) (parent : Z) : list Z :=
  (if Z.of_nat (length old) =? 256 then drop 1 old else old) ++ [parent].

Definition skipListAfter (seq parent : Z) (items : StateItems) : StateItems :=
  let prevIndex := u32 (seq - 1) in
  <[getLedgerHashIndex :=
      {| sfHashes := windowAfter (hashesOf (items !! getLedgerHashIndex)) parent;
         sfLastLedgerSequence := prevIndex |}]>
    (every256thAfter prevIndex parent items).

Section WithCollaborators.
Context `{C : Collaborators}.

(** The hash of the chain's ledger with sequence [s]. *)
Definition chainHash (balance : Z) (rounds : nat -> RoundOutcome) (s : Z) : Z :=
  match chain balance rounds (Z.to_nat (s - 1)) with
  | Some L => snd (getHash L)
  | None => 0
  end.

(** The cached hash, when valid, is the one [updateHash] computes. *)
Definition hash_coherent (L : Ledger) : Prop :=
  snd (getHash L) = info_hash (updateHash L).

End WithCollaborators.

End SkipListSpec.

(** ** The consensus clock ([ConsensusImp.cpp]) *)

Module Consensus.
Import Ints.

(** The members of [ConsensusImp] that are plain values. *)
Record ConsensusImp : Type := mkConsensus {
  proposing_ : bool;
  validating_ : bool;
  lastCloseProposers_ : Z;
  lastCloseConvergeTook_ : Z;
  lastValidationTimestamp_ : Z;
  lastCloseTime_ : Z
}.

(** The constructor; [idleInterval] is [LEDGER_IDLE_INTERVAL] in seconds. *)
Definition newConsensus (idleInterval : Z) : ConsensusImp :=
  {| proposing_ := false; validating_ := false; lastCloseProposers_ := 0;
     lastCloseConvergeTook_ := 1000 * idleInterval;
     lastValidationTimestamp_ := 0; lastCloseTime_ := 0 |}.

(** [ConsensusImp::validationTimestamp]; [networkTime] is the value of
    [netops_.getNetworkTimeNC ()].  All arithmetic is on [std::uint32_t]. *)
Definition validationTimestamp (c : ConsensusImp) (networkTime : Z)
    : ConsensusImp * Z :=
  let vt := networkTime in
  let vt := if vt <=? lastValidationTimestamp_ c
            then u32 (lastValidationTimestamp_ c + 1) else vt in
  ({| proposing_ := proposing_ c; validating_ := validating_ c;
      lastCloseProposers_ := lastCloseProposers_ c;
      lastCloseConvergeTook_ := lastCloseConvergeTook_ c;
      lastValidationTimestamp_ := vt; lastCloseTime_ := lastCloseTime_ c |},
   vt).

(** Successive calls, one per network-time reading; the timestamps
    returned, in order. *)
Fixpoint validationTimestamps (c : ConsensusImp) (networkTimes : list Z)
    : list Z :=
  match networkTimes with
  | [] => []
  | t :: rest =>
      let '(c', vt) := validationTimestamp c t in
      vt :: validationTimestamps c' rest
  end.

(** Each element is greater than the one before it. *)
Fixpoint increasingFrom (prev : Z) (l : list Z) : Prop :=
  match l with
  | [] => True
  | x :: rest => prev < x /\ increasingFrom x rest
  end.

End Consensus.

(** ** The transaction queue ([TxQ.h])

    The data structures, constants and the [FeeMetrics] constructor are
    those of [TxQ.h]; [mulDiv.h] declares [mulDivNoThrow].  The member
    functions are defined in [TxQ.cpp], which is not among the sources. *)

Module TxQ.
Import Ints.

(** [TxQ::Setup], with its default member initializers. *)
Record Setup : Type := mkSetup {
  ledgersInQueue : Z;
  retrySequencePercent : Z;
  multiTxnPercent : Z;
  minimumEscalationMultiplier : Z;
  minimumTxnInLedger : Z;
  minimumTxnInLedgerSA : Z;
  targetTxnInLedger : Z;
  maximumTxnInLedger : option Z;
  standAlone : bool
}.

Definition defaultSetup : Setup :=
  {| ledgersInQueue := 20; retrySequencePercent := 25; multiTxnPercent := 25;
     minimumEscalationMultiplier := 500; minimumTxnInLedger := 5;
     minimumTxnInLedgerSA := 1000; targetTxnInLedger := 50;
     maximumTxnInLedger := None; standAlone := false |}.

(** [TxQ::FeeMetrics] *)
Record FeeMetrics : Type := mkFeeMetrics {
  minimumTxnCount_ : Z;
  targetTxnCount_ : Z;
  maximumTxnCount_ : option Z;
  txnsExpected_ : Z;
  minimumMultiplier_ : Z;
  escalationMultiplier_ : Z
}.

Definition baseLevel : Z := 256.

(** The constructor [FeeMetrics (Setup const& setup, beast::Journal j)]. *)
Definition newFeeMetrics (setup : Setup) : FeeMetrics :=
  let minimumTxnCount :=
    if standAlone setup then minimumTxnInLedgerSA setup
    else minimumTxnInLedger setup in
  let targetTxnCount :=
    if targetTxnInLedger setup <? minimumTxnCount then minimumTxnCount
    else targetTxnInLedger setup in
  {| minimumTxnCount_ := minimumTxnCount;
     targetTxnCount_ := targetTxnCount;
     maximumTxnCount_ :=
       match maximumTxnInLedger setup with
       | Some m => Some (if m <? targetTxnCount then targetTxnCount else m)
       | None => None
       end;
     txnsExpected_ := minimumTxnCount;
     minimumMultiplier_ := minimumEscalationMultiplier setup;
     escalationMultiplier_ := minimumEscalationMultiplier setup |}.

(** Modelled from the spec: [mulDivNoThrow] ([mulDiv.cpp] is not among the
    sources): "compute (value)*(mul)/(div) while avoiding overflow but
    keeping precision.  Will return the max uint64_t value if mulDiv would
    overflow anyway"; "fee level is saturating on u64". *)
Definition mulDivNoThrow (value mul div : Z) : Z :=
  let r := value * mul / div in
  if UINT64_MAX <? r then UINT64_MAX else r.

(** Modelled from the spec: [TxQ::FeeMetrics::scaleFeeLevel] ([TxQ.cpp] is
    not among the sources).  "Below capacity (count_in_open_view <=
    txns_expected): required fee level = base_level.  Above capacity:
    required level = base_level * multiplier * (open_count)^2 /
    (txns_expected)^2."  [txCount] is [view.txCount ()]. *)
Definition scaleFeeLevel (fm : FeeMetrics) (txCount : Z) : Z :=
  if txCount <=? txnsExpected_ fm then baseLevel
  else mulDivNoThrow (baseLevel * escalationMultiplier_ fm)
         (txCount * txCount) (txnsExpected_ fm * txnsExpected_ fm).

(** [TxQ::CandidateTxn]: the fields the queue orders and indexes by. *)
Record CandidateTxn : Type := mkCandidate {
  feeLevel : Z;
  txID : Z;
  account : Z;
  lastValid : option Z;
  sequence : Z
}.

(** [TxQ::TxQAccount]: [std::map <TxSeq, CandidateTxn>] keyed by the
    sequence number. *)
Record TxQAccount : Type := mkTxQAccount {
  acct : Z;
  transactions : gmap Z CandidateTxn
}.

Definition getTxnCount (a : TxQAccount) : nat := size (transactions a).
Definition empty (a : TxQAccount) : bool := bool_decide (getTxnCount a = 0%nat).

(** Modelled from the spec: [TxQAccount::addCandidate] and
    [removeCandidate] (declared in [TxQ.h], defined in [TxQ.cpp]): the
    account index is "ordered by declared sequence; enforces at-most-one
    per (signer, seq)".  As [std::map::emplace], adding under a sequence
    already present leaves the map as it is. *)
Definition addCandidate (a : TxQAccount) (c : CandidateTxn) : TxQAccount :=
  match transactions a !! sequence c with
  | Some _ => a
  | None => {| acct := acct a; transactions := <[sequence c := c]> (transactions a) |}
  end.

Definition removeCandidate (a : TxQAccount) (seq : Z) : TxQAccount * bool :=
  ({| acct := acct a; transactions := delete seq (transactions a) |},
   bool_decide (is_Some (transactions a !! seq))).

(** The queue: [byFee_] in iteration order (highest fee level first),
    [byAccount_], [maxSize_] and the fee metrics. *)
Record Queue : Type := mkQueue {
  setup_ : Setup;
  feeMetrics_ : FeeMetrics;
  byFee_ : list CandidateTxn;
  byAccount_ : gmap Z TxQAccount;
  maxSize_ : option Z
}.

Definition newQueue (setup : Setup) : Queue :=
  {| setup_ := setup; feeMetrics_ := newFeeMetrics setup; byFee_ := [];
     byAccount_ := ∅; maxSize_ := None |}.

(** [TxQ::isFull] *)
Definition isFull (q : Queue) : bool :=
  match maxSize_ q with
  | Some m => m <=? Z.of_nat (length (byFee_ q))
  | None => false
  end.

(** *** Queue operations

    Modelled from the spec: [TxQ::apply], [TxQ::accept],
    [TxQ::processValidatedLedger] and the private [TxQ::erase] ([TxQ.cpp]
    is not among the sources), after the sections "Admission Queue" and
    "Fee Metrics" and the comments on the declarations in [TxQ.h].  The
    apply engine and the open view are collaborators: the open view is its
    transaction count, and what the engine answers is an input. *)

Definition key (c : CandidateTxn) : Z * Z := (account c, sequence c).

(** The entry queued for [(a, s)], through the account index. *)
Definition lookupCandidate (q : Queue) (a s : Z) : option CandidateTxn :=
  ta ← byAccount_ q !! a; transactions ta !! s.

(** The fee index is a multiset ordered by [GreaterFee]: a new entry
    goes after the entries whose level is not lower ("entries with equal
    level break ties by insertion order"). *)
Fixpoint insertByFee (c : CandidateTxn) (l : list CandidateTxn)
    : list CandidateTxn :=
  match l with
  | [] => [c]
  | x :: rest =>
      if feeLevel x <? feeLevel c then c :: x :: rest
      else x :: insertByFee c rest
  end.

(** Unlink one entry (the first with that key) from the fee index. *)
Fixpoint eraseByFee (k : Z * Z) (l : list CandidateTxn) : list CandidateTxn :=
  match l with
  | [] => []
  | x :: rest => if decide (key x = k) then rest else x :: eraseByFee k rest
  end.

(** Remove an entry from both indices. *)
Definition erase (q : Queue) (c : CandidateTxn) : Queue :=
  {| setup_ := setup_ q; feeMetrics_ := feeMetrics_ q;
     byFee_ := eraseByFee (key c) (byFee_ q);
     byAccount_ :=
       alter (fun ta => fst (removeCandidate ta (sequence c))) (account c)
         (byAccount_ q);
     maxSize_ := maxSize_ q |}.

(** Add an entry to both indices. *)
Definition insert (q : Queue) (c : CandidateTxn) : Queue :=
  let ta := default {| acct := account c; transactions := ∅ |}
              (byAccount_ q !! account c) in
  {| setup_ := setup_ q; feeMetrics_ := feeMetrics_ q;
     byFee_ := insertByFee c (byFee_ q);
     byAccount_ := <[account c := addCandidate ta c]> (byAccount_ q);
     maxSize_ := maxSize_ q |}.

Record OpenView : Type := mkView { txCount : Z }.

Definition applied (view : OpenView) : OpenView :=
  {| txCount := txCount view + 1 |}.

(** What the apply engine answers for one transaction. *)
Inductive ApplyOutcome : Type :=
| ApplySuccess
| ApplyRetry
| ApplyFailure.

(** The result of [TxQ::apply]: the class of the TER code. *)
Inductive AdmitResult : Type :=
| Malformed
| LowFee
| AppliedToLedger
| FailedInLedger
| CannotBeHeld
| Queued.

(** "accept only if new fee level exceeds existing by a configured
    margin (retrySequencePercent)"; a queued level of 1000 with a margin
    of 25 "needs >= 1250". *)
Definition requiredRetryLevel (setup : Setup) (existing : CandidateTxn) : Z :=
  mulDivNoThrow (feeLevel existing) (100 + retrySequencePercent setup) 100.

(** Step 5 of Admit: "If queue is at capacity and tx.level <= lowest
    queued level -> reject.  Else evict lowest and insert." *)
Definition holdInQueue (q : Queue) (view : OpenView) (tx : CandidateTxn)
    : AdmitResult * Queue * OpenView :=
  if isFull q then
    match last (byFee_ q) with
    | Some lowest =>
        if feeLevel tx <=? feeLevel lowest then (LowFee, q, view)
        else (Queued, insert (erase q lowest) tx, view)
    | None => (Queued, insert q tx, view)
    end
  else (Queued, insert q tx, view).

(** Steps 3 to 5 of Admit, once the queue holds no entry for the
    transaction's account and sequence. *)
Definition applyOrHold (q : Queue) (view : OpenView) (tx : CandidateTxn)
    (direct : ApplyOutcome) (canBeHeld : bool)
    : AdmitResult * Queue * OpenView :=
  let required := scaleFeeLevel (feeMetrics_ q) (txCount view) in
  let hold :=
    if canBeHeld then holdInQueue q view tx else (CannotBeHeld, q, view) in
  if required <=? feeLevel tx then
    match direct with
    | ApplySuccess => (AppliedToLedger, q, applied view)
    | ApplyRetry => hold
    | ApplyFailure => (FailedInLedger, q, view)
    end
  else hold.

(** Admit ([TxQ::apply]).  [preflightOk], [direct] and [canBeHeld] are
    the answers of preflight, of applying to the open view, and of
    [TxQ::canBeHeld]. *)
Definition apply (q : Queue) (view : OpenView) (tx : CandidateTxn)
    (preflightOk : bool) (direct : ApplyOutcome) (canBeHeld : bool)
    : AdmitResult * Queue * OpenView :=
  if negb preflightOk then (Malformed, q, view)
  else
    match lookupCandidate q (account tx) (sequence tx) with
    | Some existing =>
        if feeLevel tx <? requiredRetryLevel (setup_ q) existing
        then (LowFee, q, view)
        else applyOrHold (erase q existing) view tx direct canBeHeld
    | None => applyOrHold q view tx direct canBeHeld
    end.

(** "If prior sequence(s) for the same account are still queued". *)
Definition hasPrior (q : Queue) (c : CandidateTxn) : bool :=
  existsb (fun x => (account x =? account c) && (sequence x <? sequence c))
    (byFee_ q).

(** Drain ([TxQ::accept]): walk the fee index from the highest level.
    [engine] answers for each attempted entry at the current count.
    "On retry, leave in place and skip to the next distinct account":
    [skipping] is the account being skipped. *)
Fixpoint acceptLoop (engine : CandidateTxn -> Z -> ApplyOutcome)
    (pending : list CandidateTxn) (skipping : option Z)
    (q : Queue) (view : OpenView) : Queue * OpenView :=
  match pending with
  | [] => (q, view)
  | c :: rest =>
      let required := scaleFeeLevel (feeMetrics_ q) (txCount view) in
      if bool_decide (skipping = Some (account c))
      then acceptLoop engine rest skipping q view
      else if feeLevel c <? required then (q, view)
      else if hasPrior q c
              && (feeLevel c
                  <? mulDivNoThrow required (100 + multiTxnPercent (setup_ q)) 100)
      then acceptLoop engine rest None q view
      else
        match engine c (txCount view) with
        | ApplySuccess => acceptLoop engine rest None (erase q c) (applied view)
        | ApplyRetry => acceptLoop engine rest (Some (account c)) q view
        | ApplyFailure => acceptLoop engine rest None (erase q c) view
        end
  end.

Definition accept (engine : CandidateTxn -> Z -> ApplyOutcome)
    (q : Queue) (view : OpenView) : Queue * OpenView :=
  acceptLoop engine (byFee_ q) None q view.

(** "drop entries whose last_valid_ledger_seq is now in the past" *)
Definition expired (openSeq : Z) (c : CandidateTxn) : bool :=
  match lastValid c with
  | Some lv => lv <? openSeq
  | None => false
  end.

Definition eraseAll (q : Queue) (cs : list CandidateTxn) : Queue :=
  foldl erase q cs.

(** New-ledger sweep ([TxQ::processValidatedLedger]).  [txnsExpected] is
    what [FeeMetrics::update] returns for the ledger just validated;
    [openSeq] is the sequence of the ledger now open. *)
Definition processValidatedLedger (q : Queue) (openSeq : Z) (txnsExpected : Z)
    : Queue :=
  let fm := feeMetrics_ q in
  let q :=
    {| setup_ := setup_ q;
       feeMetrics_ :=
         {| minimumTxnCount_ := minimumTxnCount_ fm;
            targetTxnCount_ := targetTxnCount_ fm;
            maximumTxnCount_ := maximumTxnCount_ fm;
            txnsExpected_ := txnsExpected;
            minimumMultiplier_ := minimumMultiplier_ fm;
            escalationMultiplier_ := escalationMultiplier_ fm |};
       byFee_ := byFee_ q; byAccount_ := byAccount_ q;
       maxSize_ := Some (ledgersInQueue (setup_ q) * txnsExpected) |} in
  let q := eraseAll q (filter (fun c => expired openSeq c = true) (byFee_ q)) in
  eraseAll q (drop (Z.to_nat (ledgersInQueue (setup_ q) * txnsExpected)) (byFee_ q)).

(** The states a queue can reach. *)
Inductive reachable (setup : Setup) : Queue -> Prop :=
| reach_new : reachable setup (newQueue setup)
| reach_apply q view tx preflightOk direct canBeHeld :
    reachable setup q ->
    reachable setup
      (snd (fst (apply q view tx preflightOk direct canBeHeld)))
| reach_accept q engine view :
    reachable setup q ->
    reachable setup (fst (accept engine q view))
| reach_processValidatedLedger q openSeq txnsExpected :
    reachable setup q ->
    reachable setup (processValidatedLedger q openSeq txnsExpected).

(** The number of queued transactions signed by [a] with sequence [s]. *)
Definition queuedCount (q : Queue) (a s : Z) : nat :=
  length (filter (fun c => key c = (a, s)) (byFee_ q)).

(** The two indices agree, and the fee index holds no two entries with
    the same account and sequence. *)
Definition indexed (q : Queue) : Prop :=
  forall a s c,
    lookupCandidate q a s = Some c <-> c ∈ byFee_ q /\ key c = (a, s).

Definition wf (q : Queue) : Prop :=
  NoDup (key <$> byFee_ q) /\ indexed q.

(** The fee index holds no more entries than [maxSize_] allows; a limit
    below one still lets one entry in, since a full queue with no lowest
    entry to compare with accepts. *)
Definition withinCapacity (q : Queue) : Prop :=
  match maxSize_ q with
  | Some m => Z.of_nat (length (byFee_ q)) <= Z.max m 1
  | None => True
  end.

(** [existing] is queued in [q] and in neither index of [q']; every
    other entry is in both. *)
Definition removedFrom (q q' : Queue) (existing : CandidateTxn) : Prop :=
  lookupCandidate q' (account existing) (sequence existing) = None
  /\ (forall a s, (a, s) <> key existing ->
        lookupCandidate q' a s = lookupCandidate q a s)
  /\ byFee_ q ≡ₚ existing :: byFee_ q'.

(** "The new transaction replaces the old one": [q'] is [q] with [tx]
    queued where [existing] was, under the same account and sequence,
    and every other entry as it was. *)
Definition replacedBy (q q' : Queue) (existing tx : CandidateTxn) : Prop :=
  lookupCandidate q' (account tx) (sequence tx) = Some tx
  /\ (forall a s, (a, s) <> key tx ->
        lookupCandidate q' a s = lookupCandidate q a s)
  /\ exists others,
       byFee_ q ≡ₚ existing :: others /\ byFee_ q' ≡ₚ tx :: others.

End TxQ.

(** ** Stand-ins for the collaborators

    Concrete scenarios need concrete collaborators.  The digests below are
    simple polynomial checksums (not SHA-512); the constants are those of
    the protocol ([sLCF_NoConsensusTime = 1], default resolution 30 s,
    prefix "LWR"); [roundCloseTime] rounds to the nearest multiple of the
    resolution. *)

Module Scenario.
Import Ints Serial LedgerModel.

Definition checksum (bs : Blob) : Z :=
  fold_left (fun acc b => (acc * 31 + b + 1) mod 1000000007) bs 7.

Definition entryBytes (ke : Key * SLE) : Blob :=
  (match fst ke with KSkip => [0] | KSkipAt n => [1; n] end)
  ++ sfLastLedgerSequence (snd ke) :: sfHashes (snd ke).

Definition roundToResolution (closeTime closeResolution : Z) : Z :=
  if closeTime =? 0 then 0
  else
    let t := u32 (closeTime + closeResolution / 2) in
    u32 (t - t mod closeResolution).

Lemma checksum_range bs : 0 <= checksum bs < 2 ^ 256.
Proof.
  unfold checksum.
  assert (G : forall acc, 0 <= acc < 1000000007 ->
     0 <= fold_left (fun acc b => (acc * 31 + b + 1) mod 1000000007) bs acc
       < 1000000007).
  { induction bs as [|b bs IH]; intros acc Hacc; cbn; [exact Hacc|].
    apply IH. apply Z.mod_pos_bound. lia. }
  specialize (G 7 ltac:(lia)).
  assert (1000000007 < 2 ^ 256) by (apply Z.ltb_lt; reflexivity). lia.
Qed.

#[global] Instance standIns : Collaborators := {|
  sha512Half := checksum;
  sha512Half_range := checksum_range;
  HashPrefix_ledgerMaster := 0x4C575200;
  stateMapHash := fun items => checksum (concat (entryBytes <$> map_to_list items));
  txMapHash := fun items => checksum (concat (snd <$> map_to_list items));
  roundCloseTime := roundToResolution;
  getNextLedgerTimeResolution := fun previousResolution _ _ => previousResolution;
  sLCF_NoConsensusTime := 1;
  ledgerDefaultTimeResolution := 30
|}.

(** Rounds that all agree on a close time ten seconds after the
    previous one. *)
Definition steadyRounds (n : nat) : RoundOutcome :=
  {| networkCloseTime := 1000 + 10 * Z.of_nat n;
     agreedCloseTime := 1000 + 10 * Z.of_nat n;
     agreedResolution := 30;
     closeTimeCorrect := true |}.

(** An accepted ledger's header with every field set. *)
Definition sampleHeader : Ledger :=
  {| info_seq := 300; info_hash := 0; info_parentCloseTime := 3990;
     info_closeTime := 4020; info_open := false;
     mParentHash := 2 ^ 255 + 12345; mTransHash := 987654321;
     mAccountHash := 2 ^ 200 + 7; mTotCoins := 99999999999999990;
     mCloseResolution := 30; mCloseFlags := 1; mValidHash := false;
     mValidated := false; mAccepted := true; mImmutable := true;
     txMap_ := None; stateMap_ := None |}.

(** The first open ledger on top of genesis, closed. *)
Definition secondLedgerClosed : Ledger :=
  setClosed (fst (openChild (genesisLedger 100000) 1000)).

(** The ledger with sequence [seq] of the chain built on a 100000-drop
    genesis. *)
Definition ledgerAt (seq : nat) : option Ledger :=
  chain 100000 steadyRounds (seq - 1).

Definition thirdLedger : Ledger := default (genesisLedger 0) (ledgerAt 3).

(** More than [2 ^ 256] well-formed immutable headers: one per parent
    hash at sequence 0, and one more at sequence 1. *)
Definition headerOf (i : Z) : Ledger :=
  {| info_seq := if i <? 2 ^ 256 then 0 else 1;
     info_hash := 0; info_parentCloseTime := 0; info_closeTime := 0;
     info_open := false;
     mParentHash := if i <? 2 ^ 256 then i else 0;
     mTransHash := 0; mAccountHash := 0; mTotCoins := 0;
     mCloseResolution := 0; mCloseFlags := 0; mValidHash := false;
     mValidated := false; mAccepted := false; mImmutable := true;
     txMap_ := None; stateMap_ := None |}.

End Scenario.

(** The queue-replacement scenario: account 1 queues sequence 7 at level
    1000 while the open view is above capacity, then resubmits. *)

Module QueueScenario.
Import TxQ.

Definition submission (level id : Z) : CandidateTxn :=
  {| feeLevel := level; txID := id; account := 1; lastValid := None;
     sequence := 7 |}.

Definition crowded : OpenView := {| txCount := 6 |}.

Definition queued1000 : Queue :=
  snd (fst (TxQ.apply (newQueue defaultSetup) crowded (submission 1000 11)
              true ApplyRetry true)).

(** A busier queue: five accounts' transactions held while the open
    ledger is crowded, on a configuration that keeps one ledger's worth
    of transactions. *)

Definition candidate (a s level id : Z) : CandidateTxn :=
  {| feeLevel := level; txID := id; account := a; lastValid := None;
     sequence := s |}.

Definition smallSetup : Setup :=
  {| ledgersInQueue := 1; retrySequencePercent := 25; multiTxnPercent := 25;
     minimumEscalationMultiplier := 500; minimumTxnInLedger := 5;
     minimumTxnInLedgerSA := 1000; targetTxnInLedger := 50;
     maximumTxnInLedger := None; standAlone := false |}.

(** [TxQ::apply] of a transaction that the open ledger answers with a
    retry and that can be held. *)
Definition hold (q : Queue) (tx : CandidateTxn) : Queue :=
  snd (fst (TxQ.apply q crowded tx true ApplyRetry true)).

Definition fiveQueued : Queue :=
  hold (hold (hold (hold (hold (newQueue smallSetup)
    (candidate 1 7 1000 21)) (candidate 2 3 3000 22)) (candidate 3 5 2000 23))
    (candidate 2 4 3000 24)) (candidate 5 1 1500 25).

(** A ledger is validated; four transactions are expected in the next
    one, so the queue keeps four. *)
Definition trimmed : Queue := processValidatedLedger fiveQueued 10 4.

(** The queue is full: the newcomer takes the place of the lowest. *)
Definition evicted : Queue := hold trimmed (candidate 4 1 2500 26).

(** The open ledger has room again; the engine applies transaction 22
    and answers retry for the others. *)
Definition applyOnly22 (c : CandidateTxn) (count : Z) : ApplyOutcome :=
  if txID c =? 22 then ApplySuccess else ApplyRetry.

Definition drained : Queue :=
  fst (accept applyOnly22 evicted {| txCount := 0 |}).

End QueueScenario.

(** ** More of the ledger object ([Ledger.cpp])

    Raw erasure, the acceptance of an acquired ledger, the sanity check,
    and the way a validated ledger goes to the [Ledgers] table and comes
    back ([saveValidatedLedger], [loadLedgerHelper],
    [finishLoadByIndexOrHash], [loadByHash]). *)

Module LedgerStore.
Import Ints Serial LedgerModel.

(** One row of the [Ledgers] table, as [loadLedgerHelper] reads it: a
    column is [None] when it is NULL.  Hashes are stored in hexadecimal
    and the coins in decimal; a column holds the value itself. *)
Record LedgerRow : Type := mkLedgerRow {
  LedgerHash : option Z;
  LedgerSeq : option Z;
  PrevHash : option Z;
  TotalCoins : option Z;
  ClosingTime : option Z;
  PrevClosingTime : option Z;
  CloseTimeRes : option Z;
  CloseFlags : option Z;
  AccountSetHash : option Z;
  TransSetHash : option Z
}.

(** What the constructor from fields does to one of its maps once it has
    built it over its root: the answer of [fetchRoot], which it calls for
    a non-zero root only, and the call of [SHAMap::setImmutable].  The
    ledger record keeps what a map contains; this keeps what was done to
    the map object.  A map built by [Ledger::setRaw] has had neither
    call. *)
Record MapState : Type := mkMapState {
  rootFetched : bool;
  mapImmutable : bool
}.

(** One call of the state operations a ledger is built with:
    [Ledger::rawErase], [rawInsert], [rawReplace] and
    [Ledger::updateSkipList]. *)
Inductive StateOp : Type :=
| OpErase (k : Key)
| OpInsert (k : Key) (sle : SLE)
| OpReplace (k : Key) (sle : SLE)
| OpUpdateSkipList.

Section WithCollaborators.
Context `{C : Collaborators}.

(** [Ledger::exists]: [stateMap_->hasItem (k.key)]. *)
Definition exists_ (L : Ledger) (k : Key) : bool :=
  match stateItems L with
  | Some items => bool_decide (is_Some (items !! k))
  | None => false
  end.

(** [Ledger::rawErase]: [None] is the [LogicError] raised when the key
    is not found (or the map is not in memory). *)
Definition rawErase (L : Ledger) (k : Key) : option Ledger :=
  items ← stateItems L;
  match items !! k with
  | Some _ => Some (withStateItems L (delete k items))
  | None => None
  end.

(** The calls in order; the first that raises ends the run. *)
Definition runStateOp (L : Ledger) (op : StateOp) : option Ledger :=
  match op with
  | OpErase k => rawErase L k
  | OpInsert k sle => rawInsert L k sle
  | OpReplace k sle => rawReplace L k sle
  | OpUpdateSkipList => updateSkipList L
  end.

Fixpoint runStateOps (L : Ledger) (ops : list StateOp) : option Ledger :=
  match ops with
  | [] => Some L
  | op :: rest => L' ← runStateOp L op; runStateOps L' rest
  end.

(** [Ledger::setAccepted ()], the overload without arguments, "used when
    we acquired the ledger". *)
Definition setAcceptedAcquired (L : Ledger) : Ledger :=
  setImmutable
    {| info_seq := info_seq L; info_hash := info_hash L;
       info_parentCloseTime := info_parentCloseTime L;
       info_closeTime :=
         if Z.land (mCloseFlags L) sLCF_NoConsensusTime =? 0
         then roundCloseTime (info_closeTime L) (mCloseResolution L)
         else info_closeTime L;
       info_open := info_open L;
       mParentHash := mParentHash L; mTransHash := mTransHash L;
       mAccountHash := mAccountHash L; mTotCoins := mTotCoins L;
       mCloseResolution := mCloseResolution L;
       mCloseFlags := mCloseFlags L;
       mValidHash := mValidHash L; mValidated := mValidated L;
       mAccepted := true; mImmutable := mImmutable L;
       txMap_ := txMap_ L; stateMap_ := stateMap_ L |}.

(** The condition [Ledger::assertSane] tests. *)
Definition assertSane (L : Ledger) : bool :=
  negb (info_hash L =? 0) && negb (mAccountHash L =? 0)
  && match stateMap_ L, txMap_ L with
     | Some sm, Some tm =>
         (mAccountHash L =? stateGetHash sm) && (mTransHash L =? txGetHash tm)
     | _, _ => false
     end.

(** [Ledger::Ledger (parentHash, transHash, accountHash, totCoins,
    closeTime, parentCloseTime, closeFlags, closeResolution, ledgerSeq,
    loaded)]: the ledger, the state of its transaction map and of its
    state map, and the value left in [loaded].  [haveTxRoot] and
    [haveStateRoot] are what [fetchRoot] answers for the two roots, when
    it is called. *)
Definition ledgerFromFields
    (parentHash transHash accountHash totCoins closeTime parentCloseTime
     closeFlags closeResolution ledgerSeq : Z)
    (haveTxRoot haveStateRoot : bool)
    : Ledger * (MapState * MapState) * bool :=
  let L :=
    updateHash
      {| info_seq := ledgerSeq; info_hash := 0;
         info_parentCloseTime := parentCloseTime;
         info_closeTime := closeTime; info_open := false;
         mParentHash := parentHash; mTransHash := transHash;
         mAccountHash := accountHash; mTotCoins := totCoins;
         mCloseResolution := closeResolution; mCloseFlags := closeFlags;
         mValidHash := false; mValidated := false; mAccepted := false;
         mImmutable := true;
         txMap_ := Some (Backed transHash);
         stateMap_ := Some (Backed accountHash) |} in
  let loaded := true in
  let txFetched := negb (mTransHash L =? 0) && haveTxRoot in
  let loaded :=
    if negb (mTransHash L =? 0) && negb haveTxRoot then false else loaded in
  let stateFetched := negb (mAccountHash L =? 0) && haveStateRoot in
  let loaded :=
    if negb (mAccountHash L =? 0) && negb haveStateRoot then false else loaded in
  (L,
   ({| rootFetched := txFetched; mapImmutable := true |},
    {| rootFetched := stateFetched; mapImmutable := true |}),
   loaded).

(** The row [Ledger::saveValidatedLedger] writes to the [Ledgers] table.
    The ledger is immutable when it is saved ([pendSaveValidated] asserts
    it), so [getHash] changes nothing the other columns read. *)
Definition ledgerRow (L : Ledger) : LedgerRow :=
  let '(L, hash) := getHash L in
  {| LedgerHash := Some hash; LedgerSeq := Some (info_seq L);
     PrevHash := Some (mParentHash L); TotalCoins := Some (mTotCoins L);
     ClosingTime := Some (info_closeTime L);
     PrevClosingTime := Some (info_parentCloseTime L);
     CloseTimeRes := Some (mCloseResolution L);
     CloseFlags := Some (mCloseFlags L);
     AccountSetHash := Some (mAccountHash L);
     TransSetHash := Some (mTransHash L) |}.

(** [loadLedgerHelper]; [row] is what the query returns ([None]: no
    data).  The columns are read as 64-bit values and converted to the
    constructor's parameter types.  The ledger is handed on as the ledger
    record; its maps stay as the constructor left them. *)
Definition loadLedgerHelper (row : option LedgerRow)
    (haveTxRoot haveStateRoot : bool) : option Ledger * Z * Z :=
  match row with
  | None => (None, 0, 0)
  | Some r =>
      let ledgerSeq := u32 (default 0 (LedgerSeq r)) in
      let ledgerHash := default 0 (LedgerHash r) in
      let '(ledger, _, loaded) :=
        ledgerFromFields (default 0 (PrevHash r)) (default 0 (TransSetHash r))
          (default 0 (AccountSetHash r)) (default 0 (TotalCoins r))
          (u32 (default 0 (ClosingTime r)))
          (u32 (default 0 (PrevClosingTime r)))
          (to_int (default 0 (CloseFlags r)))
          (to_int (default 0 (CloseTimeRes r)))
          ledgerSeq haveTxRoot haveStateRoot in
      if loaded then (Some ledger, ledgerSeq, ledgerHash)
      else (None, ledgerSeq, ledgerHash)
  end.

(** [finishLoadByIndexOrHash]; [haveLedger] is what
    [getApp ().getOPs ().haveLedger] answers for the sequence.  The
    closing [setFull] changes no member represented here. *)
Definition finishLoadByIndexOrHash (ledger : option Ledger) (haveLedger : bool)
    : option Ledger :=
  match ledger with
  | None => None
  | Some l =>
      let l := setImmutable (setClosed l) in
      Some (if haveLedger then setAcceptedAcquired l else l)
  end.

(** [Ledger::loadByHash] (and [loadByIndex], which differs in the query
    only). *)
Definition loadByHash (row : option LedgerRow)
    (haveTxRoot haveStateRoot haveLedger : bool) : option Ledger :=
  finishLoadByIndexOrHash
    (fst (fst (loadLedgerHelper row haveTxRoot haveStateRoot))) haveLedger.

End WithCollaborators.

End LedgerStore.

(** ** The layout of the serialized header

    What a run of bytes denotes when read as one big-endian number, to
    state where [Ledger::setRaw] finds each field. *)

Module WireSpec.
Import Serial.

Definition bytesValue (bs : Blob) : Z :=
  fold_left (fun acc b => acc * 256 + b) bs 0.

(** The [n] bytes of [data] from offset [off], as a number. *)
Definition fieldAt (data : Blob) (off n : nat) : Z :=
  bytesValue (take n (drop off data)).

Definition isByte (b : Z) : Prop := 0 <= b < 256.

End WireSpec.

(** ** Lowest terms ([mulDiv.h]) *)

Module MulDiv.
Import Ints.

(** The loop of [lowestTerms]: [while (y != 0) { t = x % y; x = y; y = t; }]
    on [std::uint64_t]; the value of [x] when the loop ends.  [fuel]
    bounds the number of iterations. *)
Fixpoint euclid (fuel : nat) (x y : Z) : option Z :=
  match fuel with
  | O => None
  | S fuel' => if y =? 0 then Some x else euclid fuel' y (x mod y)
  end.

(** [lowestTerms (a, b)] for unsigned arguments: the values left in [a]
    and [b].  [None] when the iterations run out, or when both divisions
    are by zero. *)
Definition lowestTerms (fuel : nat) (a b : Z) : option (Z * Z) :=
  x ← euclid fuel (u64 a) (u64 b);
  if x =? 0 then None else Some (a / x, b / x).

End MulDiv.

(** ** The order of the fee index ([TxQ.h]) *)

Module FeeIndex.
Import TxQ.

(** [TxQ::GreaterFee::operator()] *)
Definition GreaterFee (lhs rhs : CandidateTxn) : bool :=
  feeLevel rhs <? feeLevel lhs.

(** A sequence is ordered by a comparison when no element compares
    before an element that precedes it. *)
Fixpoint orderedBy (comp : CandidateTxn -> CandidateTxn -> bool)
    (l : list CandidateTxn) : Prop :=
  match l with
  | [] => True
  | x :: rest => Forall (fun y => comp y x = false) rest /\ orderedBy comp rest
  end.

End FeeIndex.

(** * Part II: facts about the model *)

(** ** Fixed-width integers *)

Module IntsFacts.
Import Ints.

Lemma wrap_range bits x : 0 <= bits -> in_range bits (wrap bits x).
Proof.
  intros Hb. unfold in_range, wrap. apply Z.mod_pos_bound.
  apply Z.pow_pos_nonneg; lia.
Qed.

Lemma wrap_small bits x : in_range bits x -> wrap bits x = x.
Proof. intros H. unfold wrap. apply Z.mod_small. exact H. Qed.

Lemma u8_small x : in_range 8 x -> u8 x = x.
Proof. apply wrap_small. Qed.

Lemma u32_small x : in_range 32 x -> u32 x = x.
Proof. apply wrap_small. Qed.

Lemma u64_small x : in_range 64 x -> u64 x = x.
Proof. apply wrap_small. Qed.

Lemma u32_range x : 0 <= u32 x < 2 ^ 32.
Proof. apply (wrap_range 32); lia. Qed.

Lemma to_int_small x : 0 <= x < 2 ^ 31 -> to_int x = x.
Proof.
  intros H. unfold to_int. rewrite u32_small by (unfold in_range; lia).
  destruct (Z.ltb_spec x (2 ^ 31)); lia.
Qed.

Lemma to_int_big x : 2 ^ 31 <= x < 2 ^ 32 -> to_int x = x - 2 ^ 32.
Proof.
  intros H. unfold to_int. rewrite u32_small by (unfold in_range; lia).
  destruct (Z.ltb_spec x (2 ^ 31)); lia.
Qed.


End IntsFacts.

(** ** Serializer round trips *)

Module SerialFacts.
Import Ints Serial.

Lemma bigEndian_length n x : length (bigEndian n x) = n.
Proof. induction n as [|n IH]; simpl; [reflexivity | now rewrite IH]. Qed.

Lemma bigEndian_bytes n x : Forall (fun b => 0 <= b < 256) (bigEndian n x).
Proof.
  induction n as [|n IH]; simpl; constructor; [|exact IH].
  apply Z.mod_pos_bound. lia.
Qed.

Lemma bigEndian_wrap n x :
  bigEndian n (x mod 2 ^ (8 * Z.of_nat n)) = bigEndian n x.
Proof.
  assert (G : forall m k : nat, (m <= k)%nat ->
     bigEndian m (x mod 2 ^ (8 * Z.of_nat k)) = bigEndian m x).
  { induction m as [|m IH]; intros k Hk; simpl; [reflexivity|].
    rewrite IH by lia. f_equal.
    set (q := x / 2 ^ (8 * Z.of_nat k)).
    set (d := Z.of_nat k - Z.of_nat m - 1).
    assert (Hx : x mod 2 ^ (8 * Z.of_nat k)
                 = x + (- q * 2 ^ (8 * d) * 256) * 2 ^ (8 * Z.of_nat m)).
    { rewrite Z.mod_eq by (apply Z.pow_nonzero; lia). fold q.
      replace (8 * Z.of_nat k) with (8 * d + 8 + 8 * Z.of_nat m) by lia.
      rewrite !Z.pow_add_r by lia. change (2 ^ 8) with 256. ring. }
    rewrite Hx, Z.div_add by (apply Z.pow_nonzero; lia).
    apply Z.mod_add. lia. }
  apply G. lia.
Qed.

Lemma getBytes_bigEndian n x acc rest :
  getBytes n acc (bigEndian n x ++ rest)
  = Some (acc * 2 ^ (8 * Z.of_nat n) + x mod 2 ^ (8 * Z.of_nat n), rest).
Proof.
  revert acc. induction n as [|n IH]; intros acc.
  - simpl. rewrite Z.mod_1_r. do 2 f_equal. lia.
  - cbn [bigEndian getBytes app]. rewrite IH. do 2 f_equal.
    replace (8 * Z.of_nat (S n)) with (8 * Z.of_nat n + 8) by lia.
    rewrite Z.pow_add_r by lia. change (2 ^ 8) with 256.
    rewrite (Z.rem_mul_r x (2 ^ (8 * Z.of_nat n)) 256)
      by (try apply Z.pow_nonzero; lia).
    ring.
Qed.

Lemma get8_add8 x rest : get8 (bigEndian 1 x ++ rest) = Some (Ints.u8 x, rest).
Proof. unfold get8. rewrite getBytes_bigEndian. reflexivity. Qed.

Lemma get32_add32 x rest : get32 (bigEndian 4 x ++ rest) = Some (Ints.u32 x, rest).
Proof. unfold get32. rewrite getBytes_bigEndian. reflexivity. Qed.

Lemma get64_add64 x rest : get64 (bigEndian 8 x ++ rest) = Some (Ints.u64 x, rest).
Proof. unfold get64. rewrite getBytes_bigEndian. reflexivity. Qed.

Lemma get256_add256 x rest :
  get256 (bigEndian 32 x ++ rest) = Some (Ints.wrap 256 x, rest).
Proof. unfold get256. rewrite getBytes_bigEndian. reflexivity. Qed.


End SerialFacts.

(** ** Facts about the header: serialization and hashing *)

Module HeaderFacts.
Import Ints IntsFacts Serial SerialFacts LedgerModel.

Section WithCollaborators.
Context `{C : Collaborators}.

Lemma bigEndian_u8 x : bigEndian 1 (u8 x) = bigEndian 1 x.
Proof. exact (bigEndian_wrap 1 x). Qed.

Lemma bigEndian_u32 x : bigEndian 4 (u32 x) = bigEndian 4 x.
Proof. exact (bigEndian_wrap 4 x). Qed.

Lemma bigEndian_u64 x : bigEndian 8 (u64 x) = bigEndian 8 x.
Proof. exact (bigEndian_wrap 8 x). Qed.

Lemma addRaw_fieldBytes L s : addRaw L s = s ++ fieldBytes L.
Proof.
  unfold addRaw, fieldBytes, add8, add32, add64, add256.
  rewrite app_nil_r. rewrite <- !app_assoc. reflexivity.
Qed.

Lemma addRaw_length L : length (addRaw L []) = 118%nat.
Proof.
  rewrite addRaw_fieldBytes. unfold fieldBytes.
  rewrite !length_app, !bigEndian_length. reflexivity.
Qed.

(** "This has to match addRaw": the hashed bytes are the prefix followed
    by the serialized header. *)
Lemma hashedBytes_headerRecord L : hashedBytes L = headerRecord L.
Proof.
  unfold headerRecord. rewrite addRaw_fieldBytes.
  unfold hashedBytes, fieldBytes, add32.
  rewrite !bigEndian_u8, !bigEndian_u32, !bigEndian_u64, app_nil_r.
  reflexivity.
Qed.

Lemma headerRecord_addRaw L :
  headerRecord L = bigEndian 4 HashPrefix_ledgerMaster ++ addRaw L [].
Proof.
  unfold headerRecord. rewrite !addRaw_fieldBytes. reflexivity.
Qed.

Lemma refreshRoots_immutable L : mImmutable L = true -> refreshRoots L = L.
Proof. intros H. unfold refreshRoots. rewrite H. reflexivity. Qed.

Lemma hashedBytes_same_header L1 L2 :
  same_header L1 L2 -> hashedBytes L1 = hashedBytes L2.
Proof.
  intros (H1 & H2 & H3 & H4 & H5 & H6 & H7 & H8 & H9).
  unfold hashedBytes. congruence.
Qed.

Lemma updateHash_header L : same_header (updateHash L) (refreshRoots L).
Proof. unfold same_header, updateHash. simpl. tauto. Qed.

Lemma updateHash_info_hash L :
  info_hash (updateHash L) = sha512Half (hashedBytes (updateHash L)).
Proof.
  rewrite (hashedBytes_same_header _ _ (updateHash_header L)). reflexivity.
Qed.

Lemma updateHash_valid L : mValidHash (updateHash L) = true.
Proof. reflexivity. Qed.

Ltac read_field :=
  first [ rewrite get32_add32 | rewrite get64_add64
        | rewrite get256_add256 | rewrite get8_add8 ];
  cbn [mbind option_bind].

(** What [setRaw] reads back from a serialized header. *)
Lemma setRaw_addRaw (L0 L : Ledger) (prefix : Blob) (hasPrefix : bool) :
  mImmutable L0 = true ->
  prefix = (if hasPrefix then bigEndian 4 HashPrefix_ledgerMaster else []) ->
  exists L',
    setRaw L0 (prefix ++ addRaw L []) hasPrefix = Some L'
    /\ info_seq L' = u32 (info_seq L)
    /\ mTotCoins L' = u64 (mTotCoins L)
    /\ mParentHash L' = wrap 256 (mParentHash L)
    /\ mTransHash L' = wrap 256 (mTransHash L)
    /\ mAccountHash L' = wrap 256 (mAccountHash L)
    /\ info_parentCloseTime L' = u32 (info_parentCloseTime L)
    /\ info_closeTime L' = u32 (info_closeTime L)
    /\ mCloseResolution L' = u8 (mCloseResolution L)
    /\ mCloseFlags L' = u8 (mCloseFlags L)
    /\ info_hash L' = sha512Half (hashedBytes L')
    /\ mImmutable L' = true
    /\ txMap_ L' = Some (Backed (mTransHash L'))
    /\ stateMap_ L' = Some (Backed (mAccountHash L')).
Proof.
  intros Himm ->. rewrite addRaw_fieldBytes, app_nil_l.
  unfold fieldBytes, setRaw.
  destruct hasPrefix; cbv iota; [rewrite get32_add32 | rewrite app_nil_l];
    cbn [mbind option_bind];
    repeat read_field;
    (eexists; split; [reflexivity|]);
    unfold updateHash, refreshRoots; cbn; rewrite Himm; cbn;
    repeat split; reflexivity.
Qed.

(** The hash prefix is read and dropped. *)
Lemma setRaw_prefix L0 p data :
  setRaw L0 (bigEndian 4 p ++ data) true = setRaw L0 data false.
Proof. unfold setRaw. rewrite get32_add32. reflexivity. Qed.

(** On well-formed headers the serialization determines the nine
    fields, and conversely. *)
Lemma addRaw_same_header L1 L2 :
  header_wf L1 -> header_wf L2 ->
  (addRaw L1 [] = addRaw L2 [] <-> same_header L1 L2).
Proof.
  intros W1 W2. split.
  - intros E.
    destruct (setRaw_addRaw (blankLedger true) L1 [] false eq_refl eq_refl)
      as (A & HA & a1 & a2 & a3 & a4 & a5 & a6 & a7 & a8 & a9 & _).
    destruct (setRaw_addRaw (blankLedger true) L2 [] false eq_refl eq_refl)
      as (B & HB & b1 & b2 & b3 & b4 & b5 & b6 & b7 & b8 & b9 & _).
    rewrite E in HA. rewrite HA in HB. injection HB as <-.
    destruct W1 as (w1 & w2 & w3 & w4 & w5 & w6 & w7 & w8 & w9).
    destruct W2 as (v1 & v2 & v3 & v4 & v5 & v6 & v7 & v8 & v9).
    unfold u8, u32, u64 in *.
    rewrite wrap_small in a1, a2, a3, a4, a5, a6, a7, a8, a9 by assumption.
    rewrite wrap_small in b1, b2, b3, b4, b5, b6, b7, b8, b9 by assumption.
    unfold same_header. repeat split; congruence.
  - intros (H1 & H2 & H3 & H4 & H5 & H6 & H7 & H8 & H9).
    rewrite !addRaw_fieldBytes. unfold fieldBytes. congruence.
Qed.

End WithCollaborators.

End HeaderFacts.

(** ** Facts about the skip list *)

Module SkipFacts.
Import Ints IntsFacts Serial LedgerModel SkipListSpec.

Ltac zdiv := Z.div_mod_to_equations; lia.

(** Equal terms up to linear arithmetic in their arguments. *)
Ltac arith_eq := repeat first [ reflexivity | lia | progress f_equal ].

Lemma land_255 x : Z.land x 255 = x mod 256.
Proof. change 255 with (Z.ones 8). rewrite Z.land_ones by lia. reflexivity. Qed.

Lemma shiftr_16 x : Z.shiftr x 16 = x / 65536.
Proof. rewrite Z.shiftr_div_pow2 by lia. reflexivity. Qed.

Lemma shiftr_8 x : Z.shiftr x 8 = x / 256.
Proof. rewrite Z.shiftr_div_pow2 by lia. reflexivity. Qed.

Lemma land_255_u32 x : Z.land (u32 x) 255 = x mod 256.
Proof.
  rewrite land_255. unfold u32, wrap.
  change (2 ^ 32) with 4294967296. zdiv.
Qed.

Lemma fmap_seqZ_snoc {A} (f : Z -> A) m n :
  0 <= n -> f <$> seqZ m (n + 1) = (f <$> seqZ m n) ++ [f (m + n)].
Proof.
  intros Hn. rewrite seqZ_app by lia. rewrite fmap_app.
  rewrite (seqZ_cons (m + n) 1) by lia.
  rewrite (seqZ_nil (Z.succ (m + n))) by lia. reflexivity.
Qed.

Lemma fmap_seqZ_lookup {A} (f : Z -> A) m n i :
  0 <= i < n -> (f <$> seqZ m n) !! Z.to_nat i = Some (f (m + i)).
Proof.
  intros Hi. rewrite list_lookup_fmap, lookup_seqZ_lt by lia.
  simpl. do 2 f_equal. lia.
Qed.

Lemma fmap_seqZ_length {A} (f : Z -> A) m n :
  0 <= n -> Z.of_nat (length (f <$> seqZ m n)) = n.
Proof. intros Hn. rewrite length_fmap, length_seqZ. lia. Qed.

(** The rolling window after one more parent. *)
Lemma window_push (h : Z -> Z) (s : Z) :
  1 <= s ->
  let old := match windowEntry h s with Some e => sfHashes e | None => [] end in
  (if Z.of_nat (length old) =? 256 then drop 1 old else old) ++ [h s]
  = h <$> seqZ (s + 1 - Z.min s 256) (Z.min s 256).
Proof.
  intros Hs. unfold windowEntry. cbv zeta.
  destruct (Z.leb_spec s 1) as [Hle|Hgt].
  - assert (s = 1) as -> by lia. reflexivity.
  - cbn [sfHashes]. rewrite fmap_seqZ_length by lia.
    destruct (Z.eqb_spec (Z.min (s - 1) 256) 256) as [E|NE].
    + rewrite E. replace (Z.min s 256) with (255 + 1) by lia.
      rewrite fmap_seqZ_snoc by lia. f_equal; [|arith_eq].
      rewrite (seqZ_cons (s - 256)) by lia. cbn [fmap list_fmap drop].
      rewrite drop_0. arith_eq.
    + replace (Z.min s 256) with (Z.min (s - 1) 256 + 1) by lia.
      rewrite fmap_seqZ_snoc by lia. f_equal; arith_eq.
Qed.

Lemma windowEntry_next (h : Z -> Z) (s : Z) :
  1 <= s ->
  windowEntry h (s + 1)
  = Some {| sfHashes := h <$> seqZ (s + 1 - Z.min s 256) (Z.min s 256);
            sfLastLedgerSequence := s |}.
Proof.
  intros Hs. unfold windowEntry.
  destruct (Z.leb_spec (s + 1) 1); [lia|].
  replace (s + 1 - 1) with s by lia. reflexivity.
Qed.

(** The every-256th entries do not change unless the parent's sequence
    is a multiple of 256, and then only the parent's own entry does. *)
Lemma bucketEntry_same (h : Z -> Z) (s j : Z) :
  1 <= s -> (s mod 256 <> 0 \/ j <> s / 65536) ->
  bucketEntry h (s + 1) j = bucketEntry h s j.
Proof.
  intros Hs Hc. unfold bucketEntry.
  replace (s + 1 - 1) with s by lia.
  assert (E : Z.min (s / 256) (256 * j + 255)
              = Z.min ((s - 1) / 256) (256 * j + 255)
              \/ (Z.min (s / 256) (256 * j + 255) <? Z.max 1 (256 * j)) = true
                 /\ (Z.min ((s - 1) / 256) (256 * j + 255) <? Z.max 1 (256 * j)) = true).
  { destruct Hc as [Hc|Hc].
    - left. f_equal. zdiv.
    - destruct (Z.lt_ge_cases j (s / 65536)).
      + left. assert (256 * j + 255 <= (s - 1) / 256) by zdiv.
        assert ((s - 1) / 256 <= s / 256) by zdiv. lia.
      + right. assert (s / 256 < 256 * j) by zdiv.
        assert ((s - 1) / 256 <= s / 256) by zdiv.
        split; apply Z.ltb_lt; lia. }
  destruct E as [E|[E1 E2]].
  - rewrite E. reflexivity.
  - rewrite E1, E2. reflexivity.
Qed.

Lemma bucketEntry_push (h : Z -> Z) (s : Z) :
  1 <= s -> s mod 256 = 0 ->
  let old := match bucketEntry h s (s / 65536) with
             | Some e => sfHashes e | None => [] end in
  bucketEntry h (s + 1) (s / 65536)
  = Some {| sfHashes := old ++ [h s]; sfLastLedgerSequence := s |}.
Proof.
  intros Hs Hm. cbv zeta. unfold bucketEntry.
  replace (s + 1 - 1) with s by lia.
  set (j := s / 65536).
  assert (Hq : s = 256 * (s / 256)) by zdiv.
  assert (Hj1 : 256 * j <= s / 256 <= 256 * j + 255) by (subst j; zdiv).
  assert (Hp : (s - 1) / 256 = s / 256 - 1) by zdiv.
  assert (Hq1 : 1 <= s / 256) by zdiv.
  rewrite Hp.
  replace (Z.min (s / 256) (256 * j + 255)) with (s / 256) by lia.
  replace (Z.min (s / 256 - 1) (256 * j + 255)) with (s / 256 - 1) by lia.
  destruct (Z.ltb_spec (s / 256) (Z.max 1 (256 * j))); [lia|].
  f_equal.
  destruct (Z.ltb_spec (s / 256 - 1) (Z.max 1 (256 * j))).
  - cbn [app]. f_equal; [|lia].
    replace (s / 256 - Z.max 1 (256 * j) + 1) with 1 by lia.
    rewrite seqZ_cons, seqZ_nil by lia. cbn. arith_eq.
  - cbn [sfHashes]. f_equal; [|lia].
    replace (s / 256 - Z.max 1 (256 * j) + 1)
      with ((s / 256 - 1 - Z.max 1 (256 * j) + 1) + 1) by lia.
    rewrite fmap_seqZ_snoc by lia. arith_eq.
Qed.

Section WithCollaborators.
Context `{C : Collaborators}.

Lemma stateItems_withStateItems L items :
  stateItems (withStateItems L items) = Some items.
Proof. reflexivity. Qed.

Lemma peek_resolved L items k : stateItems L = Some items -> peek L k = items !! k.
Proof. intros H. unfold peek. rewrite H. reflexivity. Qed.

Lemma withStateItems_twice L i1 i2 :
  withStateItems (withStateItems L i1) i2 = withStateItems L i2.
Proof. reflexivity. Qed.

Lemma withStateItems_same L items :
  stateItems L = Some items -> withStateItems L items = L.
Proof.
  unfold stateItems. destruct L as [? ? ? ? ? ? ? ? ? ? ? ? ? ? ? ? sm].
  simpl. destruct sm as [[r|i]|]; intros H; inversion H. reflexivity.
Qed.

Lemma updateEvery256th_resolved L items prevIndex :
  stateItems L = Some items ->
  updateEvery256th L prevIndex
  = Some (withStateItems L
            (<[getLedgerHashIndexAt prevIndex :=
                 {| sfHashes := hashesOf (items !! getLedgerHashIndexAt prevIndex)
                                ++ [mParentHash L];
                    sfLastLedgerSequence := prevIndex |}]> items)).
Proof.
  intros H. unfold updateEvery256th, rawInsert, rawReplace.
  rewrite (peek_resolved L items _ H), H. cbn [mbind option_bind].
  destruct (items !! getLedgerHashIndexAt prevIndex); reflexivity.
Qed.

Lemma updatePast256_resolved L items prevIndex :
  stateItems L = Some items ->
  updatePast256 L prevIndex
  = Some (withStateItems L
            (<[getLedgerHashIndex :=
                 {| sfHashes := windowAfter (hashesOf (items !! getLedgerHashIndex))
                                  (mParentHash L);
                    sfLastLedgerSequence := prevIndex |}]> items)).
Proof.
  intros H. unfold updatePast256, rawInsert, rawReplace.
  rewrite (peek_resolved L items _ H), H. cbn [mbind option_bind].
  destruct (items !! getLedgerHashIndex); reflexivity.
Qed.

(** [updateSkipList] never raises on a state held in memory. *)
Lemma updateSkipList_resolved L items :
  stateItems L = Some items ->
  updateSkipList L
  = Some (if info_seq L =? 0 then L
          else withStateItems L
                 (skipListAfter (info_seq L) (mParentHash L) items)).
Proof.
  intros H. unfold updateSkipList.
  destruct (info_seq L =? 0); [reflexivity|].
  unfold skipListAfter, every256thAfter.
  destruct (Z.land (u32 (info_seq L - 1)) 255 =? 0).
  - rewrite (updateEvery256th_resolved L items _ H). cbn [mbind option_bind].
    rewrite (updatePast256_resolved _ _ _ (stateItems_withStateItems _ _)).
    rewrite lookup_insert_ne by discriminate. reflexivity.
  - cbn [mbind option_bind].
    rewrite (updatePast256_resolved L items _ H). reflexivity.
Qed.

Lemma skipListAfter_window seq parent items :
  skipListAfter seq parent items !! KSkip
  = Some {| sfHashes := windowAfter (hashesOf (items !! KSkip)) parent;
            sfLastLedgerSequence := u32 (seq - 1) |}.
Proof. unfold skipListAfter. apply lookup_insert_eq. Qed.

Lemma skipListAfter_bucket seq parent items j :
  skipListAfter seq parent items !! KSkipAt j
  = if (Z.land (u32 (seq - 1)) 255 =? 0) && (j =? Z.shiftr (u32 (seq - 1)) 16)
    then Some {| sfHashes := hashesOf (items !! KSkipAt j) ++ [parent];
                 sfLastLedgerSequence := u32 (seq - 1) |}
    else items !! KSkipAt j.
Proof.
  unfold skipListAfter, every256thAfter, getLedgerHashIndex, getLedgerHashIndexAt.
  rewrite lookup_insert_ne by discriminate.
  destruct (Z.land (u32 (seq - 1)) 255 =? 0); [|reflexivity].
  cbn [andb]. destruct (Z.eqb_spec j (Z.shiftr (u32 (seq - 1)) 16)) as [->|NE].
  - apply lookup_insert_eq.
  - apply lookup_insert_ne. congruence.
Qed.

Lemma windowAfter_length old parent :
  (length old <= 256)%nat -> (length (windowAfter old parent) <= 256)%nat.
Proof.
  intros H. unfold windowAfter. rewrite length_app. cbn [length].
  destruct (Z.eqb_spec (Z.of_nat (length old)) 256).
  - rewrite length_drop. lia.
  - lia.
Qed.

Lemma windowAfter_last old parent : last (windowAfter old parent) = Some parent.
Proof. unfold windowAfter. apply last_snoc. Qed.

(** One round keeps the skip list in step with the chain. *)
Lemma skipListAfter_inv (h : Z -> Z) (s : Z) (items : StateItems) :
  1 <= s < 2 ^ 32 - 1 ->
  skip_inv h s items ->
  skip_inv h (s + 1) (skipListAfter (s + 1) (h s) items).
Proof.
  intros Hs [Hw Hb].
  assert (Hu : u32 (s + 1 - 1) = s).
  { replace (s + 1 - 1) with s by lia. apply u32_small. unfold in_range. lia. }
  split.
  - rewrite skipListAfter_window, Hu, Hw.
    rewrite windowEntry_next by lia. f_equal. f_equal.
    apply (window_push h s). lia.
  - intros j. rewrite skipListAfter_bucket, Hu, land_255, shiftr_16, Hb.
    destruct (Z.eqb_spec (s mod 256) 0) as [Hm|Hm]; cbn [andb].
    + destruct (Z.eqb_spec j (s / 65536)) as [->|NE].
      * symmetry. apply (bucketEntry_push h s); lia.
      * symmetry. apply bucketEntry_same; [lia | right; exact NE].
    + symmetry. apply bucketEntry_same; [lia | left; exact Hm].
Qed.

(** The rolling window answers every sequence at most 256 back. *)
Lemma hashWithin256_inv (h : Z -> Z) L s items k :
  info_seq L = s -> stateItems L = Some items -> skip_inv h s items ->
  1 <= k -> k + 2 <= s -> s < 2 ^ 32 ->
  hashWithin256 L k = if s - k <=? 256 then Some (Some (h k)) else None.
Proof.
  intros Hseq Hst [Hw _] Hk1 Hk2 Hs. unfold hashWithin256, cachedRead.
  rewrite (peek_resolved L items _ Hst). unfold getLedgerHashIndex.
  rewrite Hw, Hseq. unfold windowEntry.
  destruct (Z.leb_spec s 1); [lia|]. cbn [sfHashes].
  rewrite fmap_seqZ_length by lia.
  destruct (Z.lt_ge_cases (s - k) (2 ^ 31)) as [Hsmall|Hbig].
  - rewrite to_int_small by lia.
    destruct (Z.leb_spec (s - k) 256) as [Hd|Hd]; [|reflexivity].
    unfold to_size_t. rewrite u64_small by (unfold in_range; lia).
    destruct (Z.leb_spec (s - k) (Z.min (s - 1) 256)); [|lia].
    rewrite u64_small by (unfold in_range; lia).
    rewrite fmap_seqZ_lookup by lia. arith_eq.
  - rewrite to_int_big by lia.
    destruct (Z.leb_spec (s - k - 2 ^ 32) 256); [|lia].
    destruct (Z.leb_spec (s - k) 256); [lia|].
    assert (E : to_size_t (s - k - 2 ^ 32) = s - k - 2 ^ 32 + 2 ^ 64).
    { unfold to_size_t, u64, wrap.
      rewrite <- (Z.mod_add _ 1) by lia.
      apply Z.mod_small. lia. }
    rewrite E.
    destruct (Z.leb_spec (s - k - 2 ^ 32 + 2 ^ 64) (Z.min (s - 1) 256)); [lia|].
    reflexivity.
Qed.

(** The every-256th list answers every multiple of 256 below the
    ledger's own sequence. *)
Lemma hashInSkipList_inv (h : Z -> Z) L s items k :
  stateItems L = Some items -> skip_inv h s items ->
  1 <= k -> k + 1 <= s -> s < 2 ^ 32 -> k mod 256 = 0 ->
  hashInSkipList L k = Some (h k).
Proof.
  intros Hst [_ Hb] Hk1 Hk2 Hs Hm. unfold hashInSkipList, cachedRead.
  rewrite (peek_resolved L items _ Hst). unfold getLedgerHashIndexAt.
  rewrite Hb, shiftr_16. unfold bucketEntry.
  set (j := k / 65536).
  assert (Hq : k = 256 * (k / 256)) by zdiv.
  assert (Hj : 256 * j <= k / 256 <= 256 * j + 255) by (subst j; zdiv).
  assert (Hq1 : 1 <= k / 256) by zdiv.
  assert (Hhi : k / 256 <= (s - 1) / 256) by zdiv.
  assert (Hs256 : (s - 1) / 256 < 2 ^ 24) by zdiv.
  set (qlo := Z.max 1 (256 * j)). set (qhi := Z.min ((s - 1) / 256) (256 * j + 255)).
  assert (Hlo : qlo <= k / 256) by lia.
  assert (Hqhi : k / 256 <= qhi < 2 ^ 24) by lia.
  destruct (Z.ltb_spec qhi qlo); [lia|].
  cbn [sfHashes sfLastLedgerSequence].
  rewrite fmap_seqZ_length by lia.
  assert (E : Z.shiftr (u32 (256 * qhi - k)) 8 = qhi - k / 256).
  { rewrite u32_small by (unfold in_range; lia). rewrite shiftr_8. zdiv. }
  rewrite E.
  destruct (Z.ltb_spec (qhi - k / 256) (qhi - qlo + 1)); [|lia].
  rewrite u64_small by (unfold in_range; lia).
  rewrite fmap_seqZ_lookup by lia. arith_eq.
Qed.

Lemma hashOfSeq_inv (h : Z -> Z) L s items k :
  info_seq L = s -> stateItems L = Some items -> skip_inv h s items ->
  snd (getHash L) = h s -> (2 <= s -> mParentHash L = h (s - 1)) ->
  1 <= k <= s -> s < 2 ^ 32 ->
  s - k <= 256 \/ k mod 256 = 0 ->
  hashOfSeq L k = Some (h k).
Proof.
  intros Hseq Hst Hinv Hh Hp Hk Hs Hc. unfold hashOfSeq. rewrite Hseq.
  destruct (Z.ltb_spec s k); [lia|].
  destruct (Z.eqb_spec k s) as [->|Hne]; [congruence|].
  rewrite u32_small by (unfold in_range; lia).
  destruct (Z.eqb_spec k (s - 1)) as [->|Hne']; [rewrite Hp by lia; reflexivity|].
  rewrite (hashWithin256_inv h L s items k) by (try assumption; lia).
  destruct (Z.leb_spec (s - k) 256); [reflexivity|].
  destruct Hc as [Hc|Hc]; [lia|].
  rewrite land_255, Hc. cbn [Z.eqb negb].
  apply (hashInSkipList_inv h L s items k); try assumption; lia.
Qed.

(** *** The chain keeps its skip list in step *)

Lemma setImmutable_coherent X : hash_coherent (setImmutable X).
Proof. unfold hash_coherent. reflexivity. Qed.

Lemma genesis_coherent balance : hash_coherent (genesisLedger balance).
Proof. unfold hash_coherent. reflexivity. Qed.

Lemma openChild_parent prev now :
  hash_coherent prev ->
  mParentHash (fst (openChild prev now)) = snd (getHash prev).
Proof. intros H. rewrite H. reflexivity. Qed.

Lemma nextLedger_resolved prev o items :
  stateItems prev = Some items -> hash_coherent prev ->
  info_seq prev + 1 < 2 ^ 32 -> 0 <= info_seq prev ->
  exists L,
    nextLedger prev o = Some L
    /\ info_seq L = info_seq prev + 1
    /\ mParentHash L = snd (getHash prev)
    /\ stateItems L
       = Some (skipListAfter (info_seq prev + 1) (snd (getHash prev)) items)
    /\ hash_coherent L.
Proof.
  intros Hst Hco Hlt Hge. unfold nextLedger.
  set (child := fst (openChild prev (networkCloseTime o))).
  assert (Hcs : info_seq child = info_seq prev + 1).
  { subst child. cbn. apply u32_small. unfold in_range. lia. }
  assert (Hcp : mParentHash child = snd (getHash prev)).
  { subst child. apply openChild_parent. exact Hco. }
  assert (Hci : stateItems child = Some items) by exact Hst.
  rewrite (updateSkipList_resolved child items Hci).
  destruct (Z.eqb_spec (info_seq child) 0) as [E|_]; [lia|].
  cbn [mbind option_bind]. rewrite Hcs, Hcp.
  eexists. split; [reflexivity|].
  split; [|split; [|split]].
  - cbn. exact Hcs.
  - cbn. exact Hcp.
  - reflexivity.
  - apply setImmutable_coherent.
Qed.

Lemma chain_inv balance rounds (n : nat) :
  Z.of_nat n + 1 < 2 ^ 32 ->
  exists L items,
    chain balance rounds n = Some L
    /\ info_seq L = Z.of_nat n + 1
    /\ stateItems L = Some items
    /\ skip_inv (chainHash balance rounds) (Z.of_nat n + 1) items
    /\ (1 <= Z.of_nat n -> mParentHash L = chainHash balance rounds (Z.of_nat n))
    /\ hash_coherent L.
Proof.
  induction n as [|n IH]; intros Hn.
  - exists (genesisLedger balance), ∅. repeat split; try reflexivity.
    + intros j. rewrite lookup_empty. unfold bucketEntry.
      change ((Z.of_nat 0 + 1 - 1) / 256) with 0.
      destruct (Z.ltb_spec (Z.min 0 (256 * j + 255)) (Z.max 1 (256 * j)));
        [reflexivity | lia].
    + cbn. lia.
  - destruct IH as (prev & items & Hch & Hseq & Hst & Hinv & _ & Hco); [lia|].
    assert (Hh : chainHash balance rounds (Z.of_nat n + 1) = snd (getHash prev)).
    { unfold chainHash. replace (Z.to_nat (Z.of_nat n + 1 - 1)) with n by lia.
      rewrite Hch. reflexivity. }
    destruct (nextLedger_resolved prev (rounds n) items Hst Hco)
      as (L & HL & Ls & Lp & Li & Lc); [lia | lia |].
    exists L, (skipListAfter (info_seq prev + 1) (snd (getHash prev)) items).
    cbn [chain]. rewrite Hch. cbn [mbind option_bind].
    split; [exact HL|].
    split; [lia|].
    split; [exact Li|].
    split.
    + rewrite Hseq, <- Hh.
      replace (Z.of_nat (S n) + 1) with (Z.of_nat n + 1 + 1) by lia.
      apply skipListAfter_inv; [lia | exact Hinv].
    + split; [|exact Lc].
      intros _. rewrite Lp, <- Hh. f_equal. lia.
Qed.

(** Every hash the chain's skip list covers is the hash of the chain's
    ledger with that sequence. *)
Lemma chain_hashOfSeq balance rounds (n : nat) (L : Ledger) (k : Z) :
  chain balance rounds n = Some L ->
  Z.of_nat n + 1 < 2 ^ 32 ->
  1 <= k <= Z.of_nat n + 1 ->
  Z.of_nat n + 1 - k <= 256 \/ k mod 256 = 0 ->
  hashOfSeq L k = Some (chainHash balance rounds k).
Proof.
  intros Hch Hn Hk Hc.
  destruct (chain_inv balance rounds n Hn)
    as (L' & items & Hch' & Hseq & Hst & Hinv & Hp & Hco).
  rewrite Hch in Hch'. injection Hch' as <-.
  apply (hashOfSeq_inv _ L (Z.of_nat n + 1) items k); try assumption.
  - unfold chainHash. replace (Z.to_nat (Z.of_nat n + 1 - 1)) with n by lia.
    rewrite Hch. reflexivity.
  - intros Hn2. replace (Z.of_nat n + 1 - 1) with (Z.of_nat n) by lia.
    apply Hp. lia.
Qed.

End WithCollaborators.

End SkipFacts.

(** ** Facts about the transaction queue *)

Module TxQFacts.
Import Ints TxQ.

Create HintDb txq discriminated.

Lemma key_eq c a s : key c = (a, s) <-> account c = a /\ sequence c = s.
Proof. unfold key. split; [intros [= -> ->]; auto | intros [-> ->]; auto]. Qed.

(** *** The fee index *)

Lemma eraseByFee_sublist k l : eraseByFee k l `sublist_of` l.
Proof.
  induction l as [|x l IH]; cbn; [constructor|].
  destruct (decide (key x = k)).
  - apply sublist_cons. reflexivity.
  - apply sublist_skip. exact IH.
Qed.

Lemma eraseByFee_NoDup k l :
  NoDup (key <$> l) -> NoDup (key <$> eraseByFee k l).
Proof.
  intros H.
  exact (sublist_NoDup _ _ H (fmap_sublist key _ _ (eraseByFee_sublist k l))).
Qed.

Lemma elem_of_eraseByFee k l x :
  NoDup (key <$> l) -> (x ∈ eraseByFee k l <-> x ∈ l /\ key x <> k).
Proof.
  induction l as [|y l IH]; cbn; intros Hnd.
  - split; [intros H; inversion H | intros [H _]; inversion H].
  - apply NoDup_cons in Hnd as [Hy Hnd].
    destruct (decide (key y = k)) as [<-|Hne].
    + split.
      * intros Hx. split; [right; exact Hx|].
        intros E. apply Hy. rewrite <- E. apply list_elem_of_fmap_2. exact Hx.
      * intros [Hx Hk]. apply elem_of_cons in Hx as [->|Hx]; [congruence | exact Hx].
    + rewrite !elem_of_cons, (IH Hnd). split.
      * intros [->|[Hx Hk]]; auto.
      * intros [[->|Hx] Hk]; auto.
Qed.

Lemma elem_of_insertByFee c l x : x ∈ insertByFee c l <-> x = c \/ x ∈ l.
Proof.
  induction l as [|y l IH]; cbn.
  - rewrite list_elem_of_singleton. split; [auto | intros [H|H]; [exact H | inversion H]].
  - destruct (feeLevel y <? feeLevel c).
    + rewrite !elem_of_cons. tauto.
    + rewrite !elem_of_cons, IH. tauto.
Qed.

Lemma insertByFee_NoDup c l :
  NoDup (key <$> l) -> key c ∉ key <$> l ->
  NoDup (key <$> insertByFee c l).
Proof.
  induction l as [|y l IH]; cbn; intros Hnd Hc.
  - apply NoDup_singleton.
  - destruct (feeLevel y <? feeLevel c); cbn.
    + apply NoDup_cons. split; assumption.
    + apply NoDup_cons in Hnd as [Hy Hnd].
      apply not_elem_of_cons in Hc as [Hcy Hc].
      apply NoDup_cons. split; [|apply IH; assumption].
      rewrite list_elem_of_fmap. intros (z & Hz & Hin).
      apply elem_of_insertByFee in Hin as [->|Hin]; [congruence|].
      apply Hy. rewrite Hz. apply list_elem_of_fmap_2. exact Hin.
Qed.

(** *** The account index *)

Lemma lookupCandidate_erase q c a s :
  lookupCandidate (erase q c) a s
  = if decide ((a, s) = key c) then None else lookupCandidate q a s.
Proof.
  unfold lookupCandidate, erase, key. cbn [byAccount_].
  destruct (decide ((a, s) = (account c, sequence c))) as [[= -> ->]|Hne].
  - rewrite lookup_alter_eq.
    destruct (byAccount_ q !! account c) as [ta|]; cbn; [|reflexivity].
    apply lookup_delete_eq.
  - destruct (decide (account c = a)) as [<-|Hna].
    + rewrite lookup_alter_eq.
      destruct (byAccount_ q !! account c) as [ta|]; cbn; [|reflexivity].
      apply lookup_delete_ne. congruence.
    + rewrite lookup_alter_ne by exact Hna. reflexivity.
Qed.

Lemma lookupCandidate_insert q c a s :
  lookupCandidate q (account c) (sequence c) = None ->
  lookupCandidate (insert q c) a s
  = if decide ((a, s) = key c) then Some c else lookupCandidate q a s.
Proof.
  unfold lookupCandidate, insert, key, addCandidate. cbn [byAccount_].
  intros Hfree.
  destruct (byAccount_ q !! account c) as [ta|] eqn:Hta; cbn in Hfree |- *.
  - rewrite Hfree.
    destruct (decide ((a, s) = (account c, sequence c))) as [[= -> ->]|Hne].
    + rewrite lookup_insert_eq. cbn. apply lookup_insert_eq.
    + destruct (decide (account c = a)) as [<-|Hna].
      * rewrite lookup_insert_eq, Hta. cbn. apply lookup_insert_ne. congruence.
      * rewrite lookup_insert_ne by exact Hna. reflexivity.
  - rewrite lookup_empty.
    destruct (decide ((a, s) = (account c, sequence c))) as [[= -> ->]|Hne].
    + rewrite lookup_insert_eq. cbn. apply lookup_insert_eq.
    + destruct (decide (account c = a)) as [<-|Hna].
      * rewrite lookup_insert_eq, Hta. cbn.
        rewrite lookup_insert_ne by congruence. apply lookup_empty.
      * rewrite lookup_insert_ne by exact Hna. reflexivity.
Qed.

(** *** The operations keep the queue well formed *)

Lemma wf_newQueue setup : wf (newQueue setup).
Proof.
  split; [constructor|]. intros a s c. unfold lookupCandidate. cbn.
  rewrite lookup_empty. cbn. split; [discriminate | intros [H _]; inversion H].
Qed.

Lemma wf_erase q c : wf q -> wf (erase q c).
Proof.
  intros [Hnd Hix]. split.
  - apply eraseByFee_NoDup. exact Hnd.
  - intros a s x. rewrite lookupCandidate_erase. cbn [erase byFee_].
    rewrite (elem_of_eraseByFee _ _ _ Hnd).
    destruct (decide ((a, s) = key c)) as [E|NE].
    + split; [discriminate | intros [[_ H1] H2]; congruence].
    + rewrite (Hix a s x). split.
      * intros [H1 H2]. repeat split; auto. congruence.
      * intros [[H1 _] H2]. auto.
Qed.

Lemma wf_insert q c :
  wf q -> lookupCandidate q (account c) (sequence c) = None -> wf (insert q c).
Proof.
  intros [Hnd Hix] Hfree. split.
  - cbn [insert byFee_]. apply insertByFee_NoDup; [exact Hnd|].
    rewrite list_elem_of_fmap. intros (x & Hk & Hin).
    assert (Hx : lookupCandidate q (account c) (sequence c) = Some x).
    { apply Hix. split; [exact Hin | symmetry; exact Hk]. }
    congruence.
  - intros a s x. rewrite (lookupCandidate_insert q c a s Hfree).
    cbn [insert byFee_]. rewrite elem_of_insertByFee.
    destruct (decide ((a, s) = key c)) as [E|NE].
    + split.
      * intros [= <-]. split; [left; reflexivity | symmetry; exact E].
      * intros [[->|Hin] Hk]; [reflexivity|].
        assert (Hx : lookupCandidate q (account c) (sequence c) = Some x).
        { apply Hix. split; [exact Hin | rewrite Hk, E; reflexivity]. }
        congruence.
    + rewrite (Hix a s x). split.
      * intros [H1 H2]. split; [right; exact H1 | exact H2].
      * intros [[->|Hin] Hk]; [congruence | split; assumption].
Qed.

#[export] Hint Resolve wf_newQueue wf_erase wf_insert : txq.

Lemma wf_indices q q' :
  byFee_ q' = byFee_ q -> byAccount_ q' = byAccount_ q -> wf q -> wf q'.
Proof.
  intros Hf Ha [Hnd Hix]. split.
  - rewrite Hf. exact Hnd.
  - intros a s c. unfold lookupCandidate. rewrite Ha, Hf. apply Hix.
Qed.

Lemma lookupCandidate_erase_free q c tx :
  lookupCandidate q (account tx) (sequence tx) = None \/ key c = key tx ->
  lookupCandidate (erase q c) (account tx) (sequence tx) = None.
Proof.
  intros H. rewrite lookupCandidate_erase.
  destruct (decide ((account tx, sequence tx) = key c)) as [E|NE]; [reflexivity|].
  destruct H as [H|H]; [exact H|]. exfalso. apply NE. symmetry. exact H.
Qed.

Lemma wf_holdInQueue q view tx :
  wf q -> lookupCandidate q (account tx) (sequence tx) = None ->
  wf (snd (fst (holdInQueue q view tx))).
Proof.
  intros Hwf Hfree. unfold holdInQueue.
  destruct (isFull q); [|cbn; auto with txq].
  destruct (last (byFee_ q)) as [lowest|]; [|cbn; auto with txq].
  destruct (feeLevel tx <=? feeLevel lowest); cbn; [exact Hwf|].
  apply wf_insert; [auto with txq|].
  apply lookupCandidate_erase_free. left. exact Hfree.
Qed.

Lemma wf_applyOrHold q view tx direct canBeHeld :
  wf q -> lookupCandidate q (account tx) (sequence tx) = None ->
  wf (snd (fst (applyOrHold q view tx direct canBeHeld))).
Proof.
  intros Hwf Hfree. unfold applyOrHold.
  assert (Hhold : wf (snd (fst (if canBeHeld then holdInQueue q view tx
                                else (CannotBeHeld, q, view))))).
  { destruct canBeHeld; [apply wf_holdInQueue; assumption | exact Hwf]. }
  destruct (scaleFeeLevel (feeMetrics_ q) (txCount view) <=? feeLevel tx);
    [destruct direct|]; try exact Hhold; exact Hwf.
Qed.

Lemma wf_apply q view tx preflightOk direct canBeHeld :
  wf q -> wf (snd (fst (TxQ.apply q view tx preflightOk direct canBeHeld))).
Proof.
  intros Hwf. unfold TxQ.apply.
  destruct (negb preflightOk); [exact Hwf|].
  destruct (lookupCandidate q (account tx) (sequence tx)) as [existing|] eqn:Hl.
  - destruct (feeLevel tx <? requiredRetryLevel (setup_ q) existing); [exact Hwf|].
    apply wf_applyOrHold; [auto with txq|].
    apply lookupCandidate_erase_free. right.
    apply (proj2 Hwf) in Hl. exact (proj2 Hl).
  - apply wf_applyOrHold; assumption.
Qed.

Lemma wf_acceptLoop engine pending skipping q view :
  wf q -> wf (fst (acceptLoop engine pending skipping q view)).
Proof.
  revert skipping q view.
  induction pending as [|c rest IH]; intros skipping q view Hwf; cbn;
    [exact Hwf|].
  destruct (bool_decide (skipping = Some (account c))); [apply IH; exact Hwf|].
  destruct (feeLevel c <? scaleFeeLevel (feeMetrics_ q) (txCount view));
    [exact Hwf|].
  destruct (hasPrior q c && _); [apply IH; exact Hwf|].
  destruct (engine c (txCount view)); apply IH; auto with txq.
Qed.

Lemma wf_accept engine q view : wf q -> wf (fst (accept engine q view)).
Proof. apply wf_acceptLoop. Qed.

Lemma wf_eraseAll cs q : wf q -> wf (eraseAll q cs).
Proof.
  revert q. unfold eraseAll.
  induction cs as [|c cs IH]; intros q Hwf; cbn; [exact Hwf|].
  apply IH. auto with txq.
Qed.

Lemma wf_processValidatedLedger q openSeq txnsExpected :
  wf q -> wf (processValidatedLedger q openSeq txnsExpected).
Proof.
  intros Hwf. unfold processValidatedLedger.
  apply wf_eraseAll, wf_eraseAll.
  apply (wf_indices q); [reflexivity | reflexivity | exact Hwf].
Qed.

#[export] Hint Resolve wf_apply wf_accept wf_processValidatedLedger : txq.

Lemma reachable_wf setup q : reachable setup q -> wf q.
Proof. induction 1; auto with txq. Qed.

Lemma filter_key_absent (l : list CandidateTxn) (k : Z * Z) :
  k ∉ key <$> l -> filter (fun c => key c = k) l = [].
Proof.
  induction l as [|x l IH]; intros Hk; [reflexivity|].
  rewrite fmap_cons in Hk. apply not_elem_of_cons in Hk as [Hx Hk].
  rewrite filter_cons. destruct (decide (key x = k)); [congruence|].
  apply IH. exact Hk.
Qed.

Lemma NoDup_key_count (l : list CandidateTxn) (k : Z * Z) :
  NoDup (key <$> l) -> (length (filter (fun c => key c = k) l) <= 1)%nat.
Proof.
  induction l as [|x l IH]; intros Hnd; [cbn; lia|].
  rewrite fmap_cons in Hnd. apply NoDup_cons in Hnd as [Hx Hnd].
  rewrite filter_cons. destruct (decide (key x = k)) as [E|NE].
  - cbn. rewrite filter_key_absent by (rewrite <- E; exact Hx). cbn. lia.
  - apply IH. exact Hnd.
Qed.

(** *** The capacity of the queue, and replacing an entry *)

Lemma eraseByFee_app k pre c post :
  k ∉ key <$> pre -> key c = k ->
  eraseByFee k (pre ++ c :: post) = pre ++ post.
Proof.
  intros Hk Hc. induction pre as [|x pre IH]; cbn [app eraseByFee].
  - destruct (decide (key c = k)); [reflexivity | contradiction].
  - rewrite fmap_cons in Hk. apply not_elem_of_cons in Hk as [Hx Hk].
    destruct (decide (key x = k)); [congruence|].
    rewrite (IH Hk). reflexivity.
Qed.

Lemma eraseByFee_length k l :
  (length (eraseByFee k l) <= length l)%nat.
Proof. apply sublist_length, eraseByFee_sublist. Qed.

Lemma eraseByFee_Permutation x l :
  x ∈ l -> NoDup (key <$> l) -> l ≡ₚ x :: eraseByFee (key x) l.
Proof.
  induction l as [|y l IH]; intros Hx Hnd; [inversion Hx|].
  rewrite fmap_cons in Hnd. apply NoDup_cons in Hnd as [Hy Hnd].
  cbn [eraseByFee]. destruct (decide (key y = key x)) as [E|NE].
  - apply elem_of_cons in Hx as [->|Hx]; [reflexivity|].
    exfalso. apply Hy. rewrite E. apply list_elem_of_fmap_2. exact Hx.
  - apply elem_of_cons in Hx as [->|Hx]; [congruence|].
    rewrite (IH Hx Hnd) at 1. apply Permutation_swap.
Qed.

Lemma insertByFee_Permutation c l : insertByFee c l ≡ₚ c :: l.
Proof.
  induction l as [|x rest IH]; cbn [insertByFee]; [reflexivity|].
  destruct (feeLevel x <? feeLevel c); [reflexivity|].
  rewrite IH. apply Permutation_swap.
Qed.

Lemma maxSize_eraseAll cs q : maxSize_ (eraseAll q cs) = maxSize_ q.
Proof.
  revert q. unfold eraseAll.
  induction cs as [|c cs IH]; intros q; cbn; [reflexivity|].
  rewrite IH. reflexivity.
Qed.

Lemma byFee_eraseAll_suffix cs q pre :
  byFee_ q = pre ++ cs -> NoDup (key <$> byFee_ q) ->
  byFee_ (eraseAll q cs) = pre.
Proof.
  revert q. unfold eraseAll.
  induction cs as [|c cs IH]; intros q Hq Hnd; cbn [foldl].
  - rewrite Hq. apply app_nil_r.
  - apply IH.
    + cbn [erase byFee_]. rewrite Hq. apply eraseByFee_app; [|reflexivity].
      rewrite Hq, fmap_app, fmap_cons in Hnd.
      apply NoDup_app in Hnd as (_ & Hdis & _).
      intros Hin. apply (Hdis _ Hin). left.
    + cbn [erase byFee_]. apply eraseByFee_NoDup. exact Hnd.
Qed.

Lemma byFee_eraseAll_length cs q :
  (length (byFee_ (eraseAll q cs)) <= length (byFee_ q))%nat.
Proof.
  revert q. unfold eraseAll.
  induction cs as [|c cs IH]; intros q; cbn [foldl]; [lia|].
  etransitivity; [apply IH|]. cbn [erase byFee_]. apply eraseByFee_length.
Qed.

Lemma withinCapacity_shrink q q' :
  maxSize_ q' = maxSize_ q ->
  (length (byFee_ q') <= length (byFee_ q))%nat ->
  withinCapacity q -> withinCapacity q'.
Proof.
  unfold withinCapacity. intros -> Hlen.
  destruct (maxSize_ q); [lia | auto].
Qed.

Lemma withinCapacity_erase q c : withinCapacity q -> withinCapacity (erase q c).
Proof.
  apply withinCapacity_shrink; [reflexivity|].
  cbn [erase byFee_]. apply eraseByFee_length.
Qed.

Lemma last_elem_of {A} (l : list A) x : last l = Some x -> x ∈ l.
Proof.
  rewrite last_lookup. intros H. apply list_elem_of_lookup. eauto.
Qed.

Lemma withinCapacity_holdInQueue q view tx :
  NoDup (key <$> byFee_ q) ->
  withinCapacity q -> withinCapacity (snd (fst (holdInQueue q view tx))).
Proof.
  intros Hnd Hc. unfold holdInQueue, isFull.
  unfold withinCapacity in *.
  destruct (maxSize_ q) as [m|] eqn:Hm.
  - destruct (Z.leb_spec m (Z.of_nat (length (byFee_ q)))) as [Hfull|Hroom].
    + destruct (last (byFee_ q)) as [lowest|] eqn:Hlast.
      * destruct (feeLevel tx <=? feeLevel lowest); cbn [fst snd];
          [rewrite Hm; exact Hc|].
        cbn [insert erase maxSize_ byFee_]. rewrite Hm.
        rewrite (insertByFee_Permutation tx). cbn [length].
        pose proof (eraseByFee_Permutation lowest (byFee_ q)
                      (last_elem_of _ _ Hlast) Hnd) as HP.
        apply Permutation_length in HP. cbn [length] in HP. lia.
      * cbn [fst snd insert maxSize_ byFee_]. rewrite Hm.
        rewrite (insertByFee_Permutation tx). cbn [length].
        apply last_None in Hlast. rewrite Hlast. cbn. lia.
    + cbn [fst snd insert maxSize_ byFee_]. rewrite Hm.
      rewrite (insertByFee_Permutation tx). cbn [length]. lia.
  - destruct (last (byFee_ q)); cbn [fst snd insert maxSize_ byFee_];
      rewrite ?Hm; exact I.
Qed.

Lemma withinCapacity_applyOrHold q view tx direct canBeHeld :
  NoDup (key <$> byFee_ q) ->
  withinCapacity q ->
  withinCapacity (snd (fst (applyOrHold q view tx direct canBeHeld))).
Proof.
  intros Hnd Hc. unfold applyOrHold.
  assert (Hhold : withinCapacity
                    (snd (fst (if canBeHeld then holdInQueue q view tx
                               else (CannotBeHeld, q, view))))).
  { destruct canBeHeld; [apply withinCapacity_holdInQueue; assumption | exact Hc]. }
  destruct (scaleFeeLevel (feeMetrics_ q) (txCount view) <=? feeLevel tx);
    [destruct direct|]; try exact Hhold; exact Hc.
Qed.

Lemma withinCapacity_apply q view tx preflightOk direct canBeHeld :
  wf q -> withinCapacity q ->
  withinCapacity (snd (fst (TxQ.apply q view tx preflightOk direct canBeHeld))).
Proof.
  intros Hwf Hc. unfold TxQ.apply.
  destruct (negb preflightOk); [exact Hc|].
  destruct (lookupCandidate q (account tx) (sequence tx)) as [existing|].
  - destruct (feeLevel tx <? requiredRetryLevel (setup_ q) existing); [exact Hc|].
    apply withinCapacity_applyOrHold.
    + apply eraseByFee_NoDup. exact (proj1 Hwf).
    + apply withinCapacity_erase. exact Hc.
  - apply withinCapacity_applyOrHold; [exact (proj1 Hwf) | exact Hc].
Qed.

Lemma acceptLoop_shrinks engine pending skipping q view :
  maxSize_ (fst (acceptLoop engine pending skipping q view)) = maxSize_ q
  /\ (length (byFee_ (fst (acceptLoop engine pending skipping q view)))
      <= length (byFee_ q))%nat.
Proof.
  revert skipping q view.
  induction pending as [|c rest IH]; intros skipping q view; cbn;
    [split; [reflexivity | lia]|].
  destruct (bool_decide (skipping = Some (account c))); [apply IH|].
  destruct (feeLevel c <? scaleFeeLevel (feeMetrics_ q) (txCount view));
    [split; [reflexivity | cbn; lia]|].
  pose proof (eraseByFee_length (key c) (byFee_ q)) as He.
  destruct (hasPrior q c && _); [apply IH|].
  destruct (engine c (txCount view));
    match goal with
    | |- context [acceptLoop ?e ?p ?s ?q' ?v] =>
        destruct (IH s q' v) as [H1 H2]
    end;
    (split; [rewrite H1; reflexivity | cbn [erase byFee_] in H2; lia]).
Qed.

Lemma setup_eraseAll cs q : setup_ (eraseAll q cs) = setup_ q.
Proof.
  revert q. unfold eraseAll.
  induction cs as [|c cs IH]; intros q; cbn; [reflexivity|].
  rewrite IH. reflexivity.
Qed.

Lemma withinCapacity_processValidatedLedger q openSeq txnsExpected :
  wf q -> withinCapacity (processValidatedLedger q openSeq txnsExpected).
Proof.
  intros Hwf. unfold processValidatedLedger. cbv zeta.
  match goal with
  | |- withinCapacity (eraseAll (eraseAll ?q0 ?cs) _) =>
      set (q1 := eraseAll q0 cs);
      assert (Hwf1 : wf q1)
        by (apply wf_eraseAll, (wf_indices q); [reflexivity | reflexivity | exact Hwf]);
      assert (Hm1 : maxSize_ q1 = Some (ledgersInQueue (setup_ q) * txnsExpected))
        by (subst q1; rewrite maxSize_eraseAll; reflexivity);
      assert (Hs1 : setup_ q1 = setup_ q) by (subst q1; rewrite setup_eraseAll; reflexivity)
  end.
  rewrite Hs1.
  set (n := Z.to_nat (ledgersInQueue (setup_ q) * txnsExpected)) in *.
  unfold withinCapacity. rewrite maxSize_eraseAll, Hm1.
  rewrite (byFee_eraseAll_suffix _ q1 (take n (byFee_ q1)));
    [| symmetry; apply take_drop | exact (proj1 Hwf1)].
  pose proof (firstn_le_length n (byFee_ q1)). lia.
Qed.

Lemma reachable_withinCapacity setup q : reachable setup q -> withinCapacity q.
Proof.
  induction 1 as [|q view tx p d h Hr IH|q engine view Hr IH|q o t Hr IH].
  - exact I.
  - apply withinCapacity_apply; [exact (reachable_wf _ _ Hr) | exact IH].
  - destruct (acceptLoop_shrinks engine (byFee_ q) None q view) as [H1 H2].
    exact (withinCapacity_shrink q _ H1 H2 IH).
  - apply withinCapacity_processValidatedLedger. exact (reachable_wf _ _ Hr).
Qed.

(** After the entry it replaces is gone, a held transaction always finds
    room. *)
Lemma holdInQueue_after_erase q view tx existing :
  wf q -> withinCapacity q -> existing ∈ byFee_ q ->
  holdInQueue (erase q existing) view tx
  = (Queued, insert (erase q existing) tx, view).
Proof.
  intros [Hnd _] Hc Hin. unfold holdInQueue, isFull.
  cbn [erase maxSize_ byFee_].
  pose proof (eraseByFee_Permutation existing (byFee_ q) Hin Hnd) as HP.
  apply Permutation_length in HP. cbn [length] in HP.
  unfold withinCapacity in Hc.
  destruct (maxSize_ q) as [m|]; [|reflexivity].
  destruct (Z.leb_spec m (Z.of_nat (length (eraseByFee (key existing) (byFee_ q)))))
    as [Hfull|Hroom]; [|reflexivity].
  assert (Hnil : eraseByFee (key existing) (byFee_ q) = []).
  { destruct (eraseByFee (key existing) (byFee_ q)); [reflexivity|].
    cbn [length] in *. lia. }
  rewrite Hnil. reflexivity.
Qed.

Lemma erase_removedFrom q existing :
  wf q -> existing ∈ byFee_ q -> removedFrom q (erase q existing) existing.
Proof.
  intros [Hnd Hix] Hin. split; [|split].
  - apply lookupCandidate_erase_free. right. reflexivity.
  - intros a s Hne. rewrite lookupCandidate_erase.
    destruct (decide ((a, s) = key existing)); [contradiction | reflexivity].
  - cbn [erase byFee_]. apply eraseByFee_Permutation; assumption.
Qed.

Lemma insert_erase_replacedBy q existing tx :
  wf q -> existing ∈ byFee_ q -> key existing = key tx ->
  replacedBy q (insert (erase q existing) tx) existing tx.
Proof.
  intros Hwf Hin Hkey.
  assert (Hfree : lookupCandidate (erase q existing) (account tx) (sequence tx)
                  = None).
  { apply lookupCandidate_erase_free. right. exact Hkey. }
  split; [|split].
  - rewrite (lookupCandidate_insert _ tx _ _ Hfree).
    destruct (decide ((account tx, sequence tx) = key tx)) as [|NE];
      [reflexivity | exfalso; apply NE; reflexivity].
  - intros a s Hne. rewrite (lookupCandidate_insert _ tx _ _ Hfree).
    destruct (decide ((a, s) = key tx)); [contradiction|].
    rewrite lookupCandidate_erase.
    destruct (decide ((a, s) = key existing)); [congruence | reflexivity].
  - exists (eraseByFee (key existing) (byFee_ q)). split.
    + apply eraseByFee_Permutation; [exact Hin | exact (proj1 Hwf)].
    + cbn [insert erase byFee_]. apply insertByFee_Permutation.
Qed.

End TxQFacts.

(** ** Counting headers against 256-bit values *)

Module Counting.
Import Ints IntsFacts Serial LedgerModel HeaderFacts Scenario.

(** No function maps [0..n] one-to-one into [0..n-1]. *)
Lemma no_injection (n : nat) (f : nat -> nat) :
  (forall i, (i <= n)%nat -> (f i < n)%nat) ->
  (forall i j, (i <= n)%nat -> (j <= n)%nat -> f i = f j -> i = j) ->
  False.
Proof.
  intros Hran Hinj.
  assert (Hnd : NoDup (f <$> seq 0 (S n))).
  { apply NoDup_fmap_2_strong; [|apply NoDup_seq].
    intros x y Hx Hy. apply elem_of_seq in Hx, Hy. apply Hinj; lia. }
  assert (Hsub : f <$> seq 0 (S n) ⊆+ seq 0 n).
  { apply NoDup_submseteq; [exact Hnd|].
    intros x Hx. apply list_elem_of_fmap in Hx as (i & -> & Hi).
    apply elem_of_seq in Hi. apply elem_of_seq.
    specialize (Hran i ltac:(lia)). lia. }
  apply submseteq_length in Hsub.
  rewrite length_fmap, !length_seq in Hsub. lia.
Qed.

Lemma no_injection_Z (N : Z) (f : Z -> Z) :
  0 <= N ->
  (forall i, 0 <= i <= N -> 0 <= f i < N) ->
  (forall i j, 0 <= i <= N -> 0 <= j <= N -> f i = f j -> i = j) ->
  False.
Proof.
  intros HN Hran Hinj.
  apply (no_injection (Z.to_nat N) (fun i => Z.to_nat (f (Z.of_nat i)))).
  - intros i Hi. specialize (Hran (Z.of_nat i) ltac:(lia)). lia.
  - intros i j Hi Hj E.
    pose proof (Hran (Z.of_nat i) ltac:(lia)).
    pose proof (Hran (Z.of_nat j) ltac:(lia)).
    assert (Z.of_nat i = Z.of_nat j) by (apply Hinj; lia). lia.
Qed.

Lemma headerOf_wf i : 0 <= i <= 2 ^ 256 -> header_wf (headerOf i).
Proof.
  intros Hi. unfold header_wf, in_range, headerOf. cbn [info_seq mTotCoins
    mParentHash mTransHash mAccountHash info_parentCloseTime info_closeTime
    mCloseResolution mCloseFlags].
  destruct (Z.ltb_spec i (2 ^ 256)); repeat split; try lia;
    try (apply Z.pow_pos_nonneg; lia);
    try (apply Z.ltb_lt; reflexivity).
Qed.

Lemma headerOf_inj i j :
  0 <= i <= 2 ^ 256 -> 0 <= j <= 2 ^ 256 ->
  same_header (headerOf i) (headerOf j) -> i = j.
Proof.
  intros Hi Hj (Hs & _ & Hp & _). unfold headerOf in Hs, Hp.
  cbn [info_seq mParentHash] in Hs, Hp.
  destruct (Z.ltb_spec i (2 ^ 256)), (Z.ltb_spec j (2 ^ 256)); lia.
Qed.

Section WithCollaborators.
Context `{C : Collaborators}.

Lemma updateHash_immutable_addRaw L :
  mImmutable L = true -> addRaw (updateHash L) [] = addRaw L [].
Proof.
  intros H. rewrite !addRaw_fieldBytes. unfold fieldBytes, updateHash.
  rewrite (refreshRoots_immutable L H). reflexivity.
Qed.

(** Some two distinct headers have the same hash, whatever the digest. *)
Lemma header_hash_collision :
  ~ (forall i j, 0 <= i <= 2 ^ 256 -> 0 <= j <= 2 ^ 256 ->
       info_hash (updateHash (headerOf i)) = info_hash (updateHash (headerOf j)) ->
       addRaw (updateHash (headerOf i)) [] = addRaw (updateHash (headerOf j)) []).
Proof.
  intros Hclaim.
  apply (no_injection_Z (2 ^ 256) (fun i => info_hash (updateHash (headerOf i)))).
  - apply Z.pow_nonneg. lia.
  - intros i Hi. cbn [updateHash info_hash]. apply sha512Half_range.
  - intros i j Hi Hj E.
    specialize (Hclaim i j Hi Hj E).
    rewrite !updateHash_immutable_addRaw in Hclaim by reflexivity.
    apply headerOf_inj; [exact Hi | exact Hj |].
    apply addRaw_same_header; [apply headerOf_wf | apply headerOf_wf | exact Hclaim];
      assumption.
Qed.

End WithCollaborators.

End Counting.

(** * Part III: the claims of the specification *)

Import Ints IntsFacts Serial SerialFacts LedgerModel SkipListSpec.

(** ** Ledger header: hashing and wire format *)

(** C1 (as amended).  The self-hash computed by [Ledger::updateHash] is
    the digest of the domain tag followed by the serialized header, that
    is of the nine fields in wire order (sequence u32, coins u64, parent
    hash, transaction root, state root, parent close time u32, close time
    u32, close resolution u8, flags u8, the two roots taken from the maps
    when the ledger is mutable); the serialization of a well-formed
    header determines exactly these nine fields; and two ledgers whose
    serialized headers are equal have equal hashes. *)
Theorem ledger_hash_is_header_digest `{C : Collaborators} :
  (forall L,
     info_hash (updateHash L)
     = sha512Half (bigEndian 4 HashPrefix_ledgerMaster
                   ++ addRaw (updateHash L) [])
     /\ snd (getHash (updateHash L)) = info_hash (updateHash L))
  /\ (forall L,
        addRaw L []
        = bigEndian 4 (info_seq L) ++ bigEndian 8 (mTotCoins L)
          ++ bigEndian 32 (mParentHash L) ++ bigEndian 32 (mTransHash L)
          ++ bigEndian 32 (mAccountHash L)
          ++ bigEndian 4 (info_parentCloseTime L)
          ++ bigEndian 4 (info_closeTime L)
          ++ bigEndian 1 (mCloseResolution L) ++ bigEndian 1 (mCloseFlags L))
  /\ (forall L, same_header (updateHash L) (refreshRoots L))
  /\ (forall L1 L2, header_wf L1 -> header_wf L2 ->
        (addRaw L1 [] = addRaw L2 [] <-> same_header L1 L2))
  /\ (forall L1 L2,
        addRaw (updateHash L1) [] = addRaw (updateHash L2) [] ->
        info_hash (updateHash L1) = info_hash (updateHash L2)).
Proof.
  split; [|split; [|split; [|split]]].
  - intros L. split; [|reflexivity].
    rewrite HeaderFacts.updateHash_info_hash,
      HeaderFacts.hashedBytes_headerRecord, HeaderFacts.headerRecord_addRaw.
    reflexivity.
  - intros L. rewrite HeaderFacts.addRaw_fieldBytes.
    unfold fieldBytes. rewrite !app_nil_r. reflexivity.
  - apply HeaderFacts.updateHash_header.
  - apply HeaderFacts.addRaw_same_header.
  - intros L1 L2 E.
    rewrite !HeaderFacts.updateHash_info_hash,
      !HeaderFacts.hashedBytes_headerRecord, !HeaderFacts.headerRecord_addRaw.
    rewrite E. reflexivity.
Qed.

(** C1 (as stated) fails in its "only if" half: no 256-bit digest makes
    equal hashes imply equal serialized headers, since there are more
    than [2 ^ 256] well-formed headers. *)
Lemma equal_hashes_do_not_force_equal_headers :
  ~ (exists C : Collaborators,
       forall L1 L2 : Ledger, header_wf L1 -> header_wf L2 ->
         (info_hash (updateHash L1) = info_hash (updateHash L2)
          <-> addRaw (updateHash L1) [] = addRaw (updateHash L2) [])).
Proof.
  intros [C Hclaim].
  apply (@Counting.header_hash_collision C).
  intros i j Hi Hj E.
  apply (Hclaim (Scenario.headerOf i) (Scenario.headerOf j));
    [apply Counting.headerOf_wf | apply Counting.headerOf_wf | exact E];
    assumption.
Qed.

(** C5.  Serializing a ledger header with [Ledger::addRaw] and reading
    it back with [Ledger::setRaw] (with or without the hash prefix that
    [saveValidatedLedger] writes) succeeds and yields a header equal field
    for field to the original, whose self-hash is the digest of the
    original's header: the original's own self-hash when the original is
    immutable. *)
Theorem header_roundtrip `{C : Collaborators} (L : Ledger) :
  header_wf L ->
  exists L',
    ledgerFromRaw (addRaw L []) false = Some L'
    /\ ledgerFromRaw (headerRecord L) true = Some L'
    /\ same_header L L'
    /\ info_hash L' = sha512Half (headerRecord L)
    /\ (mImmutable L = true -> info_hash L' = info_hash (updateHash L)).
Proof.
  intros W.
  destruct (HeaderFacts.setRaw_addRaw (blankLedger true) L [] false eq_refl eq_refl)
    as (L' & HL' & a1 & a2 & a3 & a4 & a5 & a6 & a7 & a8 & a9 & Hh & Hi & Ht & Hs).
  destruct W as (w1 & w2 & w3 & w4 & w5 & w6 & w7 & w8 & w9).
  unfold u8, u32, u64 in a1, a2, a3, a4, a5, a6, a7, a8, a9.
  rewrite wrap_small in a1, a2, a3, a4, a5, a6, a7, a8, a9 by assumption.
  assert (Hsame : same_header L L').
  { unfold same_header. repeat split; congruence. }
  exists L'. split; [exact HL'|]. split.
  - unfold ledgerFromRaw.
    rewrite HeaderFacts.headerRecord_addRaw, HeaderFacts.setRaw_prefix.
    exact HL'.
  - split; [exact Hsame|].
    assert (Hd : info_hash L' = sha512Half (headerRecord L)).
    { rewrite Hh, <- (HeaderFacts.hashedBytes_same_header _ _ Hsame).
      rewrite HeaderFacts.hashedBytes_headerRecord. reflexivity. }
    split; [exact Hd|].
    intros Himm. rewrite Hd, HeaderFacts.updateHash_info_hash.
    rewrite (HeaderFacts.hashedBytes_same_header _ _ (HeaderFacts.updateHash_header L)).
    rewrite (HeaderFacts.refreshRoots_immutable L Himm).
    rewrite HeaderFacts.hashedBytes_headerRecord. reflexivity.
Qed.

Lemma header_roundtrip_witness :
  header_wf Scenario.sampleHeader
  /\ exists L',
       ledgerFromRaw (addRaw Scenario.sampleHeader []) false = Some L'
       /\ ledgerFromRaw (headerRecord Scenario.sampleHeader) true = Some L'
       /\ same_header Scenario.sampleHeader L'
       /\ info_hash L' = sha512Half (headerRecord Scenario.sampleHeader)
       /\ (mImmutable Scenario.sampleHeader = true ->
           info_hash L' = info_hash (updateHash Scenario.sampleHeader)).
Proof.
  assert (W : header_wf Scenario.sampleHeader).
  { unfold header_wf, in_range. cbn. lia. }
  split; [exact W | exact (header_roundtrip Scenario.sampleHeader W)].
Defined.

(** ** Acceptance and close time *)

Lemma bigEndian_one x : bigEndian 1 x = [u8 x].
Proof.
  unfold bigEndian, u8, wrap. change (8 * Z.of_nat 0) with 0.
  rewrite Z.pow_0_r, Z.div_1_r. reflexivity.
Qed.

Lemma addRaw_last_byte `{C : Collaborators} L :
  last (addRaw L []) = Some (u8 (mCloseFlags L)).
Proof.
  unfold addRaw, add8 at 1. rewrite bigEndian_one. apply last_snoc.
Qed.

Lemma setAccepted_fields `{C : Collaborators} L closeTime closeResolution correct :
  let X := setAccepted L closeTime closeResolution correct in
  info_closeTime X
  = (if correct then roundCloseTime closeTime closeResolution else closeTime)
  /\ mCloseFlags X = (if correct then 0 else sLCF_NoConsensusTime)
  /\ mCloseResolution X = closeResolution
  /\ mAccepted X = true /\ mImmutable X = true
  /\ info_hash X = sha512Half (hashedBytes X).
Proof.
  unfold setAccepted, setImmutable, updateHash, refreshRoots. cbn.
  destruct (mImmutable L); cbn; repeat split; reflexivity.
Qed.

(** C7.  [Ledger::setAccepted] on a closed, not yet accepted ledger: with
    an agreed close time the close time becomes that time rounded to the
    close resolution and the close flags are cleared; without agreement
    the caller's close time is stored as given and the close flags are
    [sLCF_NoConsensusTime], which is the flags byte of the header that is
    serialized and hashed.  The close time the open-child constructor
    gives a child of a parent with a non-zero close time is the parent's
    close time plus the child's close resolution, so that is what is
    stored when the caller passes the child's own close time. *)
Theorem setAccepted_close_time `{C : Collaborators}
    (L : Ledger) (closeTime closeResolution : Z) :
  setAccepted_pre L ->
  (let A := setAccepted L closeTime closeResolution true in
   info_closeTime A = roundCloseTime closeTime closeResolution
   /\ mCloseFlags A = 0 /\ getCloseAgree A = true)
  /\ (let N := setAccepted L closeTime closeResolution false in
      info_closeTime N = closeTime
      /\ mCloseFlags N = sLCF_NoConsensusTime
      /\ Z.land (mCloseFlags N) sLCF_NoConsensusTime = sLCF_NoConsensusTime
      /\ last (addRaw N []) = Some (u8 sLCF_NoConsensusTime))
  /\ (forall correct,
        let X := setAccepted L closeTime closeResolution correct in
        mCloseResolution X = closeResolution /\ mAccepted X = true
        /\ mImmutable X = true
        /\ info_hash X = sha512Half (headerRecord X))
  /\ (forall prev now,
        info_closeTime prev <> 0 ->
        let child := fst (openChild prev now) in
        let N := setAccepted (setClosed child) (info_closeTime child)
                   closeResolution false in
        info_parentCloseTime child = info_closeTime prev
        /\ info_closeTime child
           = u32 (info_closeTime prev + mCloseResolution child)
        /\ info_closeTime N
           = u32 (info_closeTime prev + mCloseResolution child)
        /\ (in_range 32 (info_closeTime prev + mCloseResolution child) ->
            info_closeTime N = info_closeTime prev + mCloseResolution child)).
Proof.
  intros _. cbv zeta.
  pose proof (setAccepted_fields L closeTime closeResolution true)
    as (a1 & a2 & _).
  pose proof (setAccepted_fields L closeTime closeResolution false)
    as (n1 & n2 & _).
  split; [|split; [|split]].
  - split; [exact a1|]. split; [exact a2|].
    unfold getCloseAgree. rewrite a2. reflexivity.
  - split; [exact n1|]. split; [exact n2|]. split.
    + rewrite n2. apply Z.land_diag.
    + rewrite addRaw_last_byte, n2. reflexivity.
  - intros correct.
    pose proof (setAccepted_fields L closeTime closeResolution correct)
      as (_ & _ & x3 & x4 & x5 & x6).
    split; [exact x3|]. split; [exact x4|]. split; [exact x5|].
    rewrite x6, HeaderFacts.hashedBytes_headerRecord. reflexivity.
  - intros prev now Hne.
    assert (E : info_closeTime (fst (openChild prev now))
                = u32 (info_closeTime prev
                       + mCloseResolution (fst (openChild prev now)))).
    { cbn. destruct (Z.eqb_spec (info_closeTime prev) 0); [contradiction|].
      reflexivity. }
    pose proof (setAccepted_fields (setClosed (fst (openChild prev now)))
                  (info_closeTime (fst (openChild prev now)))
                  closeResolution false) as (c1 & _).
    cbv zeta in c1.
    split; [reflexivity|]. split; [exact E|].
    split; [rewrite c1; exact E|].
    intros Hr. rewrite c1, E. apply u32_small. exact Hr.
Qed.

Lemma setAccepted_close_time_witness :
  setAccepted_pre Scenario.secondLedgerClosed
  /\ info_closeTime (setAccepted Scenario.secondLedgerClosed 1049 30 true) = 1050
  /\ mCloseFlags (setAccepted Scenario.secondLedgerClosed 1049 30 true) = 0
  /\ info_closeTime (setAccepted Scenario.secondLedgerClosed 1049 30 false) = 1049
  /\ mCloseFlags (setAccepted Scenario.secondLedgerClosed 1049 30 false) = 1.
Proof.
  assert (P : setAccepted_pre Scenario.secondLedgerClosed).
  { split; reflexivity. }
  pose proof (setAccepted_close_time Scenario.secondLedgerClosed 1049 30 P)
    as (HA & HN & _).
  cbv zeta in HA, HN.
  destruct HA as (a1 & a2 & _). destruct HN as (n1 & n2 & _).
  split; [exact P|]. split; [exact a1|]. split; [exact a2|].
  split; [exact n1 | exact n2].
Defined.

(** ** The skip list *)

Import SkipFacts.

(** C6.  [Ledger::updateSkipList] on a ledger whose state is in memory
    and whose rolling-window entry holds at most 256 hashes (the
    function's own assertion).  With [seq = 0] nothing changes.
    Otherwise the call succeeds and leaves the header alone; the entry
    under the fixed key holds the previous hashes, without the oldest one
    when there were 256, followed by the parent hash, at most 256 in all,
    and records the previous sequence; the every-256th entry keyed by the
    truncated previous sequence gets the parent hash appended exactly
    when [(seq - 1) mod 256 = 0], and no other every-256th entry
    changes. *)
Theorem updateSkipList_entries `{C : Collaborators}
    (L : Ledger) (items : StateItems) :
  stateItems L = Some items ->
  (length (hashesOf (items !! getLedgerHashIndex)) <= 256)%nat ->
  (info_seq L = 0 -> updateSkipList L = Some L)
  /\ (info_seq L <> 0 ->
      let prevIndex := u32 (info_seq L - 1) in
      let old := hashesOf (items !! getLedgerHashIndex) in
      exists L' items' hashes,
        updateSkipList L = Some L'
        /\ stateItems L' = Some items' /\ same_header L' L
        /\ items' !! getLedgerHashIndex
           = Some {| sfHashes := hashes; sfLastLedgerSequence := prevIndex |}
        /\ hashes
           = (if Z.of_nat (length old) =? 256 then drop 1 old else old)
             ++ [mParentHash L]
        /\ (length hashes <= 256)%nat
        /\ last hashes = Some (mParentHash L)
        /\ ((info_seq L - 1) mod 256 = 0 ->
            items' !! getLedgerHashIndexAt prevIndex
            = Some {| sfHashes :=
                        hashesOf (items !! getLedgerHashIndexAt prevIndex)
                        ++ [mParentHash L];
                      sfLastLedgerSequence := prevIndex |}
            /\ forall j, KSkipAt j <> getLedgerHashIndexAt prevIndex ->
                 items' !! KSkipAt j = items !! KSkipAt j)
        /\ ((info_seq L - 1) mod 256 <> 0 ->
            forall j, items' !! KSkipAt j = items !! KSkipAt j)).
Proof.
  intros Hst Hlen. rewrite (updateSkipList_resolved L items Hst). split.
  - intros ->. reflexivity.
  - intros Hne. cbv zeta.
    destruct (Z.eqb_spec (info_seq L) 0) as [|_]; [contradiction|].
    exists (withStateItems L (skipListAfter (info_seq L) (mParentHash L) items)),
      (skipListAfter (info_seq L) (mParentHash L) items),
      (windowAfter (hashesOf (items !! getLedgerHashIndex)) (mParentHash L)).
    split; [reflexivity|]. split; [reflexivity|].
    split; [unfold same_header; cbn; tauto|].
    split; [apply skipListAfter_window|].
    split; [reflexivity|].
    split; [apply windowAfter_length; exact Hlen|].
    split; [apply windowAfter_last|].
    split.
    + intros Hm. split.
      * unfold getLedgerHashIndexAt. rewrite skipListAfter_bucket.
        rewrite land_255_u32, Hm, !Z.eqb_refl. reflexivity.
      * intros j Hj. rewrite skipListAfter_bucket.
        destruct (Z.eqb_spec j (Z.shiftr (u32 (info_seq L - 1)) 16)) as [->|];
          [contradiction|].
        rewrite andb_false_r. reflexivity.
    + intros Hm j. rewrite skipListAfter_bucket, land_255_u32.
      destruct (Z.eqb_spec ((info_seq L - 1) mod 256) 0); [contradiction|].
      reflexivity.
Qed.

Lemma updateSkipList_entries_witness :
  stateItems (fst (openChild (genesisLedger 100000) 1000)) = Some ∅
  /\ exists L',
       updateSkipList (fst (openChild (genesisLedger 100000) 1000)) = Some L'
       /\ info_seq L' = 2.
Proof.
  split; [reflexivity|].
  destruct (updateSkipList_entries
              (fst (openChild (genesisLedger 100000) 1000)) ∅ eq_refl)
    as [_ H].
  - rewrite lookup_empty. cbn. lia.
  - destruct H as (L' & items' & hashes & HL' & _ & Hh & _).
    + cbn. discriminate.
    + exists L'. split; [exact HL'|]. destruct Hh as (-> & _). reflexivity.
Defined.

(** C10.  [hashOfSeq] answers [None] for every sequence above the
    ledger's own, and for every past sequence (below the parent's) that
    neither skip-list entry covers: the rolling window lacks it when it
    is more than 256 back or further back than the window is long (or
    there is no window), and the every-256th list lacks it when it is no
    multiple of 256, or the entry for its key is missing or too short.
    The entries are as the code asserts them: at most 256 hashes in the
    window, and a last sequence not below the queried one. *)
Theorem hashOfSeq_none `{C : Collaborators} (L : Ledger) (k : Z) :
  (info_seq L < k -> hashOfSeq L k = None)
  /\ (in_range 32 (info_seq L) -> 0 <= k < info_seq L - 1 ->
      (forall e, peek L getLedgerHashIndex = Some e ->
         (length (sfHashes e) <= 256)%nat) ->
      (forall e, peek L (getLedgerHashIndexAt k) = Some e ->
         k <= sfLastLedgerSequence e < 2 ^ 32) ->
      ~ (exists e, peek L getLedgerHashIndex = Some e
                   /\ info_seq L - k <= 256
                   /\ info_seq L - k <= Z.of_nat (length (sfHashes e))) ->
      ~ (k mod 256 = 0
         /\ exists e, peek L (getLedgerHashIndexAt k) = Some e
                      /\ (sfLastLedgerSequence e - k) / 256
                         < Z.of_nat (length (sfHashes e))) ->
      hashOfSeq L k = None).
Proof.
  split.
  - intros Hk. unfold hashOfSeq.
    destruct (Z.ltb_spec (info_seq L) k); [reflexivity | lia].
  - intros Hr Hk Hw Hb Hnw Hnb. unfold hashOfSeq. unfold in_range in Hr.
    destruct (Z.ltb_spec (info_seq L) k); [reflexivity|].
    destruct (Z.eqb_spec k (info_seq L)); [lia|].
    rewrite u32_small by (unfold in_range; lia).
    destruct (Z.eqb_spec k (info_seq L - 1)); [lia|].
    assert (Hwin : hashWithin256 L k = None).
    { unfold hashWithin256, cachedRead.
      destruct (peek L getLedgerHashIndex) as [e|] eqn:He;
        [|destruct (_ <=? 256); reflexivity].
      specialize (Hw e eq_refl).
      destruct (Z.lt_ge_cases (info_seq L - k) (2 ^ 31)) as [Hs|Hbig].
      - rewrite to_int_small by lia.
        destruct (Z.leb_spec (info_seq L - k) 256) as [Hd|]; [|reflexivity].
        unfold to_size_t. rewrite u64_small by (unfold in_range; lia).
        destruct (Z.leb_spec (info_seq L - k) (Z.of_nat (length (sfHashes e))));
          [|reflexivity].
        exfalso. apply Hnw. exists e. auto.
      - rewrite to_int_big by lia.
        destruct (Z.leb_spec (info_seq L - k - 2 ^ 32) 256); [|reflexivity].
        assert (E : to_size_t (info_seq L - k - 2 ^ 32)
                    = info_seq L - k - 2 ^ 32 + 2 ^ 64).
        { unfold to_size_t, u64, wrap.
          rewrite <- (Z.mod_add _ 1) by lia. apply Z.mod_small. lia. }
        rewrite E.
        destruct (Z.leb_spec (info_seq L - k - 2 ^ 32 + 2 ^ 64)
                    (Z.of_nat (length (sfHashes e)))); [lia | reflexivity]. }
    rewrite Hwin. rewrite land_255.
    destruct (Z.eqb_spec (k mod 256) 0) as [Hm|]; [|reflexivity].
    cbn [negb]. unfold hashInSkipList, cachedRead.
    destruct (peek L (getLedgerHashIndexAt k)) as [e|] eqn:He; [|reflexivity].
    specialize (Hb e eq_refl).
    rewrite u32_small by (unfold in_range; lia). rewrite shiftr_8.
    destruct (Z.ltb_spec ((sfLastLedgerSequence e - k) / 256)
                (Z.of_nat (length (sfHashes e)))); [|reflexivity].
    exfalso. apply Hnb. split; [exact Hm|]. exists e. auto.
Qed.

Lemma hashOfSeq_none_witness :
  info_seq Scenario.thirdLedger = 3
  /\ hashOfSeq Scenario.thirdLedger 0 = None
  /\ hashOfSeq Scenario.thirdLedger 4 = None.
Proof.
  destruct (hashOfSeq_none Scenario.thirdLedger 0) as [_ Hpast].
  destruct (hashOfSeq_none Scenario.thirdLedger 4) as [Hfuture _].
  split; [vm_compute; reflexivity|]. split.
  - apply Hpast.
    + unfold in_range. vm_compute. split; [discriminate | reflexivity].
    + vm_compute. split; [discriminate | reflexivity].
    + intros e He. vm_compute in He. injection He as <-. cbn. lia.
    + intros e He. vm_compute in He. discriminate.
    + intros (e & He & _ & Hlen). vm_compute in He. injection He as <-.
      vm_compute in Hlen. apply Hlen. reflexivity.
    + intros (_ & e & He & _). vm_compute in He. discriminate.
  - apply Hfuture. vm_compute. reflexivity.
Defined.

(** C2 (as amended).  For every ledger [hashOfSeq] returns the ledger's
    own hash at its own sequence and the parent hash at the sequence
    before.  On a chain built round by round from genesis, every other
    sequence [k] that the skip list covers (at most 256 back: the rolling
    window; or a multiple of 256: the every-256th list) gets the hash of
    the chain's ledger with sequence [k].  In particular, on a chain of
    300 ledgers, [hashOfSeq (ledger_300, 299)] is the parent hash of
    ledger 300 and [hashOfSeq (ledger_300, 44)] is the hash of ledger 44,
    found in the rolling window: 44 is no multiple of 256, and
    300 - 44 = 256 is the oldest slot of the window. *)
Theorem hashOfSeq_chain `{C : Collaborators} :
  (forall L : Ledger,
     in_range 32 (info_seq L) ->
     hashOfSeq L (info_seq L) = Some (snd (getHash L))
     /\ (1 <= info_seq L -> hashOfSeq L (info_seq L - 1) = Some (mParentHash L)))
  /\ (forall (balance : Z) (rounds : nat -> RoundOutcome) (n : nat),
        Z.of_nat n + 1 < 2 ^ 32 ->
        exists L,
          chain balance rounds n = Some L
          /\ info_seq L = Z.of_nat n + 1
          /\ snd (getHash L) = chainHash balance rounds (info_seq L)
          /\ (2 <= info_seq L ->
              mParentHash L = chainHash balance rounds (info_seq L - 1))
          /\ (forall k,
                1 <= k <= info_seq L ->
                info_seq L - k <= 256 \/ k mod 256 = 0 ->
                hashOfSeq L k = Some (chainHash balance rounds k))
          /\ (info_seq L = 300 ->
              hashOfSeq L 299 = Some (mParentHash L)
              /\ hashOfSeq L 44 = Some (chainHash balance rounds 44)
              /\ hashWithin256 L 44 = Some (Some (chainHash balance rounds 44))
              /\ Z.land 44 255 <> 0)).
Proof.
  split.
  - intros L Hr. unfold in_range in Hr. split.
    + unfold hashOfSeq. rewrite Z.ltb_irrefl, Z.eqb_refl. reflexivity.
    + intros H1. unfold hashOfSeq.
      destruct (Z.ltb_spec (info_seq L) (info_seq L - 1)); [lia|].
      destruct (Z.eqb_spec (info_seq L - 1) (info_seq L)); [lia|].
      rewrite u32_small by (unfold in_range; lia).
      rewrite Z.eqb_refl. reflexivity.
  - intros balance rounds n Hn.
    destruct (chain_inv balance rounds n Hn)
      as (L & items & Hch & Hseq & Hst & Hinv & Hp & Hco).
    assert (Hh : snd (getHash L) = chainHash balance rounds (info_seq L)).
    { unfold chainHash. rewrite Hseq.
      replace (Z.to_nat (Z.of_nat n + 1 - 1)) with n by lia.
      rewrite Hch. reflexivity. }
    assert (Hpar : 2 <= info_seq L ->
                   mParentHash L = chainHash balance rounds (info_seq L - 1)).
    { intros H2. rewrite Hseq.
      replace (Z.of_nat n + 1 - 1) with (Z.of_nat n) by lia. apply Hp. lia. }
    assert (Hall : forall k, 1 <= k <= info_seq L ->
                     info_seq L - k <= 256 \/ k mod 256 = 0 ->
                     hashOfSeq L k = Some (chainHash balance rounds k)).
    { intros k Hk Hc.
      apply (chain_hashOfSeq balance rounds n L k Hch Hn); lia. }
    exists L. split; [exact Hch|]. split; [exact Hseq|].
    split; [exact Hh|]. split; [exact Hpar|]. split; [exact Hall|].
    intros H300. split; [|split; [|split]].
    + rewrite (Hall 299) by lia. rewrite Hpar by lia.
      rewrite H300. reflexivity.
    + apply Hall; lia.
    + rewrite (hashWithin256_inv (chainHash balance rounds) L 300 items 44);
        try assumption; try lia.
      * reflexivity.
      * rewrite <- H300, Hseq. exact Hinv.
    + discriminate.
Qed.

Lemma hashOfSeq_chain_witness :
  exists L,
    chain 100000 Scenario.steadyRounds 299 = Some L
    /\ info_seq L = 300
    /\ hashOfSeq L 299 = Some (mParentHash L)
    /\ hashOfSeq L 44 = Some (chainHash 100000 Scenario.steadyRounds 44)
    /\ hashOfSeq L 256 = Some (chainHash 100000 Scenario.steadyRounds 256).
Proof.
  assert (B : Z.of_nat 299 + 1 < 2 ^ 32) by (apply Z.ltb_lt; reflexivity).
  destruct (proj2 hashOfSeq_chain 100000 Scenario.steadyRounds 299%nat B)
    as (L & Hch & Hseq & _ & _ & Hall & H300).
  exists L. split; [exact Hch|]. split; [exact Hseq|].
  destruct (H300 Hseq) as (h299 & h44 & _).
  split; [exact h299|]. split; [exact h44|].
  apply Hall; [rewrite Hseq; lia | right; reflexivity].
Defined.

(** C2 (as stated) attributes the answer for sequence 44 on the chain
    of 300 ledgers to the multiple-of-256 list.  On the scenario chain
    the lookup is answered by the rolling-window block, and the
    every-256th block, asked for 44, does not hold the hash of ledger
    44. *)
Lemma hashOfSeq_44_not_from_every256th :
  match Scenario.ledgerAt 300, Scenario.ledgerAt 44 with
  | Some ledger_300, Some ledger_44 =>
      hashOfSeq ledger_300 44 = Some (snd (getHash ledger_44))
      /\ hashWithin256 ledger_300 44 = Some (Some (snd (getHash ledger_44)))
      /\ hashInSkipList ledger_300 44 <> Some (snd (getHash ledger_44))
      /\ Z.land 44 255 <> 0
  | _, _ => False
  end.
Proof.
  vm_compute. repeat split; try reflexivity; discriminate.
Qed.

(** ** The validation clock *)

Import Consensus.

Lemma validationTimestamp_step (c : ConsensusImp) (now : Z) :
  0 <= lastValidationTimestamp_ c < UINT32_MAX ->
  snd (validationTimestamp c now) = Z.max now (lastValidationTimestamp_ c + 1)
  /\ lastValidationTimestamp_ (fst (validationTimestamp c now))
     = snd (validationTimestamp c now)
  /\ lastValidationTimestamp_ c < snd (validationTimestamp c now).
Proof.
  unfold UINT32_MAX. intros Hl. unfold validationTimestamp. cbn.
  destruct (Z.leb_spec now (lastValidationTimestamp_ c)).
  - rewrite u32_small by (unfold in_range; lia). lia.
  - lia.
Qed.

(** C9 (as amended).  As long as the timestamps returned stay below the
    largest 32-bit value, successive calls of
    [ConsensusImp::validationTimestamp] return strictly increasing
    values, whatever the network clock reads (stalled or going backwards
    included): each call returns the maximum of the network time and one
    more than the timestamp returned before, and remembers it. *)
Theorem validationTimestamps_increasing (c : ConsensusImp) (networkTimes : list Z) :
  0 <= lastValidationTimestamp_ c < UINT32_MAX ->
  Forall (fun vt => vt < UINT32_MAX) (validationTimestamps c networkTimes) ->
  increasingFrom (lastValidationTimestamp_ c)
    (validationTimestamps c networkTimes)
  /\ forall now,
       snd (validationTimestamp c now)
       = Z.max now (lastValidationTimestamp_ c + 1)
       /\ lastValidationTimestamp_ (fst (validationTimestamp c now))
          = snd (validationTimestamp c now).
Proof.
  intros Hl Hall. split.
  - revert c Hl Hall.
    induction networkTimes as [|t rest IH]; intros c Hl Hall; [exact I|].
    cbn [validationTimestamps] in *.
    destruct (validationTimestamp c t) as [c' vt] eqn:E.
    destruct (validationTimestamp_step c t Hl) as (Hmax & Hlast & Hlt).
    rewrite E in Hmax, Hlast, Hlt. cbn [fst snd] in Hmax, Hlast, Hlt.
    apply Forall_cons in Hall as [Hvt Hall].
    cbn [increasingFrom]. split; [exact Hlt|].
    rewrite <- Hlast. apply IH; [lia | exact Hall].
  - intros now. destruct (validationTimestamp_step c now Hl) as (H1 & H2 & _).
    split; assumption.
Qed.

Lemma validationTimestamps_increasing_witness :
  validationTimestamps (newConsensus 15) [100; 100; 90; 200]
  = [100; 101; 102; 200]
  /\ increasingFrom 0 (validationTimestamps (newConsensus 15) [100; 100; 90; 200]).
Proof.
  split; [reflexivity|].
  apply (validationTimestamps_increasing (newConsensus 15) [100; 100; 90; 200]).
  - cbn. unfold UINT32_MAX. lia.
  - unfold UINT32_MAX. cbn. repeat constructor.
Defined.

(** C9 (as stated) fails at the top of the 32-bit range: with the
    network clock stalled at 4294967295 the second call returns 0. *)
Lemma validationTimestamp_wraps :
  validationTimestamps (newConsensus 15) [4294967295; 4294967295]
  = [4294967295; 0].
Proof. reflexivity. Qed.

(** ** Fee escalation and the queue *)

Import TxQ TxQFacts.

Lemma mulDivNoThrow_exact value mul div :
  value * mul / div <= UINT64_MAX ->
  mulDivNoThrow value mul div = value * mul / div.
Proof.
  intros H. unfold mulDivNoThrow.
  destruct (Z.ltb_spec UINT64_MAX (value * mul / div)); [lia | reflexivity].
Qed.

(** C3.  The required fee level of [scaleFeeLevel] is the base level 256
    while the open view holds at most [txnsExpected_] transactions, and
    above that it is [baseLevel * multiplier * count^2 / expected^2]
    (as long as that fits the 64-bit fee level, where it saturates); with
    5 expected and a multiplier of 500, the values of a new queue, the
    level is 256 at 5 transactions and 256 * 500 * 36 / 25 = 184320
    at 6. *)
Theorem scaleFeeLevel_formula (fm : FeeMetrics) (count : Z) :
  baseLevel = 256
  /\ (count <= txnsExpected_ fm -> scaleFeeLevel fm count = baseLevel)
  /\ (txnsExpected_ fm < count -> 0 < txnsExpected_ fm ->
      baseLevel * escalationMultiplier_ fm * count ^ 2 / txnsExpected_ fm ^ 2
        <= UINT64_MAX ->
      scaleFeeLevel fm count
      = baseLevel * escalationMultiplier_ fm * count ^ 2 / txnsExpected_ fm ^ 2)
  /\ (txnsExpected_ fm = 5 -> escalationMultiplier_ fm = 500 ->
      scaleFeeLevel fm 5 = 256 /\ scaleFeeLevel fm 6 = 184320
      /\ 256 * 500 * 36 / 25 = 184320)
  /\ txnsExpected_ (newFeeMetrics defaultSetup) = 5
  /\ escalationMultiplier_ (newFeeMetrics defaultSetup) = 500.
Proof.
  split; [reflexivity|]. split; [|split; [|split]].
  - intros H. unfold scaleFeeLevel.
    destruct (Z.leb_spec count (txnsExpected_ fm)); [reflexivity | lia].
  - intros H Hpos Hfit. unfold scaleFeeLevel.
    destruct (Z.leb_spec count (txnsExpected_ fm)); [lia|].
    rewrite !Z.pow_2_r in *. rewrite mulDivNoThrow_exact; [reflexivity|].
    exact Hfit.
  - intros H5 H500. unfold scaleFeeLevel. rewrite H5, H500.
    repeat split; reflexivity.
  - split; reflexivity.
Qed.

Lemma scaleFeeLevel_formula_witness :
  scaleFeeLevel (newFeeMetrics defaultSetup) 5 = 256
  /\ scaleFeeLevel (newFeeMetrics defaultSetup) 6 = 184320
  /\ scaleFeeLevel (newFeeMetrics defaultSetup) 7 = 256 * 500 * 7 ^ 2 / 5 ^ 2.
Proof.
  destruct (scaleFeeLevel_formula (newFeeMetrics defaultSetup) 7)
    as (_ & _ & Habove & Hex & _).
  destruct (Hex eq_refl eq_refl) as (h5 & h6 & _).
  split; [exact h5|]. split; [exact h6|].
  apply Habove.
  - cbn. lia.
  - cbn. lia.
  - apply Z.leb_le. reflexivity.
Defined.

Lemma requiredRetryLevel_floor setup existing :
  0 <= retrySequencePercent setup ->
  0 <= feeLevel existing ->
  feeLevel existing * (100 + retrySequencePercent setup) / 100 <= UINT64_MAX ->
  requiredRetryLevel setup existing
  = feeLevel existing + feeLevel existing * retrySequencePercent setup / 100.
Proof.
  intros Hp Hl Hfit. unfold requiredRetryLevel.
  rewrite mulDivNoThrow_exact by exact Hfit.
  replace (feeLevel existing * (100 + retrySequencePercent setup))
    with (feeLevel existing * retrySequencePercent setup + feeLevel existing * 100)
    by ring.
  rewrite Z.div_add by lia. lia.
Qed.

Lemma requiredRetryLevel_margin setup existing :
  0 <= retrySequencePercent setup ->
  0 <= feeLevel existing ->
  feeLevel existing * (100 + retrySequencePercent setup) / 100 <= UINT64_MAX ->
  requiredRetryLevel setup existing
  = feeLevel existing + feeLevel existing * retrySequencePercent setup / 100
  /\ (feeLevel existing < requiredRetryLevel setup existing
      <-> 100 <= feeLevel existing * retrySequencePercent setup).
Proof.
  intros Hp Hl Hfit.
  rewrite (requiredRetryLevel_floor setup existing Hp Hl Hfit).
  split; [reflexivity|].
  assert (Hx : 0 <= feeLevel existing * retrySequencePercent setup) by nia.
  revert Hx. generalize (feeLevel existing * retrySequencePercent setup).
  intros x Hx. Z.div_mod_to_equations. lia.
Qed.


Lemma queued1000_reachable :
  reachable (setup_ QueueScenario.queued1000) QueueScenario.queued1000.
Proof. exact (reach_apply _ _ _ _ _ _ _ (reach_new defaultSetup)). Qed.

Lemma fiveQueued_reachable :
  reachable (setup_ QueueScenario.fiveQueued) QueueScenario.fiveQueued.
Proof.
  assert (E : setup_ QueueScenario.fiveQueued = QueueScenario.smallSetup)
    by (vm_compute; reflexivity).
  rewrite E. unfold QueueScenario.fiveQueued, QueueScenario.hold.
  do 5 apply reach_apply. apply reach_new.
Qed.



(** C8.  In every state the queue can reach from empty by [TxQ::apply],
    [TxQ::accept] and [TxQ::processValidatedLedger], whatever the apply
    engine answers, at most one queued transaction has a given account
    and sequence, the account index finds exactly that one, and the same
    holds after one more of each operation. *)
Theorem at_most_one_per_account_and_sequence (setup : Setup) (q : Queue) :
  reachable setup q ->
  forall a s : Z,
    (queuedCount q a s <= 1)%nat
    /\ (forall c, lookupCandidate q a s = Some c
                  <-> c ∈ byFee_ q /\ account c = a /\ sequence c = s)
    /\ (forall view tx preflightOk direct canBeHeld,
          (queuedCount
             (snd (fst (TxQ.apply q view tx preflightOk direct canBeHeld)))
             a s <= 1)%nat)
    /\ (forall engine view,
          (queuedCount (fst (accept engine q view)) a s <= 1)%nat)
    /\ (forall openSeq txnsExpected,
          (queuedCount (processValidatedLedger q openSeq txnsExpected) a s
           <= 1)%nat).
Proof.
  intros Hreach a s.
  assert (Hcount : forall q', reachable setup q' -> (queuedCount q' a s <= 1)%nat).
  { intros q' Hq'. apply NoDup_key_count. exact (proj1 (reachable_wf _ _ Hq')). }
  split; [apply Hcount; exact Hreach|]. split.
  - intros c. rewrite (proj2 (reachable_wf _ _ Hreach) a s c), key_eq. reflexivity.
  - split; [|split].
    + intros. apply Hcount. apply reach_apply. exact Hreach.
    + intros. apply Hcount. apply reach_accept. exact Hreach.
    + intros. apply Hcount. apply reach_processValidatedLedger. exact Hreach.
Qed.

Lemma at_most_one_per_account_and_sequence_witness :
  (queuedCount
     (snd (fst (TxQ.apply QueueScenario.queued1000 QueueScenario.crowded
                  (QueueScenario.submission 1250 13) true ApplyRetry true)))
     1 7 <= 1)%nat
  /\ queuedCount QueueScenario.queued1000 1 7 = 1%nat.
Proof.
  split; [|vm_compute; reflexivity].
  destruct (at_most_one_per_account_and_sequence defaultSetup
              QueueScenario.queued1000 queued1000_reachable 1 7)
    as (_ & _ & Hafter & _).
  exact (Hafter QueueScenario.crowded (QueueScenario.submission 1250 13)
           true ApplyRetry true).
Defined.

(** * Part IV: further properties of the code *)

(** ** The wire header, byte by byte *)

Module WireFacts.
Import Ints IntsFacts Serial SerialFacts LedgerModel HeaderFacts WireSpec LedgerStore.

Lemma fold_bytes_acc (bs : Blob) (acc : Z) :
  fold_left (fun a b => a * 256 + b) bs acc
  = acc * 2 ^ (8 * Z.of_nat (length bs)) + bytesValue bs.
Proof.
  unfold bytesValue. revert acc.
  induction bs as [|b bs IH]; intros acc.
  - cbn. lia.
  - cbn [fold_left length]. rewrite IH, (IH (0 * 256 + b)).
    replace (8 * Z.of_nat (S (length bs))) with (8 * Z.of_nat (length bs) + 8) by lia.
    rewrite Z.pow_add_r by lia. change (2 ^ 8) with 256. ring.
Qed.

Lemma bytesValue_cons b bs :
  bytesValue (b :: bs) = b * 2 ^ (8 * Z.of_nat (length bs)) + bytesValue bs.
Proof.
  unfold bytesValue at 1. cbn [fold_left]. rewrite fold_bytes_acc. lia.
Qed.

Lemma bytesValue_range bs :
  Forall isByte bs -> 0 <= bytesValue bs < 2 ^ (8 * Z.of_nat (length bs)).
Proof.
  induction 1 as [|b bs Hb Hbs IH].
  - cbn. lia.
  - rewrite bytesValue_cons. cbn [length].
    replace (8 * Z.of_nat (S (length bs))) with (8 * Z.of_nat (length bs) + 8) by lia.
    rewrite Z.pow_add_r by lia. change (2 ^ 8) with 256.
    unfold isByte in Hb. nia.
Qed.

(** Writing the number a byte string denotes gives the bytes back. *)
Lemma bigEndian_bytesValue bs :
  Forall isByte bs -> bigEndian (length bs) (bytesValue bs) = bs.
Proof.
  induction 1 as [|b bs Hb Hbs IH]; [reflexivity|].
  cbn [length bigEndian]. rewrite bytesValue_cons.
  pose proof (bytesValue_range bs Hbs) as Hr.
  assert (Hp : 0 < 2 ^ (8 * Z.of_nat (length bs))) by (apply Z.pow_pos_nonneg; lia).
  f_equal.
  - rewrite Z.div_add_l by lia. rewrite Z.div_small by lia.
    unfold isByte in Hb. rewrite Z.add_0_r. apply Z.mod_small. lia.
  - rewrite <- bigEndian_wrap.
    rewrite Z.add_comm, Z.mod_add by lia.
    rewrite Z.mod_small by lia. exact IH.
Qed.

(** A read of [n] bytes succeeds exactly when [n] bytes are left. *)
Lemma getBytes_Some n acc sit :
  (n <= length sit)%nat ->
  getBytes n acc sit
  = Some (fold_left (fun a b => a * 256 + b) (take n sit) acc, drop n sit).
Proof.
  revert acc sit. induction n as [|n IH]; intros acc sit Hn.
  - reflexivity.
  - destruct sit as [|b sit]; [cbn in Hn; lia|].
    cbn [getBytes take drop fold_left]. apply IH. cbn in Hn. lia.
Qed.

Lemma getBytes_None n acc sit :
  (length sit < n)%nat -> getBytes n acc sit = None.
Proof.
  revert acc sit. induction n as [|n IH]; intros acc sit Hn; [lia|].
  destruct sit as [|b sit]; [reflexivity|].
  cbn [getBytes]. apply IH. cbn in Hn. lia.
Qed.

Lemma getBytes_fieldAt n sit :
  (n <= length sit)%nat ->
  getBytes n 0 sit = Some (fieldAt sit 0 n, drop n sit).
Proof. intros H. rewrite getBytes_Some by exact H. reflexivity. Qed.

Lemma getBytes_at d off n :
  (off + n <= length d)%nat ->
  getBytes n 0 (drop off d) = Some (fieldAt d off n, drop (off + n) d).
Proof.
  intros H. rewrite getBytes_Some by (rewrite length_drop; lia).
  rewrite drop_drop. reflexivity.
Qed.

Lemma fieldAt_app d extra off n :
  (off + n <= length d)%nat -> fieldAt (d ++ extra) off n = fieldAt d off n.
Proof.
  intros H. unfold fieldAt. rewrite drop_app_le by lia.
  rewrite take_app_le by (rewrite length_drop; lia). reflexivity.
Qed.

Lemma fieldAt_drop d m off n : fieldAt (drop m d) off n = fieldAt d (m + off) n.
Proof. unfold fieldAt. rewrite drop_drop. reflexivity. Qed.

Lemma fieldAt_range d off n :
  Forall isByte d -> (off + n <= length d)%nat ->
  0 <= fieldAt d off n < 2 ^ (8 * Z.of_nat n).
Proof.
  intros Hd Hn. unfold fieldAt.
  assert (Hl : length (take n (drop off d)) = n).
  { rewrite length_take, length_drop. lia. }
  assert (HF : Forall isByte (take n (drop off d)))
    by (apply Forall_take, Forall_drop; exact Hd).
  pose proof (bytesValue_range _ HF) as Hr. rewrite Hl in Hr. exact Hr.
Qed.

Lemma bigEndian_fieldAt d off n :
  Forall isByte d -> (off + n <= length d)%nat ->
  bigEndian n (fieldAt d off n) = take n (drop off d).
Proof.
  intros Hd Hn. unfold fieldAt.
  assert (Hl : length (take n (drop off d)) = n).
  { rewrite length_take, length_drop. lia. }
  assert (HF : Forall isByte (take n (drop off d)))
    by (apply Forall_take, Forall_drop; exact Hd).
  pose proof (bigEndian_bytesValue _ HF) as Hr. rewrite Hl in Hr. exact Hr.
Qed.

Section WithCollaborators.
Context `{C : Collaborators}.

(** The ledger [setRaw] builds from 118 bytes: the nine numbers at
    their offsets, the hash updated, and the two maps built over the
    roots. *)
Lemma ledgerFromRaw_fields d :
  (118 <= length d)%nat ->
  ledgerFromRaw d false
  = Some
      (let L :=
         updateHash
           {| info_seq := fieldAt d 0 4; info_hash := 0;
              info_parentCloseTime := fieldAt d 108 4;
              info_closeTime := fieldAt d 112 4; info_open := false;
              mParentHash := fieldAt d 12 32; mTransHash := fieldAt d 44 32;
              mAccountHash := fieldAt d 76 32; mTotCoins := fieldAt d 4 8;
              mCloseResolution := fieldAt d 116 1;
              mCloseFlags := fieldAt d 117 1;
              mValidHash := false; mValidated := false; mAccepted := false;
              mImmutable := true; txMap_ := None; stateMap_ := None |} in
       {| info_seq := info_seq L; info_hash := info_hash L;
          info_parentCloseTime := info_parentCloseTime L;
          info_closeTime := info_closeTime L; info_open := info_open L;
          mParentHash := mParentHash L; mTransHash := mTransHash L;
          mAccountHash := mAccountHash L; mTotCoins := mTotCoins L;
          mCloseResolution := mCloseResolution L;
          mCloseFlags := mCloseFlags L;
          mValidHash := mValidHash L; mValidated := mValidated L;
          mAccepted := mAccepted L; mImmutable := mImmutable L;
          txMap_ := Some (Backed (mTransHash L));
          stateMap_ := Some (Backed (mAccountHash L)) |}).
Proof.
  intros H. unfold ledgerFromRaw, setRaw, get32, get64, get256, get8.
  cbn [mbind option_bind]. change d with (drop 0 d) at 1.
  repeat (rewrite getBytes_at by (cbn [Nat.add]; lia);
          cbn [mbind option_bind Nat.add]).
  reflexivity.
Qed.

Lemma ledgerFromRaw_short d :
  (length d < 118)%nat -> ledgerFromRaw d false = None.
Proof.
  intros H. unfold ledgerFromRaw, setRaw, get32, get64, get256, get8.
  cbn [mbind option_bind]. change d with (drop 0 d) at 1.
  repeat
    match goal with
    | |- context [getBytes ?n 0 (drop ?off d)] =>
        destruct (le_lt_dec (off + n) (length d));
        [ rewrite (getBytes_at d off n) by assumption;
          cbn [mbind option_bind Nat.add]
        | rewrite (getBytes_None n 0 (drop off d))
            by (rewrite length_drop; lia);
          reflexivity ]
    end.
  cbn in *. lia.
Qed.

Lemma ledgerFromRaw_skips_prefix d :
  ledgerFromRaw d true
  = if decide (4 <= length d)%nat then ledgerFromRaw (drop 4 d) false else None.
Proof.
  destruct (decide (4 <= length d)%nat) as [H|H].
  - unfold ledgerFromRaw. unfold setRaw at 1.
    rewrite (getBytes_Some 4 0 d H : get32 d = _). reflexivity.
  - unfold ledgerFromRaw, setRaw.
    rewrite (getBytes_None 4 0 d ltac:(lia) : get32 d = _). reflexivity.
Qed.

End WithCollaborators.

End WireFacts.

Import WireSpec LedgerStore WireFacts MulDiv FeeIndex.

(** Reduce the projections of a ledger record, and nothing else. *)
Ltac fields :=
  cbn [info_seq info_hash info_parentCloseTime info_closeTime info_open
       mParentHash mTransHash mAccountHash mTotCoins mCloseResolution
       mCloseFlags mValidHash mValidated mAccepted mImmutable txMap_
       stateMap_ fst snd].

Ltac fields_in H :=
  cbn [info_seq info_hash info_parentCloseTime info_closeTime info_open
       mParentHash mTransHash mAccountHash mTotCoins mCloseResolution
       mCloseFlags mValidHash mValidated mAccepted mImmutable txMap_
       stateMap_ fst snd] in H.

Import WireSpec LedgerStore WireFacts.

(** ** Decoding a header *)

(** X1.  [Ledger::Ledger (data, size, hasPrefix)] raises (the read past
    the end in [setRaw]) exactly when fewer than 118 bytes are given, 122
    with the hash prefix; bytes after the header are ignored; the four
    prefix bytes are skipped without being looked at; and
    [Ledger::addRaw] always appends exactly 118 bytes. *)
Theorem ledgerFromRaw_needs_118_bytes `{C : Collaborators}
    (data : Blob) (hasPrefix : bool) :
  (ledgerFromRaw data hasPrefix = None
   <-> (length data < 118 + (if hasPrefix then 4 else 0))%nat)
  /\ (forall extra,
        (118 + (if hasPrefix then 4 else 0) <= length data)%nat ->
        ledgerFromRaw (data ++ extra) hasPrefix = ledgerFromRaw data hasPrefix)
  /\ (forall p1 p2,
        length p1 = 4%nat -> length p2 = 4%nat ->
        ledgerFromRaw (p1 ++ data) true = ledgerFromRaw (p2 ++ data) true
        /\ ledgerFromRaw (p1 ++ data) true = ledgerFromRaw data false)
  /\ (forall L s, length (addRaw L s) = (length s + 118)%nat).
Proof.
  assert (Hnone : forall d, ledgerFromRaw d false = None <-> (length d < 118)%nat).
  { intros d. split.
    - intros E. destruct (le_lt_dec 118 (length d)) as [H|H]; [|exact H].
      rewrite (ledgerFromRaw_fields d H) in E. discriminate.
    - apply ledgerFromRaw_short. }
  assert (Happ : forall d extra, (118 <= length d)%nat ->
            ledgerFromRaw (d ++ extra) false = ledgerFromRaw d false).
  { intros d extra H.
    rewrite (ledgerFromRaw_fields d H).
    rewrite ledgerFromRaw_fields by (rewrite length_app; lia).
    rewrite !fieldAt_app by lia. reflexivity. }
  assert (Hpre : forall p d, length p = 4%nat ->
            ledgerFromRaw (p ++ d) true = ledgerFromRaw d false).
  { intros p d Hp. rewrite ledgerFromRaw_skips_prefix.
    destruct (decide (4 <= length (p ++ d))%nat) as [_|N];
      [|rewrite length_app in N; lia].
    rewrite drop_app_length'; [reflexivity | symmetry; exact Hp]. }
  split; [|split; [|split]].
  - destruct hasPrefix.
    + rewrite ledgerFromRaw_skips_prefix.
      destruct (decide (4 <= length data)%nat) as [H4|H4].
      * rewrite Hnone, length_drop. lia.
      * split; [lia | reflexivity].
    + rewrite Hnone. lia.
  - intros extra H. destruct hasPrefix.
    + rewrite !ledgerFromRaw_skips_prefix.
      destruct (decide (4 <= length data)%nat) as [H4|H4]; [|lia].
      destruct (decide (4 <= length (data ++ extra))%nat) as [_|N];
        [|rewrite length_app in N; lia].
      rewrite drop_app_le by lia. apply Happ. rewrite length_drop. lia.
    + apply Happ. lia.
  - intros p1 p2 H1 H2. rewrite !Hpre by assumption. split; reflexivity.
  - intros L s. rewrite HeaderFacts.addRaw_fieldBytes, length_app.
    pose proof (HeaderFacts.addRaw_length L) as H118.
    rewrite HeaderFacts.addRaw_fieldBytes in H118. cbn [app] in H118.
    rewrite H118. reflexivity.
Qed.

(** X2.  The layout [Ledger::setRaw] reads: from 118 bytes or more the
    constructor takes the sequence from bytes 0-3, the coins from 4-11,
    the parent hash, transaction root and state root from 12-43, 44-75
    and 76-107, the parent close time and close time from 108-111 and
    112-115, the close resolution from byte 116 and the flags from byte
    117, each big-endian.  The ledger is immutable, [Ledger::addRaw]
    writes the same 118 bytes back, and its hash, which [getHash] returns
    without recomputing, is the digest of the hash prefix followed by
    those bytes. *)
Theorem wire_header_layout `{C : Collaborators} (data : Blob) :
  (118 <= length data)%nat -> Forall isByte data ->
  exists L,
    ledgerFromRaw data false = Some L
    /\ info_seq L = fieldAt data 0 4
    /\ mTotCoins L = fieldAt data 4 8
    /\ mParentHash L = fieldAt data 12 32
    /\ mTransHash L = fieldAt data 44 32
    /\ mAccountHash L = fieldAt data 76 32
    /\ info_parentCloseTime L = fieldAt data 108 4
    /\ info_closeTime L = fieldAt data 112 4
    /\ mCloseResolution L = fieldAt data 116 1
    /\ mCloseFlags L = fieldAt data 117 1
    /\ header_wf L
    /\ addRaw L [] = take 118 data
    /\ info_hash L
       = sha512Half (bigEndian 4 HashPrefix_ledgerMaster ++ take 118 data)
    /\ mImmutable L = true
    /\ getHash L = (L, info_hash L).
Proof.
  intros Hlen Hbytes.
  eexists. split; [apply (ledgerFromRaw_fields data Hlen)|]. cbv zeta.
  match goal with |- info_seq ?X = _ /\ _ => set (L := X) end.
  assert (Hraw : addRaw L [] = take 118 data).
  { rewrite HeaderFacts.addRaw_fieldBytes. cbn [app]. unfold fieldBytes.
    subst L. cbn [updateHash refreshRoots info_seq mTotCoins
      mParentHash mTransHash mAccountHash info_parentCloseTime info_closeTime
      mCloseResolution mCloseFlags mImmutable].
    rewrite !bigEndian_fieldAt by (try assumption; lia).
    rewrite app_nil_r, drop_0, !app_assoc.
    repeat (rewrite take_take_drop; cbn [Nat.add]).
    reflexivity. }
  repeat (split; [reflexivity|]).
  split; [|split; [exact Hraw|split; [|split; reflexivity]]].
  - unfold header_wf, in_range. subst L.
    cbn [updateHash refreshRoots info_seq mTotCoins
      mParentHash mTransHash mAccountHash info_parentCloseTime info_closeTime
      mCloseResolution mCloseFlags mImmutable].
    repeat split;
      try (apply (fieldAt_range data _ _ Hbytes); lia);
      match goal with
      | |- fieldAt data ?off ?n < _ =>
          apply (proj2 (fieldAt_range data off n Hbytes ltac:(lia)))
      end.
  - rewrite <- Hraw, <- HeaderFacts.headerRecord_addRaw,
      <- HeaderFacts.hashedBytes_headerRecord.
    reflexivity.
Qed.

Lemma wire_header_layout_witness :
  exists L,
    ledgerFromRaw (replicate 118 1) false = Some L
    /\ info_seq L = 16843009 /\ mCloseFlags L = 1
    /\ addRaw L [] = replicate 118 1.
Proof.
  destruct (wire_header_layout (replicate 118 1)) as (L & HL & Hs & H).
  - rewrite length_replicate. lia.
  - apply Forall_replicate. unfold isByte. lia.
  - exists L. split; [exact HL|]. split; [rewrite Hs; reflexivity|].
    destruct H as (_ & _ & _ & _ & _ & _ & _ & Hf & _ & Hraw & _).
    split; [rewrite Hf; reflexivity | rewrite Hraw; reflexivity].
Defined.

(** ** Hashing and immutability *)

Lemma updateHash_fixed `{C : Collaborators} (X : Ledger) :
  mImmutable X = true -> mValidHash X = true ->
  info_hash X = sha512Half (hashedBytes X) ->
  updateHash X = X.
Proof.
  destruct X as [? h ? ? ? ? ? ? ? ? ? v ? ? imm tm sm]. fields.
  intros -> -> Hh. unfold updateHash, refreshRoots. fields.
  f_equal. symmetry. exact Hh.
Qed.

Lemma setImmutable_fixed `{C : Collaborators} (X : Ledger) :
  updateHash X = X -> mImmutable X = true -> setImmutable X = X.
Proof.
  intros Hu Him. unfold setImmutable. rewrite Hu.
  destruct X as [? h ? ? ? ? ? ? ? ? ? v ? ? imm tm sm]. fields.
  cbn in Him. rewrite Him. reflexivity.
Qed.

Lemma setImmutable_hash `{C : Collaborators} (L : Ledger) :
  info_hash (setImmutable L) = sha512Half (hashedBytes (setImmutable L)).
Proof.
  change (info_hash (setImmutable L))
    with (sha512Half (hashedBytes (refreshRoots L))).
  reflexivity.
Qed.

(** X3.  [Ledger::updateHash] is idempotent, and [Ledger::setImmutable]
    fixes the ledger: on its result [updateHash] and [setImmutable]
    change nothing and [getHash] returns the stored hash, the digest of
    the serialized header; when the ledger was mutable and has both maps,
    the two roots of the header are the hashes of the maps, so that
    [Ledger::assertSane] holds unless the hash or the state root is
    zero. *)
Theorem setImmutable_fixes_ledger `{C : Collaborators} (L : Ledger) :
  updateHash (updateHash L) = updateHash L
  /\ updateHash (setImmutable L) = setImmutable L
  /\ setImmutable (setImmutable L) = setImmutable L
  /\ getHash (setImmutable L) = (setImmutable L, info_hash (setImmutable L))
  /\ info_hash (setImmutable L) = sha512Half (headerRecord (setImmutable L))
  /\ (forall sm tm,
        mImmutable L = false -> stateMap_ L = Some sm -> txMap_ L = Some tm ->
        mAccountHash (setImmutable L) = stateGetHash sm
        /\ mTransHash (setImmutable L) = txGetHash tm
        /\ assertSane (setImmutable L)
           = negb (info_hash (setImmutable L) =? 0)
             && negb (stateGetHash sm =? 0)).
Proof.
  assert (Hfix : updateHash (setImmutable L) = setImmutable L).
  { apply updateHash_fixed; [reflexivity | reflexivity | apply setImmutable_hash]. }
  split; [|split; [|split; [|split; [|split]]]].
  - destruct L as [? ? ? ? ? ? ? ? ? ? ? ? ? ? imm tm sm].
    unfold updateHash, refreshRoots, hashedBytes. fields.
    destruct imm; reflexivity.
  - exact Hfix.
  - apply setImmutable_fixed; [exact Hfix | reflexivity].
  - reflexivity.
  - rewrite <- HeaderFacts.hashedBytes_headerRecord. apply setImmutable_hash.
  - intros sm tm Himm Hsm Htm.
    unfold assertSane, setImmutable, updateHash, refreshRoots.
    rewrite Himm. fields. rewrite Hsm, Htm.
    rewrite !Z.eqb_refl, andb_true_r. repeat split; reflexivity.
Qed.

(** ** Raw access to the state map *)

(** X4.  On a state held in memory, [Ledger::rawInsert] raises exactly
    when the key is present and [Ledger::rawReplace] exactly when it is
    absent.  After either one succeeds, [peek] returns the entry written
    under that key and what it returned before under every other key,
    [exists] holds, a second [rawInsert] raises, and the header and the
    cached hash are untouched: [getHash] still returns the hash computed
    before the change. *)
Theorem rawInsert_then_peek `{C : Collaborators}
    (L : Ledger) (items : StateItems) (k : Key) (sle : SLE) :
  stateItems L = Some items ->
  (rawInsert L k sle = None <-> is_Some (peek L k))
  /\ (rawReplace L k sle = None <-> peek L k = None)
  /\ (forall L',
        rawInsert L k sle = Some L' \/ rawReplace L k sle = Some L' ->
        peek L' k = Some sle
        /\ (forall k', k' <> k -> peek L' k' = peek L k')
        /\ exists_ L' k = true
        /\ rawInsert L' k sle = None
        /\ same_header L' L
        /\ (mValidHash L = true -> getHash L' = (L', snd (getHash L)))).
Proof.
  intros Hst.
  assert (Hpk : forall k', peek L k' = items !! k')
    by (intros; apply peek_resolved; exact Hst).
  unfold rawInsert, rawReplace. rewrite Hst, Hpk. cbn [mbind option_bind].
  split; [|split].
  - destruct (items !! k); split; intros H;
      try reflexivity; try discriminate; eauto.
    destruct H; discriminate.
  - destruct (items !! k); split; intros H; try reflexivity; discriminate.
  - intros L' HL'.
    assert (E : L' = withStateItems L (<[k := sle]> items)).
    { destruct (items !! k); destruct HL' as [H|H]; congruence. }
    subst L'.
    assert (Hpk' : forall k', peek (withStateItems L (<[k := sle]> items)) k'
                              = <[k := sle]> items !! k')
      by (intros; apply peek_resolved; reflexivity).
    split; [rewrite Hpk'; apply lookup_insert_eq|].
    split; [intros k' Hne; rewrite Hpk', Hpk; apply lookup_insert_ne; congruence|].
    split.
    { unfold exists_. cbn. rewrite lookup_insert_eq.
      apply bool_decide_eq_true. eauto. }
    split; [cbn; rewrite lookup_insert_eq; reflexivity|].
    split; [unfold same_header; cbn; tauto|].
    intros Hv. unfold getHash. cbn [withStateItems mValidHash].
    rewrite Hv. reflexivity.
Qed.

Lemma rawInsert_then_peek_witness :
  exists L',
    rawInsert (genesisLedger 100000) KSkip (mkSLE [7] 1) = Some L'
    /\ peek L' KSkip = Some (mkSLE [7] 1)
    /\ rawInsert L' KSkip (mkSLE [7] 1) = None.
Proof.
  destruct (rawInsert_then_peek (genesisLedger 100000) ∅ KSkip (mkSLE [7] 1)
              eq_refl) as (_ & _ & H).
  eexists. split; [reflexivity|].
  destruct (H _ (or_introl eq_refl)) as (Hp & _ & _ & Hi & _).
  split; [exact Hp | exact Hi].
Defined.

(** X5.  [Ledger::rawErase] raises exactly when the key is absent (from
    a state held in memory); after it succeeds [peek] finds nothing under
    the key, every other key reads as before, the header is untouched and
    a second [rawErase] raises.  Erasing a key just inserted gives the
    ledger back as it was. *)
Theorem rawErase_undoes_rawInsert `{C : Collaborators}
    (L : Ledger) (k : Key) (sle : SLE) :
  (forall L', rawInsert L k sle = Some L' -> rawErase L' k = Some L)
  /\ (forall items, stateItems L = Some items ->
        (rawErase L k = None <-> peek L k = None))
  /\ (forall L', rawErase L k = Some L' ->
        peek L' k = None
        /\ (forall k', k' <> k -> peek L' k' = peek L k')
        /\ exists_ L' k = false
        /\ rawErase L' k = None
        /\ same_header L' L).
Proof.
  split; [|split].
  - intros L' HL'. unfold rawInsert in HL'.
    destruct (stateItems L) as [items|] eqn:Hst; [|discriminate].
    cbn [mbind option_bind] in HL'.
    destruct (items !! k) eqn:Hk; [discriminate|].
    injection HL' as <-. unfold rawErase. cbn.
    rewrite lookup_insert_eq, delete_insert_id by exact Hk.
    f_equal. rewrite withStateItems_twice. apply withStateItems_same. exact Hst.
  - intros items Hst. unfold rawErase.
    rewrite (peek_resolved L items k Hst), Hst. cbn [mbind option_bind].
    destruct (items !! k); split; intros H; try reflexivity; discriminate.
  - intros L' HL'. unfold rawErase in HL'.
    destruct (stateItems L) as [items|] eqn:Hst; [|discriminate].
    cbn [mbind option_bind] in HL'.
    destruct (items !! k) eqn:Hk; [|discriminate].
    injection HL' as <-.
    assert (Hpk' : forall k', peek (withStateItems L (delete k items)) k'
                              = delete k items !! k')
      by (intros; apply peek_resolved; reflexivity).
    split; [rewrite Hpk'; apply lookup_delete_eq|].
    split.
    { intros k' Hne. rewrite Hpk', (peek_resolved L items k' Hst).
      apply lookup_delete_ne. congruence. }
    split.
    { unfold exists_. cbn. rewrite lookup_delete_eq.
      apply bool_decide_eq_false. intros [? ?]. discriminate. }
    split; [unfold rawErase; cbn; rewrite lookup_delete_eq; reflexivity|].
    unfold same_header. cbn. tauto.
Qed.

(** ** Saving and loading through the [Ledgers] table *)

Lemma ledgerRow_immutable `{C : Collaborators} (L : Ledger) :
  mImmutable L = true ->
  ledgerRow L
  = {| LedgerHash := Some (snd (getHash L)); LedgerSeq := Some (info_seq L);
       PrevHash := Some (mParentHash L); TotalCoins := Some (mTotCoins L);
       ClosingTime := Some (info_closeTime L);
       PrevClosingTime := Some (info_parentCloseTime L);
       CloseTimeRes := Some (mCloseResolution L);
       CloseFlags := Some (mCloseFlags L);
       AccountSetHash := Some (mAccountHash L);
       TransSetHash := Some (mTransHash L) |}.
Proof.
  intros Him. unfold ledgerRow, getHash.
  destruct (mValidHash L); [reflexivity|].
  unfold updateHash. rewrite (HeaderFacts.refreshRoots_immutable L Him).
  reflexivity.
Qed.

(** What [setImmutable] leaves of a ledger that is immutable already. *)
Lemma setImmutable_immutable `{C : Collaborators} (X : Ledger) :
  mImmutable X = true ->
  same_header (setImmutable X) X
  /\ info_hash (setImmutable X) = sha512Half (hashedBytes X)
  /\ info_open (setImmutable X) = info_open X
  /\ mAccepted (setImmutable X) = mAccepted X
  /\ mImmutable (setImmutable X) = true.
Proof.
  intros Him. unfold setImmutable, updateHash.
  rewrite (HeaderFacts.refreshRoots_immutable X Him). fields.
  unfold same_header. fields. repeat split; reflexivity.
Qed.

(** What [Ledger::setAccepted ()] makes of an immutable ledger. *)
Lemma setAcceptedAcquired_immutable `{C : Collaborators} (X : Ledger) :
  mImmutable X = true ->
  info_seq (setAcceptedAcquired X) = info_seq X
  /\ mTotCoins (setAcceptedAcquired X) = mTotCoins X
  /\ mParentHash (setAcceptedAcquired X) = mParentHash X
  /\ mTransHash (setAcceptedAcquired X) = mTransHash X
  /\ mAccountHash (setAcceptedAcquired X) = mAccountHash X
  /\ info_parentCloseTime (setAcceptedAcquired X) = info_parentCloseTime X
  /\ info_closeTime (setAcceptedAcquired X)
     = (if Z.land (mCloseFlags X) sLCF_NoConsensusTime =? 0
        then roundCloseTime (info_closeTime X) (mCloseResolution X)
        else info_closeTime X)
  /\ mCloseResolution (setAcceptedAcquired X) = mCloseResolution X
  /\ mCloseFlags (setAcceptedAcquired X) = mCloseFlags X
  /\ info_open (setAcceptedAcquired X) = info_open X
  /\ mAccepted (setAcceptedAcquired X) = true
  /\ mImmutable (setAcceptedAcquired X) = true
  /\ getHash (setAcceptedAcquired X)
     = (setAcceptedAcquired X, sha512Half (headerRecord (setAcceptedAcquired X))).
Proof.
  intros Him.
  assert (Hh : getHash (setAcceptedAcquired X)
               = (setAcceptedAcquired X,
                  sha512Half (headerRecord (setAcceptedAcquired X)))).
  { unfold setAcceptedAcquired.
    rewrite <- HeaderFacts.hashedBytes_headerRecord, <- setImmutable_hash.
    reflexivity. }
  unfold setAcceptedAcquired in *.
  match goal with
  | |- context [setImmutable ?R] =>
      destruct (setImmutable_immutable R Him)
        as ((a1 & a2 & a3 & a4 & a5 & a6 & a7 & a8 & a9) & _ & Ho & Ha & Hi)
  end.
  repeat (split; [assumption|]). exact Hh.
Qed.

(** X6.  A validated ledger saved to the [Ledgers] table by
    [saveValidatedLedger] and read back by [Ledger::loadByHash] (or
    [loadByIndex]): no row gives no ledger; a row whose non-zero
    transaction or state root cannot be fetched gives no ledger;
    otherwise the ledger comes back closed and immutable with every
    header field as saved, except that when the server already has the
    ledger and the flags say the close time was agreed, the close time
    is rounded again to the close resolution.  The hash is the digest of
    the header that came back, so it is the hash that was saved whenever
    the close time is unchanged. *)
Theorem saved_ledger_loads_back `{C : Collaborators}
    (L : Ledger) (haveTxRoot haveStateRoot haveLedger : bool) :
  header_wf L -> mImmutable L = true ->
  loadByHash None haveTxRoot haveStateRoot haveLedger = None
  /\ (loadByHash (Some (ledgerRow L)) haveTxRoot haveStateRoot haveLedger = None
      <-> (mTransHash L <> 0 /\ haveTxRoot = false)
          \/ (mAccountHash L <> 0 /\ haveStateRoot = false))
  /\ (forall L',
        loadByHash (Some (ledgerRow L)) haveTxRoot haveStateRoot haveLedger
        = Some L' ->
        info_seq L' = info_seq L /\ mTotCoins L' = mTotCoins L
        /\ mParentHash L' = mParentHash L /\ mTransHash L' = mTransHash L
        /\ mAccountHash L' = mAccountHash L
        /\ info_parentCloseTime L' = info_parentCloseTime L
        /\ mCloseResolution L' = mCloseResolution L
        /\ mCloseFlags L' = mCloseFlags L
        /\ info_closeTime L'
           = (if haveLedger && getCloseAgree L
              then roundCloseTime (info_closeTime L) (mCloseResolution L)
              else info_closeTime L)
        /\ info_open L' = false /\ mImmutable L' = true
        /\ mAccepted L' = haveLedger
        /\ getHash L' = (L', sha512Half (headerRecord L'))
        /\ (info_closeTime L' = info_closeTime L ->
            snd (getHash L') = info_hash (updateHash L)
            /\ (hash_coherent L ->
                LedgerHash (ledgerRow L) = Some (snd (getHash L'))))).
Proof.
  intros W Him. split; [reflexivity|].
  destruct W as (w1 & w2 & w3 & w4 & w5 & w6 & w7 & w8 & w9).
  unfold in_range in *.
  assert (Hload :
    loadByHash (Some (ledgerRow L)) haveTxRoot haveStateRoot haveLedger
    = finishLoadByIndexOrHash
        (let '(ledger, _, loaded) :=
           ledgerFromFields (mParentHash L) (mTransHash L) (mAccountHash L)
             (mTotCoins L) (info_closeTime L) (info_parentCloseTime L)
             (mCloseFlags L) (mCloseResolution L) (info_seq L)
             haveTxRoot haveStateRoot in
         if loaded then Some ledger else None) haveLedger).
  { unfold loadByHash, loadLedgerHelper.
    rewrite (ledgerRow_immutable L Him).
    cbn [LedgerHash LedgerSeq PrevHash TotalCoins ClosingTime PrevClosingTime
         CloseTimeRes CloseFlags AccountSetHash TransSetHash default
         from_option id].
    rewrite !u32_small by (unfold in_range; lia).
    rewrite !to_int_small by lia.
    destruct (ledgerFromFields _ _ _ _ _ _ _ _ _ _ _) as [[ledger maps] loaded].
    destruct loaded; reflexivity. }
  rewrite Hload. clear Hload.
  unfold ledgerFromFields.
  set (R0 := {| info_seq := info_seq L; info_hash := 0;
                info_parentCloseTime := info_parentCloseTime L;
                info_closeTime := info_closeTime L; info_open := false;
                mParentHash := mParentHash L; mTransHash := mTransHash L;
                mAccountHash := mAccountHash L; mTotCoins := mTotCoins L;
                mCloseResolution := mCloseResolution L;
                mCloseFlags := mCloseFlags L;
                mValidHash := false; mValidated := false; mAccepted := false;
                mImmutable := true;
                txMap_ := Some (Backed (mTransHash L));
                stateMap_ := Some (Backed (mAccountHash L)) |}).
  assert (HR : mTransHash (updateHash R0) = mTransHash L
               /\ mAccountHash (updateHash R0) = mAccountHash L)
    by (split; reflexivity).
  destruct HR as [HRt HRa]. cbv zeta. rewrite HRt, HRa.
  set (F := setImmutable (setClosed (updateHash R0))).
  assert (HF : same_header F L /\ info_open F = false /\ mImmutable F = true
               /\ mAccepted F = false).
  { subst F. destruct (setImmutable_immutable (setClosed (updateHash R0)) eq_refl)
      as (Hs & _ & Ho & Ha & Hi).
    split; [|split; [exact Ho | split; [exact Hi | exact Ha]]].
    unfold same_header in *. exact Hs. }
  destruct HF as (HFs & HFo & HFi & HFa).
  assert (Hfin :
    finishLoadByIndexOrHash
      (let '(ledger, _, loaded) :=
         (updateHash R0,
          ({| rootFetched := negb (mTransHash L =? 0) && haveTxRoot;
              mapImmutable := true |},
           {| rootFetched := negb (mAccountHash L =? 0) && haveStateRoot;
              mapImmutable := true |}),
          if negb (mAccountHash L =? 0) && negb haveStateRoot then false
          else if negb (mTransHash L =? 0) && negb haveTxRoot then false
               else true) in
       if loaded then Some ledger else None) haveLedger
    = if negb (negb (mTransHash L =? 0) && negb haveTxRoot)
         && negb (negb (mAccountHash L =? 0) && negb haveStateRoot)
      then Some (if haveLedger then setAcceptedAcquired F else F)
      else None).
  { destruct (mTransHash L =? 0), (mAccountHash L =? 0),
      haveTxRoot, haveStateRoot; reflexivity. }
  rewrite Hfin. clear Hfin.
  split.
  - destruct (Z.eqb_spec (mTransHash L) 0) as [Et|Et],
      (Z.eqb_spec (mAccountHash L) 0) as [Ea|Ea],
      haveTxRoot, haveStateRoot; cbn [negb andb];
      split; intros H; try discriminate; try reflexivity;
      try (exfalso; destruct H as [[? ?]|[? ?]]; congruence);
      try (left; split; [assumption | reflexivity]);
      try (right; split; [assumption | reflexivity]).
  - intros L' HL'.
    assert (E : L' = if haveLedger then setAcceptedAcquired F else F).
    { destruct (negb (negb (mTransHash L =? 0) && negb haveTxRoot)
                && negb (negb (mAccountHash L =? 0) && negb haveStateRoot));
        [congruence | discriminate]. }
    clear HL'.
    destruct HFs as (s1 & s2 & s3 & s4 & s5 & s6 & s7 & s8 & s9).
    assert (HFh : getHash F = (F, sha512Half (headerRecord F))).
    { subst F. rewrite <- HeaderFacts.hashedBytes_headerRecord.
      rewrite <- setImmutable_hash. reflexivity. }
    assert (Hsame : forall X, same_header X L ->
              sha512Half (headerRecord X) = info_hash (updateHash L)).
    { intros X HX. rewrite HeaderFacts.updateHash_info_hash.
      rewrite (HeaderFacts.hashedBytes_same_header _ _
                 (HeaderFacts.updateHash_header L)).
      rewrite (HeaderFacts.refreshRoots_immutable L Him).
      rewrite <- HeaderFacts.hashedBytes_headerRecord.
      f_equal. apply HeaderFacts.hashedBytes_same_header. exact HX. }
    assert (Hco : forall h, h = info_hash (updateHash L) -> hash_coherent L ->
              LedgerHash (ledgerRow L) = Some h).
    { intros h -> Hc. rewrite (ledgerRow_immutable L Him).
      cbn [LedgerHash]. rewrite Hc. reflexivity. }
    destruct haveLedger; cbn [andb]; subst L'.
    + destruct (setAcceptedAcquired_immutable F HFi)
        as (a1 & a2 & a3 & a4 & a5 & a6 & a7 & a8 & a9 & Ho & Ha & Hi & HAh).
      set (A := setAcceptedAcquired F) in *.
      assert (Hct : info_closeTime A
                    = if getCloseAgree L
                      then roundCloseTime (info_closeTime L) (mCloseResolution L)
                      else info_closeTime L).
      { rewrite a7. unfold getCloseAgree. rewrite s9, s7, s8. reflexivity. }
      do 8 (split; [congruence|]).
      split; [exact Hct|].
      split; [congruence|]. split; [exact Hi|]. split; [exact Ha|].
      split; [exact HAh|].
      intros Hsamect.
      assert (HsA : same_header A L).
      { unfold same_header. repeat split; congruence. }
      rewrite HAh. cbn [snd].
      split; [apply Hsame; exact HsA|].
      apply Hco. apply Hsame. exact HsA.
    + do 8 (split; [congruence|]).
      split; [exact s7|]. split; [exact HFo|]. split; [exact HFi|].
      split; [exact HFa|]. split; [exact HFh|].
      intros _. rewrite HFh. cbn [snd].
      assert (HsF : same_header F L).
      { unfold same_header. repeat split; assumption. }
      split; [apply Hsame; exact HsF|].
      apply Hco. apply Hsame. exact HsF.
Qed.

Lemma saved_ledger_loads_back_witness :
  exists L',
    loadByHash (Some (ledgerRow Scenario.sampleHeader)) true true true = Some L'
    /\ info_seq L' = 300 /\ info_closeTime L' = 4020
    /\ snd (getHash L') = info_hash (updateHash Scenario.sampleHeader).
Proof.
  assert (W : header_wf Scenario.sampleHeader).
  { unfold header_wf, in_range. cbn. lia. }
  destruct (saved_ledger_loads_back Scenario.sampleHeader true true true W eq_refl)
    as (_ & _ & H).
  eexists. split; [reflexivity|].
  destruct (H _ eq_refl) as (Hs & _ & _ & _ & _ & _ & _ & _ & Hc & _ & _ & _ & _ & Hh).
  split; [exact Hs|]. split; [exact Hc|].
  exact (proj1 (Hh Hc)).
Defined.

(** ** The skip list along a chain *)

(** The rolling window does not reach sequence 0, nor further back than
    256. *)
Lemma hashWithin256_chain `{C : Collaborators} (h : Z -> Z) L s items k :
  info_seq L = s -> stateItems L = Some items -> skip_inv h s items ->
  0 <= k -> k + 2 <= s -> s < 2 ^ 32 ->
  hashWithin256 L k
  = if (s - k <=? 256) && (1 <=? k) then Some (Some (h k)) else None.
Proof.
  intros Hseq Hst Hinv Hk0 Hk2 Hs.
  destruct (Z.leb_spec 1 k) as [Hk1|Hk1].
  - rewrite andb_true_r.
    apply (hashWithin256_inv h L s items k); assumption.
  - rewrite andb_false_r. assert (k = 0) as -> by lia.
    destruct Hinv as [Hw _]. unfold hashWithin256, cachedRead.
    rewrite (peek_resolved L items _ Hst). unfold getLedgerHashIndex.
    rewrite Hw, Hseq. unfold windowEntry.
    destruct (Z.leb_spec s 1); [lia|]. cbn [sfHashes].
    rewrite fmap_seqZ_length by lia. rewrite Z.sub_0_r.
    destruct (Z.lt_ge_cases s (2 ^ 31)) as [Hsmall|Hbig].
    + rewrite to_int_small by lia.
      destruct (Z.leb_spec s 256); [|reflexivity].
      unfold to_size_t. rewrite u64_small by (unfold in_range; lia).
      destruct (Z.leb_spec s (Z.min (s - 1) 256)); [lia | reflexivity].
    + rewrite to_int_big by lia.
      destruct (Z.leb_spec (s - 2 ^ 32) 256); [|reflexivity].
      assert (E : to_size_t (s - 2 ^ 32) = s - 2 ^ 32 + 2 ^ 64).
      { unfold to_size_t, u64, wrap.
        rewrite <- (Z.mod_add _ 1) by lia. apply Z.mod_small. lia. }
      rewrite E.
      destruct (Z.leb_spec (s - 2 ^ 32 + 2 ^ 64) (Z.min (s - 1) 256));
        [lia | reflexivity].
Qed.

(** The every-256th list does not hold sequence 0. *)
Lemma hashInSkipList_zero `{C : Collaborators} (h : Z -> Z) L s items :
  stateItems L = Some items -> skip_inv h s items -> 1 <= s < 2 ^ 32 ->
  hashInSkipList L 0 = None.
Proof.
  intros Hst [_ Hb] Hs. unfold hashInSkipList, cachedRead.
  rewrite (peek_resolved L items _ Hst). unfold getLedgerHashIndexAt.
  rewrite Hb. change (Z.shiftr 0 16) with 0. unfold bucketEntry.
  change (Z.max 1 (256 * 0)) with 1. change (256 * 0 + 255) with 255.
  assert (Hq : 0 <= (s - 1) / 256 < 2 ^ 24) by zdiv.
  destruct (Z.ltb_spec (Z.min ((s - 1) / 256) 255) 1); [reflexivity|].
  cbn [sfHashes sfLastLedgerSequence].
  rewrite fmap_seqZ_length by lia. rewrite Z.sub_0_r.
  rewrite u32_small by (unfold in_range; lia).
  rewrite shiftr_8, Z.mul_comm, Z.div_mul by lia.
  destruct (Z.ltb_spec (Z.min ((s - 1) / 256) 255)
              (Z.min ((s - 1) / 256) 255 - 1 + 1)); [lia | reflexivity].
Qed.

(** X7.  On every chain built round by round from genesis, the skip
    list satisfies what [Ledger::updateSkipList] and [hashOfSeq] assert
    of it.  The rolling-window entry is missing only in the genesis
    ledger; otherwise its last sequence is the ledger's sequence less one
    and it holds the last [min (seq - 1, 256)] hashes, never more than
    256.  Every every-256th entry holds between 1 and 256 hashes, sits
    under the key of its last sequence, and that sequence is a multiple
    of 256 below the ledger's own and not below any multiple of 256 that
    is looked up under the same key. *)
Theorem chain_skip_list_assertions `{C : Collaborators}
    (balance : Z) (rounds : nat -> RoundOutcome) (n : nat) :
  Z.of_nat n + 1 < 2 ^ 32 ->
  exists L,
    chain balance rounds n = Some L
    /\ info_seq L = Z.of_nat n + 1
    /\ (peek L getLedgerHashIndex = None <-> info_seq L = 1)
    /\ (forall e, peek L getLedgerHashIndex = Some e ->
          sfLastLedgerSequence e = info_seq L - 1
          /\ Z.of_nat (length (sfHashes e)) = Z.min (info_seq L - 1) 256
          /\ (length (sfHashes e) <= 256)%nat)
    /\ (forall j e, peek L (KSkipAt j) = Some e ->
          Z.land (sfLastLedgerSequence e) 255 = 0
          /\ 256 <= sfLastLedgerSequence e < info_seq L
          /\ getLedgerHashIndexAt (sfLastLedgerSequence e) = KSkipAt j
          /\ (1 <= length (sfHashes e) <= 256)%nat)
    /\ (forall k e,
          0 <= k < info_seq L -> Z.land k 255 = 0 ->
          peek L (getLedgerHashIndexAt k) = Some e ->
          k <= sfLastLedgerSequence e).
Proof.
  intros Hn.
  destruct (chain_inv balance rounds n Hn)
    as (L & items & Hch & Hseq & Hst & [Hw Hb] & _ & _).
  exists L. split; [exact Hch|]. split; [exact Hseq|].
  assert (Hpk : forall k, peek L k = items !! k)
    by (intros; apply peek_resolved; exact Hst).
  assert (Hbucket : forall j e, items !! KSkipAt j = Some e ->
    exists qhi,
      sfLastLedgerSequence e = 256 * qhi
      /\ Z.max 1 (256 * j) <= qhi
      /\ qhi = Z.min ((info_seq L - 1) / 256) (256 * j + 255)
      /\ Z.of_nat (length (sfHashes e)) = qhi - Z.max 1 (256 * j) + 1).
  { intros j e He. rewrite Hb in He. unfold bucketEntry in He.
    rewrite <- Hseq in He.
    destruct (Z.ltb_spec (Z.min ((info_seq L - 1) / 256) (256 * j + 255))
                (Z.max 1 (256 * j))); [discriminate|].
    injection He as <-. cbn [sfHashes sfLastLedgerSequence].
    eexists. split; [reflexivity|]. split; [assumption|].
    split; [reflexivity|]. apply fmap_seqZ_length. lia. }
  split; [|split; [|split]].
  - rewrite Hpk. unfold getLedgerHashIndex. rewrite Hw, Hseq.
    unfold windowEntry.
    destruct (Z.leb_spec (Z.of_nat n + 1) 1); split; intros HH;
      try reflexivity; try discriminate; lia.
  - intros e He. rewrite Hpk in He. unfold getLedgerHashIndex in He.
    rewrite Hw, <- Hseq in He. unfold windowEntry in He.
    destruct (Z.leb_spec (info_seq L) 1); [discriminate|].
    injection He as <-. cbn [sfHashes sfLastLedgerSequence].
    split; [reflexivity|].
    assert (E : Z.of_nat (length (chainHash balance rounds
                   <$> seqZ (info_seq L - Z.min (info_seq L - 1) 256)
                         (Z.min (info_seq L - 1) 256)))
                = Z.min (info_seq L - 1) 256)
      by (apply fmap_seqZ_length; lia).
    split; [exact E | lia].
  - intros j e He. rewrite Hpk in He.
    destruct (Hbucket j e He) as (qhi & Hl & Hlo & Hhi & Hlen).
    rewrite Hl. unfold getLedgerHashIndexAt.
    rewrite land_255, shiftr_16.
    assert (Hq : (info_seq L - 1) / 256 * 256 <= info_seq L - 1) by zdiv.
    split; [zdiv|]. split; [lia|]. split; [f_equal; zdiv | lia].
  - intros k e Hk Hm He. rewrite Hpk in He. unfold getLedgerHashIndexAt in He.
    destruct (Hbucket _ e He) as (qhi & Hl & Hlo & Hhi & Hlen).
    rewrite Hl. rewrite land_255 in Hm. rewrite shiftr_16 in Hhi.
    assert (H1 : k / 256 <= (info_seq L - 1) / 256) by zdiv.
    assert (H2 : k / 256 <= 256 * (k / 65536) + 255) by zdiv.
    assert (H3 : k = 256 * (k / 256)) by zdiv.
    lia.
Qed.

Lemma chain_skip_list_assertions_witness :
  exists L,
    chain 100000 Scenario.steadyRounds 299 = Some L
    /\ info_seq L = 300
    /\ forall e, peek L getLedgerHashIndex = Some e ->
         sfLastLedgerSequence e = 299 /\ length (sfHashes e) = 256%nat.
Proof.
  assert (B : Z.of_nat 299 + 1 < 2 ^ 32) by (apply Z.ltb_lt; reflexivity).
  destruct (chain_skip_list_assertions 100000 Scenario.steadyRounds 299%nat B)
    as (L & Hch & Hseq & _ & Hw & _).
  exists L. split; [exact Hch|]. split; [exact Hseq|].
  intros e He. destruct (Hw e He) as (Hl & Hlen & _).
  rewrite Hseq in Hl, Hlen. split; lia.
Defined.

(** X8.  Which sequences [hashOfSeq] can answer from a ledger of a
    chain: its own, its parent's, any of the 256 before it, and every
    multiple of 256 from 256 up, and no other; the genesis ledger also
    answers sequence 0, with its zero parent hash.  From sequence 1 on
    the answer is the hash of the chain's ledger with that sequence. *)
Theorem hashOfSeq_chain_coverage `{C : Collaborators}
    (balance : Z) (rounds : nat -> RoundOutcome) (n : nat) (k : Z) :
  Z.of_nat n + 1 < 2 ^ 32 -> 0 <= k ->
  exists L,
    chain balance rounds n = Some L
    /\ info_seq L = Z.of_nat n + 1
    /\ (hashOfSeq L k = None
        <-> ~ (k = info_seq L - 1
               \/ (1 <= k <= info_seq L
                   /\ (info_seq L - k <= 256 \/ k mod 256 = 0))))
    /\ (forall h, hashOfSeq L k = Some h ->
          if k =? 0 then h = 0 /\ info_seq L = 1
          else h = chainHash balance rounds k).
Proof.
  intros Hn Hk0.
  destruct (chain_inv balance rounds n Hn)
    as (L & items & Hch & Hseq & Hst & Hinv & Hp & Hco).
  exists L. split; [exact Hch|]. split; [exact Hseq|].
  assert (Hcov : 1 <= k <= info_seq L ->
                 info_seq L - k <= 256 \/ k mod 256 = 0 ->
                 hashOfSeq L k = Some (chainHash balance rounds k)).
  { intros H1 H2. apply (chain_hashOfSeq balance rounds n L k Hch Hn); lia. }
  assert (Hgen : k = 0 -> info_seq L = 1 -> hashOfSeq L k = Some 0).
  { intros -> H1. assert (n = 0%nat) as -> by lia.
    cbn in Hch. injection Hch as <-. reflexivity. }
  assert (Hnone : ~ (k = info_seq L - 1
                     \/ (1 <= k <= info_seq L
                         /\ (info_seq L - k <= 256 \/ k mod 256 = 0))) ->
                  hashOfSeq L k = None).
  { intros Hnc. unfold hashOfSeq.
    destruct (Z.ltb_spec (info_seq L) k); [reflexivity|].
    destruct (Z.eqb_spec k (info_seq L)) as [E|NE].
    { exfalso. apply Hnc. right. lia. }
    rewrite u32_small by (unfold in_range; lia).
    destruct (Z.eqb_spec k (info_seq L - 1)) as [E|NE'].
    { exfalso. apply Hnc. left. exact E. }
    rewrite (hashWithin256_chain (chainHash balance rounds) L
               (Z.of_nat n + 1) items k) by (try assumption; lia).
    rewrite <- Hseq.
    destruct (Z.leb_spec (info_seq L - k) 256) as [Hd|Hd];
      destruct (Z.leb_spec 1 k) as [Hk1|Hk1]; cbn [andb].
    - exfalso. apply Hnc. right. lia.
    - assert (k = 0) as -> by lia. cbn [Z.land Z.eqb negb].
      apply (hashInSkipList_zero (chainHash balance rounds) L
               (Z.of_nat n + 1) items); try assumption; lia.
    - rewrite land_255.
      destruct (Z.eqb_spec (k mod 256) 0) as [Hm|Hm]; [|reflexivity].
      exfalso. apply Hnc. right. lia.
    - assert (k = 0) as -> by lia. cbn [Z.land Z.eqb negb].
      apply (hashInSkipList_zero (chainHash balance rounds) L
               (Z.of_nat n + 1) items); try assumption; lia. }
  split.
  - split; [|exact Hnone].
    intros HN [E|[H1 H2]].
    + destruct (Z.eq_dec k 0) as [->|Hk].
      * rewrite Hgen in HN by lia. discriminate.
      * rewrite Hcov in HN by lia. discriminate.
    + rewrite Hcov in HN by assumption. discriminate.
  - intros h Hh.
    destruct (Z.eqb_spec k 0) as [->|Hk].
    + destruct (Z.eq_dec (info_seq L) 1) as [E1|N1].
      * rewrite Hgen in Hh by auto. injection Hh as <-. auto.
      * rewrite Hnone in Hh; [discriminate|].
        intros [E|[H1 _]]; lia.
    + destruct (Z.le_gt_cases k (info_seq L)) as [Hle|Hgt].
      * destruct (Z.le_gt_cases (info_seq L - k) 256) as [Hd|Hd].
        { rewrite Hcov in Hh by lia. congruence. }
        destruct (Z.eq_dec (k mod 256) 0) as [Hm|Hm].
        { rewrite Hcov in Hh by lia. congruence. }
        rewrite Hnone in Hh; [discriminate|].
        intros [E|[H1 [H2|H2]]]; lia.
      * rewrite Hnone in Hh; [discriminate|].
        intros [E|[H1 _]]; lia.
Qed.

Lemma hashOfSeq_chain_coverage_witness :
  exists L,
    chain 100000 Scenario.steadyRounds 299 = Some L
    /\ hashOfSeq L 43 = None
    /\ hashOfSeq L 0 = None
    /\ hashOfSeq L 256 = Some (chainHash 100000 Scenario.steadyRounds 256).
Proof.
  assert (B : Z.of_nat 299 + 1 < 2 ^ 32) by (apply Z.ltb_lt; reflexivity).
  destruct (hashOfSeq_chain_coverage 100000 Scenario.steadyRounds 299%nat 43 B
              ltac:(lia)) as (L & Hch & Hseq & H43 & _).
  destruct (hashOfSeq_chain_coverage 100000 Scenario.steadyRounds 299%nat 0 B
              ltac:(lia)) as (L0 & Hch0 & _ & H0 & _).
  destruct (hashOfSeq_chain_coverage 100000 Scenario.steadyRounds 299%nat 256 B
              ltac:(lia)) as (L2 & Hch2 & _ & H256n & H256).
  rewrite Hch in Hch0, Hch2. injection Hch0 as <-. injection Hch2 as <-.
  exists L. split; [exact Hch|]. rewrite Hseq in *.
  split; [|split].
  - apply H43. intros [E|[_ [H|H]]]; [lia | lia | discriminate H].
  - apply H0. intros [E|[H _]]; lia.
  - destruct (hashOfSeq L 256) as [h|] eqn:E.
    + specialize (H256 h eq_refl). cbn in H256. congruence.
    + exfalso. apply (proj1 H256n eq_refl). right.
      split; [lia | right; reflexivity].
Defined.

(** ** A child ledger and its parent *)

(** Every state operation leaves the ledger as it is or changes the
    items of its state map, and nothing else. *)
Lemma runStateOp_state `{C : Collaborators} (L L' : Ledger) (op : StateOp) :
  runStateOp L op = Some L' ->
  L' = L \/ exists items, L' = withStateItems L items.
Proof.
  assert (Hins : forall X k sle X', rawInsert X k sle = Some X' ->
            exists items, X' = withStateItems X items).
  { intros X k sle X'. unfold rawInsert.
    destruct (stateItems X) as [items|]; [|discriminate]. cbn.
    destruct (items !! k); [discriminate|]. intros [= <-]. eauto. }
  assert (Hrep : forall X k sle X', rawReplace X k sle = Some X' ->
            exists items, X' = withStateItems X items).
  { intros X k sle X'. unfold rawReplace.
    destruct (stateItems X) as [items|]; [|discriminate]. cbn.
    destruct (items !! k); [|discriminate]. intros [= <-]. eauto. }
  assert (Hpast : forall X p X', updatePast256 X p = Some X' ->
            exists items, X' = withStateItems X items).
  { intros X p X'. unfold updatePast256.
    destruct (peek X getLedgerHashIndex); [apply Hrep | apply Hins]. }
  assert (Hevery : forall X p X', updateEvery256th X p = Some X' ->
            exists items, X' = withStateItems X items).
  { intros X p X'. unfold updateEvery256th.
    destruct (peek X (getLedgerHashIndexAt p)); [apply Hrep | apply Hins]. }
  destruct op as [k|k sle|k sle|]; cbn [runStateOp]; intros H.
  - right. unfold rawErase in H.
    destruct (stateItems L) as [items|]; [|discriminate]. cbn in H.
    destruct (items !! k); [|discriminate]. injection H as <-. eauto.
  - right. exact (Hins _ _ _ _ H).
  - right. exact (Hrep _ _ _ _ H).
  - unfold updateSkipList in H.
    destruct (info_seq L =? 0); [left; congruence|]. right.
    destruct (Z.land (u32 (info_seq L - 1)) 255 =? 0).
    + destruct (updateEvery256th L (u32 (info_seq L - 1))) as [L1|] eqn:E1;
        [|discriminate].
      cbn [mbind option_bind] in H.
      destruct (Hevery _ _ _ E1) as [i1 ->].
      destruct (Hpast _ _ _ H) as [i2 ->].
      exists i2. apply withStateItems_twice.
    + cbn [mbind option_bind] in H. exact (Hpast _ _ _ H).
Qed.

Lemma runStateOps_state `{C : Collaborators} (ops : list StateOp) (L L' : Ledger) :
  runStateOps L ops = Some L' ->
  L' = L \/ exists items, L' = withStateItems L items.
Proof.
  revert L. induction ops as [|op ops IH]; intros L H; cbn [runStateOps] in H.
  - left. congruence.
  - destruct (runStateOp L op) as [L1|] eqn:E1; [|discriminate].
    cbn [mbind option_bind] in H.
    destruct (runStateOp_state _ _ _ E1) as [->|[i1 ->]];
      destruct (IH _ H) as [->|[i2 ->]]; eauto.
Qed.

(** What closing and accepting keeps of a mutable ledger. *)
Lemma setAccepted_setClosed_frame `{C : Collaborators}
    (X : Ledger) ct res correct :
  mImmutable X = false ->
  let L := setAccepted (setClosed X) ct res correct in
  info_seq L = info_seq X
  /\ mParentHash L = mParentHash X
  /\ info_parentCloseTime L = info_parentCloseTime X
  /\ mTotCoins L = mTotCoins X
  /\ info_open L = false
  /\ txMap_ L = txMap_ X /\ stateMap_ L = stateMap_ X
  /\ mTransHash L = match txMap_ X with Some m => txGetHash m | None => 0 end
  /\ mAccountHash L
     = match stateMap_ X with Some m => stateGetHash m | None => 0 end.
Proof.
  intros Him. cbv zeta.
  unfold setAccepted, setImmutable, updateHash, refreshRoots, setClosed. fields.
  rewrite Him. fields. repeat split; reflexivity.
Qed.

(** X9.  How a ledger is linked to the one it was opened on.  Take the
    open ledger the constructor builds on [prevLedger], apply any calls
    of [rawErase], [rawInsert], [rawReplace] and [updateSkipList] that do
    not raise, then close and accept it.  The result has the sequence
    number after its parent's (modulo 2^32); its parent hash is the hash
    [getHash] returns for the parent after the constructor, the digest of
    the parent's header with its roots refreshed, which for an immutable
    parent is the digest of its header record; its parent close time is
    the parent's close time.  None of these calls changes the total of
    coins taken from the parent.  The ledger is closed, accepted and
    immutable, keeps the maps it was built with, carries their hashes as
    the two roots of its header, and its hash is the digest of its
    header record. *)
Theorem child_links_to_parent `{C : Collaborators}
    (prevLedger : Ledger) (now : Z) (ops : list StateOp) (built : Ledger)
    (closeTime closeResolution : Z) (correctCloseTime : bool) :
  runStateOps (fst (openChild prevLedger now)) ops = Some built ->
  let L :=
    setAccepted (setClosed built) closeTime closeResolution correctCloseTime in
  info_seq L = u32 (info_seq prevLedger + 1)
  /\ mParentHash L = snd (getHash (snd (openChild prevLedger now)))
  /\ mParentHash L = sha512Half (hashedBytes (refreshRoots prevLedger))
  /\ (mImmutable prevLedger = true ->
      mParentHash L = sha512Half (headerRecord prevLedger))
  /\ info_parentCloseTime L = info_closeTime prevLedger
  /\ mTotCoins L = mTotCoins prevLedger
  /\ info_open L = false /\ mAccepted L = true /\ mImmutable L = true
  /\ txMap_ L = txMap_ built /\ stateMap_ L = stateMap_ built
  /\ mTransHash L = match txMap_ built with Some m => txGetHash m | None => 0 end
  /\ mAccountHash L
     = match stateMap_ built with Some m => stateGetHash m | None => 0 end
  /\ getHash L = (L, sha512Half (headerRecord L)).
Proof.
  intros Hrun. cbv zeta.
  set (child := fst (openChild prevLedger now)) in *.
  assert (Hb : info_seq built = info_seq child
               /\ mParentHash built = mParentHash child
               /\ info_parentCloseTime built = info_parentCloseTime child
               /\ mTotCoins built = mTotCoins child
               /\ mImmutable built = mImmutable child).
  { destruct (runStateOps_state _ _ _ Hrun) as [->|[items ->]];
      repeat split; reflexivity. }
  destruct Hb as (b1 & b2 & b3 & b4 & b5).
  assert (Hmut : mImmutable built = false) by (rewrite b5; reflexivity).
  destruct (setAccepted_setClosed_frame built closeTime closeResolution
              correctCloseTime Hmut)
    as (f1 & f2 & f3 & f4 & f5 & f6 & f7 & f8 & f9).
  destruct (setAccepted_fields (setClosed built) closeTime closeResolution
              correctCloseTime) as (_ & _ & _ & a4 & a5 & a6).
  set (L := setAccepted (setClosed built) closeTime closeResolution
              correctCloseTime) in *.
  assert (Hp : mParentHash child = sha512Half (hashedBytes (refreshRoots prevLedger)))
    by reflexivity.
  split; [rewrite f1, b1; reflexivity|].
  split; [rewrite f2, b2; reflexivity|].
  split; [rewrite f2, b2; exact Hp|].
  split.
  { intros Him. rewrite f2, b2, Hp.
    rewrite (HeaderFacts.refreshRoots_immutable _ Him).
    rewrite HeaderFacts.hashedBytes_headerRecord. reflexivity. }
  split; [rewrite f3, b3; reflexivity|].
  split; [rewrite f4, b4; reflexivity|].
  split; [exact f5|]. split; [exact a4|]. split; [exact a5|].
  split; [exact f6|]. split; [exact f7|]. split; [exact f8|].
  split; [exact f9|].
  unfold getHash.
  assert (Hv : mValidHash L = true) by reflexivity.
  rewrite Hv, a6, HeaderFacts.hashedBytes_headerRecord. reflexivity.
Qed.

Lemma child_links_to_parent_witness :
  exists built,
    runStateOps (fst (openChild (genesisLedger 100000) 1000))
      [OpUpdateSkipList;
       OpInsert (KSkipAt 9) {| sfHashes := [5]; sfLastLedgerSequence := 0 |};
       OpReplace (KSkipAt 9) {| sfHashes := [5; 6]; sfLastLedgerSequence := 0 |};
       OpErase (KSkipAt 9)]
    = Some built
    /\ info_seq (setAccepted (setClosed built) 1010 30 true) = 2
    /\ mParentHash (setAccepted (setClosed built) 1010 30 true)
       = snd (getHash (snd (openChild (genesisLedger 100000) 1000)))
    /\ mTotCoins (setAccepted (setClosed built) 1010 30 true) = 100000.
Proof.
  eexists. split; [vm_compute; reflexivity|].
  match goal with
  | |- info_seq (setAccepted (setClosed ?b) _ _ _) = _ /\ _ =>
      destruct (child_links_to_parent (genesisLedger 100000) 1000
                  [OpUpdateSkipList;
                   OpInsert (KSkipAt 9)
                     {| sfHashes := [5]; sfLastLedgerSequence := 0 |};
                   OpReplace (KSkipAt 9)
                     {| sfHashes := [5; 6]; sfLastLedgerSequence := 0 |};
                   OpErase (KSkipAt 9)] b 1010 30 true)
        as (Hs & Hp & _ & _ & _ & Hc & _)
  end.
  - vm_compute. reflexivity.
  - split; [rewrite Hs; reflexivity|]. split; [exact Hp|].
    rewrite Hc. reflexivity.
Defined.

(** ** The validation clock on a healthy network clock *)

(** X10.  While the network clock reads strictly increasing times, all
    after the last validation timestamp, [validationTimestamp] returns
    the clock readings unchanged, and the last one is what it
    remembers. *)
Theorem validationTimestamps_follow_clock
    (c : ConsensusImp) (networkTimes : list Z) :
  increasingFrom (lastValidationTimestamp_ c) networkTimes ->
  validationTimestamps c networkTimes = networkTimes
  /\ forall t, last networkTimes = Some t ->
       lastValidationTimestamp_
         (fold_left (fun c now => fst (validationTimestamp c now)) networkTimes c)
       = t.
Proof.
  revert c. induction networkTimes as [|t rest IH]; intros c Hinc.
  - split; [reflexivity | discriminate].
  - destruct Hinc as [Hlt Hrest].
    assert (E : validationTimestamp c t
                = ({| proposing_ := proposing_ c; validating_ := validating_ c;
                      lastCloseProposers_ := lastCloseProposers_ c;
                      lastCloseConvergeTook_ := lastCloseConvergeTook_ c;
                      lastValidationTimestamp_ := t;
                      lastCloseTime_ := lastCloseTime_ c |}, t)).
    { unfold validationTimestamp.
      destruct (Z.leb_spec t (lastValidationTimestamp_ c)); [lia | reflexivity]. }
    cbn [validationTimestamps fold_left]. rewrite E. cbn [fst].
    set (c' := {| lastValidationTimestamp_ := t |}) in *.
    destruct (IH c' Hrest) as [IH1 IH2].
    split; [rewrite IH1; reflexivity|].
    intros u Hu. destruct rest as [|t' rest'].
    + cbn in Hu. injection Hu as <-. reflexivity.
    + apply IH2. exact Hu.
Qed.

Lemma validationTimestamps_follow_clock_witness :
  validationTimestamps (newConsensus 15) [100; 105; 230] = [100; 105; 230].
Proof.
  apply (validationTimestamps_follow_clock (newConsensus 15) [100; 105; 230]).
  cbn. lia.
Defined.

(** ** The fee metrics *)

(** X11.  Whatever the configuration, the [FeeMetrics] constructor
    leaves minimum <= target <= maximum (when there is a maximum): a
    target below the minimum is raised to it and a maximum below the
    target is raised to the target.  The number of transactions expected
    starts at the minimum, which in stand-alone mode is
    [minimumTxnInLedgerSA], and the escalation multiplier starts at its
    minimum. *)
Theorem newFeeMetrics_ordered (setup : Setup) :
  minimumTxnCount_ (newFeeMetrics setup)
  = (if standAlone setup then minimumTxnInLedgerSA setup
     else minimumTxnInLedger setup)
  /\ targetTxnCount_ (newFeeMetrics setup)
     = Z.max (targetTxnInLedger setup) (minimumTxnCount_ (newFeeMetrics setup))
  /\ maximumTxnCount_ (newFeeMetrics setup)
     = (fun m => Z.max m (targetTxnCount_ (newFeeMetrics setup)))
         <$> maximumTxnInLedger setup
  /\ minimumTxnCount_ (newFeeMetrics setup) <= targetTxnCount_ (newFeeMetrics setup)
  /\ (forall m, maximumTxnCount_ (newFeeMetrics setup) = Some m ->
        targetTxnCount_ (newFeeMetrics setup) <= m)
  /\ txnsExpected_ (newFeeMetrics setup) = minimumTxnCount_ (newFeeMetrics setup)
  /\ escalationMultiplier_ (newFeeMetrics setup)
     = minimumMultiplier_ (newFeeMetrics setup).
Proof.
  unfold newFeeMetrics.
  cbn [minimumTxnCount_ targetTxnCount_ maximumTxnCount_ txnsExpected_
       minimumMultiplier_ escalationMultiplier_].
  set (mn := if standAlone setup then minimumTxnInLedgerSA setup
             else minimumTxnInLedger setup).
  split; [reflexivity|].
  assert (Ht : (if targetTxnInLedger setup <? mn then mn
                else targetTxnInLedger setup)
               = Z.max (targetTxnInLedger setup) mn).
  { destruct (Z.ltb_spec (targetTxnInLedger setup) mn); lia. }
  rewrite Ht. split; [reflexivity|].
  split.
  { destruct (maximumTxnInLedger setup) as [m|]; [|reflexivity].
    cbn. f_equal.
    destruct (Z.ltb_spec m (Z.max (targetTxnInLedger setup) mn)); lia. }
  split; [lia|]. split; [|split; reflexivity].
  intros m Hm. destruct (maximumTxnInLedger setup) as [m0|]; [|discriminate].
  injection Hm as <-.
  destruct (Z.ltb_spec m0 (Z.max (targetTxnInLedger setup) mn)); lia.
Qed.

(** ** Lowest terms *)

Lemma euclid_gcd (fuel : nat) (x y : Z) :
  0 <= x -> 0 <= y -> (Z.to_nat y < fuel)%nat ->
  euclid fuel x y = Some (Z.gcd x y).
Proof.
  revert x y. induction fuel as [|fuel IH]; intros x y Hx Hy Hf; [lia|].
  cbn [euclid]. destruct (Z.eqb_spec y 0) as [->|Hne].
  - rewrite Z.gcd_0_r, Z.abs_eq by exact Hx. reflexivity.
  - assert (Hm : 0 <= x mod y < y) by (apply Z.mod_pos_bound; lia).
    rewrite IH by lia.
    rewrite (Z.gcd_comm y), Z.gcd_mod by exact Hne.
    rewrite Z.gcd_comm. reflexivity.
Qed.

(** X12.  [lowestTerms] on two unsigned 64-bit values that are not both
    zero, given the iterations Euclid's loop needs (more than the value
    of [b] always suffice): both are divided by their greatest common
    divisor, so the results are coprime, the ratio is unchanged, and a
    second call changes nothing.  On two zeros both divisions are by
    zero. *)
Theorem lowestTerms_gcd (fuel : nat) (a b : Z) :
  0 <= a < 2 ^ 64 -> 0 <= b < 2 ^ 64 -> (Z.to_nat b < fuel)%nat ->
  (a = 0 /\ b = 0 -> lowestTerms fuel a b = None)
  /\ (a <> 0 \/ b <> 0 ->
      lowestTerms fuel a b = Some (a / Z.gcd a b, b / Z.gcd a b)
      /\ Z.gcd (a / Z.gcd a b) (b / Z.gcd a b) = 1
      /\ a = a / Z.gcd a b * Z.gcd a b
      /\ b = b / Z.gcd a b * Z.gcd a b
      /\ a / Z.gcd a b * b = a * (b / Z.gcd a b)
      /\ lowestTerms fuel (a / Z.gcd a b) (b / Z.gcd a b)
         = Some (a / Z.gcd a b, b / Z.gcd a b)).
Proof.
  intros Ha Hb Hf.
  assert (Hlt : forall x y, 0 <= x < 2 ^ 64 -> 0 <= y < 2 ^ 64 ->
            (Z.to_nat y < fuel)%nat ->
            lowestTerms fuel x y
            = if Z.gcd x y =? 0 then None
              else Some (x / Z.gcd x y, y / Z.gcd x y)).
  { intros x y Hx Hy Hfy. unfold lowestTerms.
    rewrite !u64_small by (unfold in_range; lia).
    rewrite euclid_gcd by lia. reflexivity. }
  split.
  - intros [-> ->]. rewrite Hlt by assumption. reflexivity.
  - intros Hnz.
    assert (Hg : 0 < Z.gcd a b).
    { pose proof (Z.gcd_nonneg a b).
      destruct (Z.eq_dec (Z.gcd a b) 0) as [E|NE]; [|lia].
      apply Z.gcd_eq_0 in E. lia. }
    destruct (Z.gcd_divide_l a b) as [qa Hqa].
    destruct (Z.gcd_divide_r a b) as [qb Hqb].
    assert (Ea : a / Z.gcd a b = qa).
    { rewrite Hqa at 1. apply Z.div_mul. lia. }
    assert (Eb : b / Z.gcd a b = qb).
    { rewrite Hqb at 1. apply Z.div_mul. lia. }
    assert (Hco : Z.gcd (a / Z.gcd a b) (b / Z.gcd a b) = 1).
    { apply Z.gcd_div_gcd; [lia | reflexivity]. }
    assert (Hqa0 : 0 <= qa <= a) by nia.
    assert (Hqb0 : 0 <= qb <= b) by nia.
    split.
    { rewrite Hlt by assumption.
      destruct (Z.eqb_spec (Z.gcd a b) 0); [lia | reflexivity]. }
    split; [exact Hco|].
    split; [rewrite Ea; exact Hqa|]. split; [rewrite Eb; exact Hqb|].
    split.
    { rewrite Ea, Eb. rewrite Hqb at 1. rewrite Hqa at 2. ring. }
    rewrite Hlt by (rewrite ?Ea, ?Eb; lia).
    rewrite Hco. cbn [Z.eqb]. rewrite !Z.div_1_r. reflexivity.
Qed.

Lemma lowestTerms_gcd_witness :
  lowestTerms 19 12 18 = Some (2, 3) /\ lowestTerms 1 0 0 = None.
Proof.
  destruct (lowestTerms_gcd 19 12 18) as [_ H]; [lia | lia | lia |].
  destruct (lowestTerms_gcd 1 0 0) as [H0 _]; [lia | lia | lia |].
  destruct H as [E _]; [left; lia|].
  split; [exact E | apply H0; split; reflexivity].
Defined.

(** ** The order of the fee index *)

Lemma orderedBy_sublist comp (l1 l2 : list CandidateTxn) :
  l1 `sublist_of` l2 -> orderedBy comp l2 -> orderedBy comp l1.
Proof.
  induction 1 as [|x l1 l2 Hsub IH|x l1 l2 Hsub IH]; cbn [orderedBy].
  - auto.
  - intros [Hall Hord]. split; [|apply IH; exact Hord].
    apply Forall_forall. intros y Hy. rewrite Forall_forall in Hall.
    apply Hall. exact (elem_of_sublist _ _ _ Hy Hsub).
  - intros [_ Hord]. apply IH. exact Hord.
Qed.

Lemma insertByFee_ordered (c : CandidateTxn) (l : list CandidateTxn) :
  orderedBy GreaterFee l -> orderedBy GreaterFee (insertByFee c l).
Proof.
  induction l as [|x rest IH]; cbn [insertByFee orderedBy].
  - intros _. split; [constructor | exact I].
  - intros [Hall Hrest].
    destruct (Z.ltb_spec (feeLevel x) (feeLevel c)) as [Hlt|Hge];
      cbn [orderedBy].
    + split; [|split; assumption].
      constructor.
      { unfold GreaterFee. apply Z.ltb_ge. lia. }
      eapply Forall_impl; [exact Hall|].
      intros y Hy. unfold GreaterFee in *.
      apply Z.ltb_ge in Hy. apply Z.ltb_ge. lia.
    + split; [|apply IH; exact Hrest].
      apply Forall_forall. intros y Hy.
      apply elem_of_insertByFee in Hy as [->|Hy].
      { unfold GreaterFee. apply Z.ltb_ge. lia. }
      rewrite Forall_forall in Hall. apply Hall. exact Hy.
Qed.

(** The last entry of an ordered index has the lowest fee level. *)
Lemma orderedBy_last (l : list CandidateTxn) lowest x :
  orderedBy GreaterFee l -> last l = Some lowest -> x ∈ l ->
  feeLevel lowest <= feeLevel x.
Proof.
  induction l as [|y rest IH]; intros Hord Hlast Hx; [inversion Hx|].
  destruct Hord as [Hall Hrest].
  destruct rest as [|z rest'].
  - cbn in Hlast. injection Hlast as <-.
    apply list_elem_of_singleton in Hx as ->. lia.
  - change (last (y :: z :: rest')) with (last (z :: rest')) in Hlast.
    apply elem_of_cons in Hx as [->|Hx]; [|apply IH; assumption].
    rewrite Forall_forall in Hall.
    assert (Hin : lowest ∈ z :: rest').
    { apply list_elem_of_lookup. exists (length rest').
      rewrite last_lookup in Hlast. exact Hlast. }
    specialize (Hall lowest Hin). unfold GreaterFee in Hall.
    apply Z.ltb_ge in Hall. exact Hall.
Qed.

(** X13.  The fee index under [GreaterFee]: inserting a candidate into
    an index that iterates from the highest fee level to the lowest
    keeps it so, adds exactly that candidate, and puts it after every
    entry whose fee level is not lower and before every entry whose fee
    level is lower; unlinking an entry keeps the order as well. *)
Theorem insertByFee_keeps_order (c : CandidateTxn) (l : list CandidateTxn) :
  orderedBy GreaterFee l ->
  orderedBy GreaterFee (insertByFee c l)
  /\ insertByFee c l ≡ₚ c :: l
  /\ (exists before after,
        l = before ++ after
        /\ insertByFee c l = before ++ c :: after
        /\ Forall (fun x => feeLevel c <= feeLevel x) before
        /\ Forall (fun x => feeLevel x < feeLevel c) after)
  /\ (forall k, orderedBy GreaterFee (eraseByFee k l)).
Proof.
  intros Hord. split; [|split; [|split]].
  - apply insertByFee_ordered. exact Hord.
  - clear Hord. induction l as [|x rest IH]; cbn [insertByFee]; [reflexivity|].
    destruct (feeLevel x <? feeLevel c); [reflexivity|].
    rewrite IH. apply Permutation_swap.
  - induction l as [|x rest IH]; cbn [insertByFee].
    + exists [], []. repeat split; constructor.
    + destruct Hord as [Hall Hrest].
      destruct (Z.ltb_spec (feeLevel x) (feeLevel c)) as [Hlt|Hge].
      * exists [], (x :: rest). split; [reflexivity|]. split; [reflexivity|].
        split; [constructor|]. constructor; [exact Hlt|].
        eapply Forall_impl; [exact Hall|].
        intros y Hy. unfold GreaterFee in Hy. apply Z.ltb_ge in Hy. lia.
      * destruct (IH Hrest) as (before & after & E1 & E2 & Hb & Ha).
        exists (x :: before), after. rewrite E2.
        split; [rewrite E1 at 1; reflexivity|]. split; [reflexivity|].
        split; [constructor; assumption | exact Ha].
  - intros k. exact (orderedBy_sublist _ _ _ (eraseByFee_sublist k l) Hord).
Qed.

Lemma insertByFee_keeps_order_witness :
  insertByFee (QueueScenario.submission 1000 3)
    [QueueScenario.submission 2000 1; QueueScenario.submission 1000 2;
     QueueScenario.submission 500 4]
  = [QueueScenario.submission 2000 1; QueueScenario.submission 1000 2;
     QueueScenario.submission 1000 3; QueueScenario.submission 500 4]
  /\ orderedBy GreaterFee
       (insertByFee (QueueScenario.submission 1000 3)
          [QueueScenario.submission 2000 1; QueueScenario.submission 1000 2;
           QueueScenario.submission 500 4]).
Proof.
  split; [reflexivity|].
  apply (insertByFee_keeps_order (QueueScenario.submission 1000 3)
           [QueueScenario.submission 2000 1; QueueScenario.submission 1000 2;
            QueueScenario.submission 500 4]).
  cbn. repeat split; repeat constructor.
Defined.

(** *** The queue stays ordered *)

Lemma ordered_erase q c :
  orderedBy GreaterFee (byFee_ q) -> orderedBy GreaterFee (byFee_ (erase q c)).
Proof. apply orderedBy_sublist, eraseByFee_sublist. Qed.

Lemma ordered_insert q c :
  orderedBy GreaterFee (byFee_ q) -> orderedBy GreaterFee (byFee_ (insert q c)).
Proof. apply insertByFee_ordered. Qed.

Lemma ordered_holdInQueue q view tx :
  orderedBy GreaterFee (byFee_ q) ->
  orderedBy GreaterFee (byFee_ (snd (fst (holdInQueue q view tx)))).
Proof.
  intros H. unfold holdInQueue.
  destruct (isFull q); [|apply ordered_insert; exact H].
  destruct (last (byFee_ q)) as [lowest|]; [|apply ordered_insert; exact H].
  destruct (feeLevel tx <=? feeLevel lowest); [exact H|].
  apply ordered_insert, ordered_erase. exact H.
Qed.

Lemma ordered_applyOrHold q view tx direct canBeHeld :
  orderedBy GreaterFee (byFee_ q) ->
  orderedBy GreaterFee
    (byFee_ (snd (fst (applyOrHold q view tx direct canBeHeld)))).
Proof.
  intros H. unfold applyOrHold.
  assert (Hhold : orderedBy GreaterFee
                    (byFee_ (snd (fst (if canBeHeld then holdInQueue q view tx
                                       else (CannotBeHeld, q, view)))))).
  { destruct canBeHeld; [apply ordered_holdInQueue; exact H | exact H]. }
  destruct (scaleFeeLevel (feeMetrics_ q) (txCount view) <=? feeLevel tx);
    [destruct direct|]; try exact Hhold; exact H.
Qed.

Lemma ordered_apply q view tx preflightOk direct canBeHeld :
  orderedBy GreaterFee (byFee_ q) ->
  orderedBy GreaterFee
    (byFee_ (snd (fst (TxQ.apply q view tx preflightOk direct canBeHeld)))).
Proof.
  intros H. unfold TxQ.apply.
  destruct (negb preflightOk); [exact H|].
  destruct (lookupCandidate q (account tx) (sequence tx)) as [existing|].
  - destruct (feeLevel tx <? requiredRetryLevel (setup_ q) existing); [exact H|].
    apply ordered_applyOrHold, ordered_erase. exact H.
  - apply ordered_applyOrHold. exact H.
Qed.

Lemma ordered_acceptLoop engine pending skipping q view :
  orderedBy GreaterFee (byFee_ q) ->
  orderedBy GreaterFee (byFee_ (fst (acceptLoop engine pending skipping q view))).
Proof.
  revert skipping q view.
  induction pending as [|c rest IH]; intros skipping q view H; cbn;
    [exact H|].
  destruct (bool_decide (skipping = Some (account c))); [apply IH; exact H|].
  destruct (feeLevel c <? scaleFeeLevel (feeMetrics_ q) (txCount view));
    [exact H|].
  destruct (hasPrior q c && _); [apply IH; exact H|].
  destruct (engine c (txCount view)); apply IH;
    try apply ordered_erase; exact H.
Qed.

Lemma ordered_eraseAll cs q :
  orderedBy GreaterFee (byFee_ q) -> orderedBy GreaterFee (byFee_ (eraseAll q cs)).
Proof.
  revert q. unfold eraseAll.
  induction cs as [|c cs IH]; intros q H; cbn; [exact H|].
  apply IH, ordered_erase. exact H.
Qed.

(** X14.  In every state the queue can reach through [TxQ::apply],
    [TxQ::accept] and [TxQ::processValidatedLedger], the fee index
    iterates "in order from highest fee level to lowest": no entry has a
    higher fee level than an entry before it, so the first entry has the
    highest fee level in the queue and the last one, which is the one
    removed to make room when the queue is full, the lowest. *)
Theorem reachable_fee_order (setup : Setup) (q : Queue) :
  reachable setup q ->
  orderedBy GreaterFee (byFee_ q)
  /\ (forall lowest x,
        last (byFee_ q) = Some lowest -> x ∈ byFee_ q ->
        feeLevel lowest <= feeLevel x)
  /\ (forall highest x,
        head (byFee_ q) = Some highest -> x ∈ byFee_ q ->
        feeLevel x <= feeLevel highest).
Proof.
  intros Hr.
  assert (Hord : orderedBy GreaterFee (byFee_ q)).
  { induction Hr.
    - exact I.
    - apply ordered_apply. assumption.
    - apply ordered_acceptLoop. assumption.
    - unfold processValidatedLedger. apply ordered_eraseAll, ordered_eraseAll.
      assumption. }
  split; [exact Hord|]. split.
  - intros lowest x Hl Hx. exact (orderedBy_last _ _ _ Hord Hl Hx).
  - intros highest x Hh Hx.
    destruct (byFee_ q) as [|y rest]; [discriminate|].
    injection Hh as <-. destruct Hord as [Hall _].
    apply elem_of_cons in Hx as [->|Hx]; [lia|].
    rewrite Forall_forall in Hall. specialize (Hall x Hx).
    unfold GreaterFee in Hall. apply Z.ltb_ge in Hall. exact Hall.
Qed.

Lemma drained_reachable :
  reachable QueueScenario.smallSetup QueueScenario.drained.
Proof.
  unfold QueueScenario.drained, QueueScenario.evicted, QueueScenario.trimmed,
    QueueScenario.fiveQueued, QueueScenario.hold.
  apply reach_accept, reach_apply, reach_processValidatedLedger.
  do 5 apply reach_apply. apply reach_new.
Qed.

Lemma reachable_fee_order_witness :
  feeLevel <$> byFee_ QueueScenario.fiveQueued = [3000; 3000; 2000; 1500; 1000]
  /\ feeLevel <$> byFee_ QueueScenario.trimmed = [3000; 3000; 2000; 1500]
  /\ feeLevel <$> byFee_ QueueScenario.evicted = [3000; 3000; 2500; 2000]
  /\ byFee_ QueueScenario.drained
     = [QueueScenario.candidate 2 4 3000 24; QueueScenario.candidate 4 1 2500 26;
        QueueScenario.candidate 3 5 2000 23]
  /\ orderedBy GreaterFee (byFee_ QueueScenario.drained)
  /\ (forall x, x ∈ byFee_ QueueScenario.drained -> 2000 <= feeLevel x <= 3000).
Proof.
  destruct (reachable_fee_order QueueScenario.smallSetup QueueScenario.drained
              drained_reachable) as (Hord & Hlow & Hhigh).
  split; [vm_compute; reflexivity|]. split; [vm_compute; reflexivity|].
  split; [vm_compute; reflexivity|]. split; [vm_compute; reflexivity|].
  split; [exact Hord|].
  intros x Hx. split.
  - apply (Hlow (QueueScenario.candidate 3 5 2000 23) x);
      [vm_compute; reflexivity | exact Hx].
  - apply (Hhigh (QueueScenario.candidate 2 4 3000 24) x);
      [vm_compute; reflexivity | exact Hx].
Defined.

(** ** The node store and the [Ledgers] table *)

(** What the constructor from fields builds. *)
Lemma ledgerFromFields_parts `{C : Collaborators}
    ph th ah tc ct pct fl res seq (a b : bool) :
  let r := ledgerFromFields ph th ah tc ct pct fl res seq a b in
  (info_seq (fst (fst r)) = seq /\ mTotCoins (fst (fst r)) = tc
   /\ mParentHash (fst (fst r)) = ph /\ mTransHash (fst (fst r)) = th
   /\ mAccountHash (fst (fst r)) = ah
   /\ info_parentCloseTime (fst (fst r)) = pct
   /\ info_closeTime (fst (fst r)) = ct
   /\ mCloseResolution (fst (fst r)) = res /\ mCloseFlags (fst (fst r)) = fl)
  /\ mImmutable (fst (fst r)) = true
  /\ mValidHash (fst (fst r)) = true
  /\ info_hash (fst (fst r)) = sha512Half (hashedBytes (fst (fst r)))
  /\ snd (fst r)
     = ({| rootFetched := negb (th =? 0) && a; mapImmutable := true |},
        {| rootFetched := negb (ah =? 0) && b; mapImmutable := true |})
  /\ snd r
     = negb (negb (th =? 0) && negb a) && negb (negb (ah =? 0) && negb b).
Proof.
  cbv zeta. unfold ledgerFromFields. cbv zeta.
  match goal with
  | |- context [updateHash ?R] => set (R0 := R)
  end.
  assert (Ht : mTransHash (updateHash R0) = th) by reflexivity.
  assert (Ha : mAccountHash (updateHash R0) = ah) by reflexivity.
  rewrite Ht, Ha. cbn [fst snd].
  split; [repeat split; reflexivity|].
  split; [reflexivity|]. split; [reflexivity|].
  split; [apply HeaderFacts.updateHash_info_hash|].
  split; [reflexivity|].
  destruct (th =? 0), (ah =? 0), a, b; reflexivity.
Qed.

(** The hash [getHash] returns for an immutable ledger whose stored hash
    is the digest of its header. *)
Lemma getHash_immutable `{C : Collaborators} (X : Ledger) :
  mImmutable X = true -> info_hash X = sha512Half (hashedBytes X) ->
  snd (getHash X) = sha512Half (headerRecord X).
Proof.
  intros Him Hh. rewrite <- HeaderFacts.hashedBytes_headerRecord.
  unfold getHash. destruct (mValidHash X); cbn [snd]; [exact Hh|].
  unfold updateHash. rewrite (HeaderFacts.refreshRoots_immutable X Him).
  reflexivity.
Qed.

Lemma headerRecord_same_header `{C : Collaborators} (X Y : Ledger) :
  same_header X Y -> headerRecord X = headerRecord Y.
Proof.
  intros H. rewrite <- !HeaderFacts.hashedBytes_headerRecord.
  apply HeaderFacts.hashedBytes_same_header. exact H.
Qed.

(** X15.  The two places a validated ledger is kept agree on its header.
    Decoding the header record that [saveValidatedLedger] puts in the
    node store, with or without its hash prefix, always succeeds and
    needs nothing else from the node store; the ledger it gives has the
    nine header fields as saved, is immutable, and its hash is the digest
    of the header record.  [loadLedgerHelper] on the row written to the
    [Ledgers] table returns the saved sequence and hash columns; it
    returns a ledger exactly when the constructor from fields could fetch
    every non-zero root, and that ledger has the same nine header fields
    and the same hash as the decoded one.  The constructor has then
    fetched the non-zero roots and made both maps immutable. *)
Theorem header_record_and_row_agree `{C : Collaborators}
    (L : Ledger) (haveTxRoot haveStateRoot : bool) :
  header_wf L -> mImmutable L = true ->
  let fromRow := loadLedgerHelper (Some (ledgerRow L)) haveTxRoot haveStateRoot in
  let built :=
    ledgerFromFields (mParentHash L) (mTransHash L) (mAccountHash L)
      (mTotCoins L) (info_closeTime L) (info_parentCloseTime L)
      (mCloseFlags L) (mCloseResolution L) (info_seq L)
      haveTxRoot haveStateRoot in
  exists R,
    ledgerFromRaw (headerRecord L) true = Some R
    /\ ledgerFromRaw (addRaw L []) false = Some R
    /\ same_header R L /\ mImmutable R = true
    /\ snd (getHash R) = sha512Half (headerRecord L)
    /\ fromRow
       = (if snd built then Some (fst (fst built)) else None,
          info_seq L, snd (getHash L))
    /\ (snd built = false
        <-> (mTransHash L <> 0 /\ haveTxRoot = false)
            \/ (mAccountHash L <> 0 /\ haveStateRoot = false))
    /\ same_header (fst (fst built)) R
    /\ mImmutable (fst (fst built)) = true
    /\ snd (getHash (fst (fst built))) = snd (getHash R)
    /\ (hash_coherent L -> snd (getHash L) = snd (getHash R))
    /\ mapImmutable (fst (snd (fst built))) = true
    /\ mapImmutable (snd (snd (fst built))) = true
    /\ (snd built = true ->
        (mTransHash L <> 0 -> rootFetched (fst (snd (fst built))) = true)
        /\ (mAccountHash L <> 0 -> rootFetched (snd (snd (fst built))) = true)).
Proof.
  intros W Him. cbv zeta.
  assert (Hpre : ledgerFromRaw (headerRecord L) true
                 = ledgerFromRaw (addRaw L []) false).
  { unfold ledgerFromRaw.
    rewrite HeaderFacts.headerRecord_addRaw. apply HeaderFacts.setRaw_prefix. }
  destruct (HeaderFacts.setRaw_addRaw (blankLedger true) L [] false
              eq_refl eq_refl)
    as (R & HR & a1 & a2 & a3 & a4 & a5 & a6 & a7 & a8 & a9 & Rh & Ri & _).
  rewrite app_nil_l in HR.
  change (setRaw (blankLedger true) (addRaw L []) false)
    with (ledgerFromRaw (addRaw L []) false) in HR.
  pose proof W as (w1 & w2 & w3 & w4 & w5 & w6 & w7 & w8 & w9).
  unfold in_range in *.
  unfold u8, u32, u64 in a1, a2, a3, a4, a5, a6, a7, a8, a9.
  rewrite wrap_small in a1, a2, a3, a4, a5, a6, a7, a8, a9 by assumption.
  assert (HRL : same_header R L).
  { unfold same_header. repeat split; assumption. }
  assert (HRh : snd (getHash R) = sha512Half (headerRecord L)).
  { rewrite (getHash_immutable R Ri Rh).
    rewrite (headerRecord_same_header _ _ HRL). reflexivity. }
  destruct (ledgerFromFields_parts (mParentHash L) (mTransHash L)
              (mAccountHash L) (mTotCoins L) (info_closeTime L)
              (info_parentCloseTime L) (mCloseFlags L) (mCloseResolution L)
              (info_seq L) haveTxRoot haveStateRoot)
    as ((d1 & d2 & d3 & d4 & d5 & d6 & d7 & d8 & d9) & Di & Dv & Dh & Dm & Dl).
  set (built := ledgerFromFields (mParentHash L) (mTransHash L)
                  (mAccountHash L) (mTotCoins L) (info_closeTime L)
                  (info_parentCloseTime L) (mCloseFlags L) (mCloseResolution L)
                  (info_seq L) haveTxRoot haveStateRoot) in *.
  assert (HDR : same_header (fst (fst built)) R).
  { unfold same_header. repeat split; congruence. }
  exists R. split; [rewrite Hpre; exact HR|]. split; [exact HR|].
  split; [exact HRL|]. split; [exact Ri|]. split; [exact HRh|].
  split.
  { unfold loadLedgerHelper. rewrite (ledgerRow_immutable L Him).
    cbn [LedgerHash LedgerSeq PrevHash TotalCoins ClosingTime PrevClosingTime
         CloseTimeRes CloseFlags AccountSetHash TransSetHash default
         from_option id].
    rewrite !u32_small by (unfold in_range; lia).
    rewrite !to_int_small by lia.
    fold built. destruct built as [[ledger maps] loaded]. cbn [fst snd].
    destruct loaded; reflexivity. }
  split.
  { rewrite Dl.
    destruct (Z.eqb_spec (mTransHash L) 0) as [Et|Et],
      (Z.eqb_spec (mAccountHash L) 0) as [Ea|Ea],
      haveTxRoot, haveStateRoot; cbn [negb andb];
      split; intros H; try discriminate; try reflexivity;
      try (exfalso; destruct H as [[? ?]|[? ?]]; congruence);
      try (left; split; [assumption | reflexivity]);
      try (right; split; [assumption | reflexivity]). }
  split; [exact HDR|]. split; [exact Di|].
  split.
  { assert (HDL : same_header (fst (fst built)) L).
    { unfold same_header. repeat split; assumption. }
    rewrite (getHash_immutable _ Di Dh), HRh.
    rewrite (headerRecord_same_header _ _ HDL). reflexivity. }
  split.
  { intros Hc. rewrite Hc, HRh, HeaderFacts.updateHash_info_hash.
    rewrite <- HeaderFacts.hashedBytes_headerRecord.
    rewrite (HeaderFacts.hashedBytes_same_header _ _
               (HeaderFacts.updateHash_header L)).
    rewrite (HeaderFacts.refreshRoots_immutable L Him). reflexivity. }
  rewrite Dm. cbn [fst snd rootFetched mapImmutable].
  split; [reflexivity|]. split; [reflexivity|].
  rewrite Dl. intros Hl.
  destruct (Z.eqb_spec (mTransHash L) 0) as [Et|Et],
    (Z.eqb_spec (mAccountHash L) 0) as [Ea|Ea],
    haveTxRoot, haveStateRoot; cbn [negb andb] in *;
    try discriminate Hl; split; intros H; try reflexivity; contradiction.
Qed.

Lemma header_record_and_row_agree_witness :
  exists R D,
    ledgerFromRaw (headerRecord Scenario.sampleHeader) true = Some R
    /\ fst (fst (loadLedgerHelper (Some (ledgerRow Scenario.sampleHeader))
                   true true)) = Some D
    /\ same_header D R /\ snd (getHash D) = snd (getHash R)
    /\ info_seq R = 300 /\ mCloseFlags D = 1.
Proof.
  assert (W : header_wf Scenario.sampleHeader).
  { unfold header_wf, in_range. cbn. lia. }
  destruct (header_record_and_row_agree Scenario.sampleHeader true true W eq_refl)
    as (R & HR & _ & HRL & _ & _ & Hrow & _ & HDR & _ & Hh & _).
  exists R. eexists.
  split; [exact HR|]. split; [rewrite Hrow; reflexivity|].
  split; [exact HDR|]. split; [exact Hh|].
  destruct HRL as (s1 & _). split; [rewrite s1; reflexivity | reflexivity].
Defined.
